(** * Neural Spark Network: a shallow embedding of [script.js]

    JavaScript numbers are modelled as mathematical reals ([R]): every
    arithmetic operation of the source is read without rounding, NaN or
    infinities.  Objects live in a heap (a map from addresses to [Spark]
    objects) and are referred to by address, so that the aliasing between the population array, the
    connection ledger and the flow particles is the one of the source.
    [Math.random] and [performance.now] are oracles indexed by the number of
    calls made so far. *)

From Stdlib Require Import Reals Lra Lia ZArith.
From stdpp Require Import base option gmap fin_maps functions.
From stdpp Require Import list.

Open Scope R_scope.

Set Warnings "-clear-no-such-hyp".

(** ** Configuration *)

Record Config := {
  sparkCountDesktop : R;
  sparkCountMobile : R;
  interactionRadius : R;
  transferRatePerSec : R;
  colorRatePerSec : R;
  energyDecayPerSec : R;
  energyFloor : R;
  baseRadiusMin : R;
  baseRadiusMax : R;
  glowMultiplier : R;
  lineAlphaMax : R;
  maxFlowParticles : nat;
  flowParticleSpeed : R;
  flowSpawnRate : R;
  maxInteractionsPerFrame : nat;
  maxDpr : R;
  spawnPadding : R;
  maxSpeed : R;
  driftStrength : R;
  damping : R;
  lifetimeMin : R;
  lifetimeMax : R;
  spawnRatePerSec : R
}.

Definition CONFIG : Config := {|
  sparkCountDesktop := 120;
  sparkCountMobile := 55;
  interactionRadius := 110;
  transferRatePerSec := 6 / 10;
  colorRatePerSec := 1;
  energyDecayPerSec := 18 / 1000;
  energyFloor := 15 / 100;
  baseRadiusMin := 18 / 10;
  baseRadiusMax := 4;
  glowMultiplier := 6;
  lineAlphaMax := 25 / 100;
  maxFlowParticles := 100;
  flowParticleSpeed := 60;
  flowSpawnRate := 2 / 10;
  maxInteractionsPerFrame := 1200;
  maxDpr := 2;
  spawnPadding := 0;
  maxSpeed := 20;
  driftStrength := 10;
  damping := 97 / 100;
  lifetimeMin := 6000;
  lifetimeMax := 12000;
  spawnRatePerSec := 5
|}.

Definition Color : Type := R * R * R.

Definition BASE_COLORS (i : Z) : Color :=
  match i with
  | 0%Z => (235, 170, 60)
  | 1%Z => (210, 100, 60)
  | _ => (150, 110, 190)
  end.

(** ** Utility functions *)

(** The comparisons of the source are decidable tests on reals. *)
#[global] Instance Rlt_decision (a b : R) : Decision (a < b) := Rlt_dec a b.
#[global] Instance Rle_decision (a b : R) : Decision (a <= b) := Rle_dec a b.
#[global] Instance Rgt_decision (a b : R) : Decision (a > b) := Rgt_dec a b.
#[global] Instance Rge_decision (a b : R) : Decision (a >= b) := Rge_dec a b.
#[global] Instance Req_decision : EqDecision R := Req_dec_T.

Definition clamp (v lo hi : R) : R := Rmax lo (Rmin hi v).
Definition lerp (a b t : R) : R := a + (b - a) * t.
Definition smoothstep (edge0 edge1 x : R) : R :=
  let t := clamp ((x - edge0) / (edge1 - edge0)) 0 1 in
  t * t * (3 - 2 * t).

(** [Math.floor] and [Math.round] (round half up) on reals. *)
Definition Math_floor (x : R) : Z := Int_part x.
Definition Math_ceil (x : R) : Z := (- Int_part (- x))%Z.
Definition Math_round (x : R) : R := IZR (Math_floor (x + / 2)).
Definition Math_hypot (a b : R) : R := sqrt (a * a + b * b).

(** [Math.pow] on a non-negative base: [0 ** y] is [0] for positive [y] and
    [1] for [y = 0].  The other cases (negative base, [0] to a negative
    power) are NaN or infinite in the source and are outside the model. *)
Definition Math_pow (x y : R) : R :=
  if decide (0 < x) then Rpower x y
  else if decide (y = 0) then 1 else 0.

Definition GAMMA : R := 22 / 10.
Definition toLinear (c : R) : R := Math_pow (c / 255) GAMMA.
Definition toSRGB (c : R) : R :=
  Math_round (Math_pow (clamp c 0 1) (1 / GAMMA) * 255).

Definition darkening (t : R) : R := 1 - t * (1 - t) * (15 / 100).

Definition mixColorsLinear (c1 c2 : Color) (t : R) : Color :=
  let '(r1, g1, b1) := c1 in
  let '(r2, g2, b2) := c2 in
  let r := lerp (toLinear r1) (toLinear r2) t in
  let g := lerp (toLinear g1) (toLinear g2) t in
  let b := lerp (toLinear b1) (toLinear b2) t in
  let darken := darkening t in
  (toSRGB (r * darken), toSRGB (g * darken), toSRGB (b * darken)).

(** ** Environment oracles and the heap of spark objects *)

Record Env := {
  random : nat -> R;   (* the n-th value returned by Math.random() *)
  perfNow : nat -> R   (* the n-th value returned by performance.now() *)
}.

(** The address of a [Spark] object; [other !== spark] compares these. *)
Abbreviation ref := nat (only parsing).

(** ** Minimal neural network *)

Module TinyNN.

Record t := { w1 : list (list R); b1 : list R; w2 : list R; b2 : R }.

(** A missing array entry reads as [0] here ([undefined] in the source). *)
Definition at1 (l : list R) (i : nat) : R := nth i l 0.
Definition at2 (m : list (list R)) (i j : nat) : R := at1 (nth i m []) j.

Definition forward (self : t) (inputs : list R) : R :=
  let hidden :=
    imap (fun j b =>
            tanh (fold_left (fun sum i => sum + at1 inputs i * at2 (w1 self) i j)
                            (seq 0 4) b))
         (b1 self) in
  let out :=
    fold_left (fun out i => out + at1 hidden i * at1 (w2 self) i) (seq 0 6) (b2 self) in
  1 / (1 + exp (- out)).

(** [new TinyNN()]: 37 random numbers are read, [k] being the number of
    [Math.random] calls made before; [w1] is filled row by row. *)
Definition new (E : Env) (k : nat) : t :=
  let scale1 := sqrt (2 / 10) in
  let scale2 := sqrt (2 / 7) in
  {| w1 := map (fun i => map (fun j => (random E (k + i * 6 + j) * 2 - 1) * scale1)
                             (seq 0 6))
               (seq 0 4);
     b1 := map (fun j => (random E (k + 24 + j) - 1 / 2) * (1 / 10)) (seq 0 6);
     w2 := map (fun j => (random E (k + 30 + j) * 2 - 1) * scale2) (seq 0 6);
     b2 := (random E (k + 36) - 1 / 2) * (1 / 10) |}.

End TinyNN.

(** ** Spark *)

Module Spark.

Record t := {
  id : nat;
  x : R; y : R; w : R; h : R;
  vx : R; vy : R;
  baseRadius : R;
  energy : R;
  seedFeature : R;
  color : Color;
  birth : R;
  lifetime : R;
  polarity : R;
  ringAlpha : R;
  fade : option R      (* not set by the constructor *)
}.

Definition set_energy (e : R) (s : t) : t :=
  {| id := id s; x := x s; y := y s; w := w s; h := h s; vx := vx s; vy := vy s;
     baseRadius := baseRadius s; energy := e; seedFeature := seedFeature s;
     color := color s; birth := birth s; lifetime := lifetime s;
     polarity := polarity s; ringAlpha := ringAlpha s; fade := fade s |}.

Definition set_ringAlpha (a : R) (s : t) : t :=
  {| id := id s; x := x s; y := y s; w := w s; h := h s; vx := vx s; vy := vy s;
     baseRadius := baseRadius s; energy := energy s; seedFeature := seedFeature s;
     color := color s; birth := birth s; lifetime := lifetime s;
     polarity := polarity s; ringAlpha := a; fade := fade s |}.

Definition set_color (c : Color) (s : t) : t :=
  {| id := id s; x := x s; y := y s; w := w s; h := h s; vx := vx s; vy := vy s;
     baseRadius := baseRadius s; energy := energy s; seedFeature := seedFeature s;
     color := c; birth := birth s; lifetime := lifetime s;
     polarity := polarity s; ringAlpha := ringAlpha s; fade := fade s |}.

(** [new Spark(x, y, w, h, nn)]: [idc] is the value of [sparkIdCounter],
    [k] the number of [Math.random] calls and [n] the number of
    [performance.now] calls made before.  Ten random numbers are read. *)
Definition new (cfg : Config) (E : Env) (idc k n : nat)
    (x0 y0 w0 h0 : R) (nn : TinyNN.t) : t :=
  let rnd i := random E (k + i) in
  let seed := rnd 4%nat in
  let base := BASE_COLORS (Math_floor (rnd 5%nat * 3)) in
  let variation := 30 in
  {| id := idc;
     x := x0; y := y0; w := w0; h := h0;
     vx := (rnd 0%nat - 1 / 2) * maxSpeed cfg * (1 / 2);
     vy := (rnd 1%nat - 1 / 2) * maxSpeed cfg * (1 / 2);
     baseRadius := lerp (baseRadiusMin cfg) (baseRadiusMax cfg) (rnd 2%nat);
     energy := 4 / 10 + rnd 3%nat * (4 / 10);
     seedFeature := seed;
     color := (clamp (base.1.1 + (rnd 6%nat - 1 / 2) * variation) 0 255,
               clamp (base.1.2 + (rnd 7%nat - 1 / 2) * variation) 0 255,
               clamp (base.2 + (rnd 8%nat - 1 / 2) * variation) 0 255);
     birth := perfNow E n;
     lifetime := lerp (lifetimeMin cfg) (lifetimeMax cfg) (rnd 9%nat);
     polarity := TinyNN.forward nn
                   [x0 / w0 * 2 - 1; y0 / h0 * 2 - 1; 0; seed * 2 - 1];
     ringAlpha := 0;
     fade := None |}.

(** The toroidal wrap of one coordinate: two independent tests. *)
Definition wrap (p bound : R) : R :=
  let p1 := if decide (p < 0) then p + bound else p in
  if decide (p1 > bound) then p1 - bound else p1.

(** [update(dt, time)]: the new object and whether it is still alive. *)
Definition update (cfg : Config) (s : t) (dt time : R) : t * bool :=
  let age := time - birth s in
  let lifeRatio := age / lifetime s in
  let noiseX := sin (time * (1 / 1000) + seedFeature s * 10) * driftStrength cfg in
  let noiseY := cos (time * (12 / 10000) + seedFeature s * 7) * driftStrength cfg in
  let vx1 := vx s + noiseX * dt in
  let vy1 := vy s + noiseY * dt in
  let vx2 := vx1 * Math_pow (damping cfg) (dt * 60) in
  let vy2 := vy1 * Math_pow (damping cfg) (dt * 60) in
  let speed := Math_hypot vx2 vy2 in
  let vx3 := if decide (speed > maxSpeed cfg) then vx2 / speed * maxSpeed cfg else vx2 in
  let vy3 := if decide (speed > maxSpeed cfg) then vy2 / speed * maxSpeed cfg else vy2 in
  let x1 := wrap (x s + vx3 * dt) (w s) in
  let y1 := wrap (y s + vy3 * dt) (h s) in
  let e1 := energy s * Math_pow (1 - energyDecayPerSec cfg) dt in
  let e2 := Rmax (energyFloor cfg * (1 / 2)) e1 in
  let fadeIn := clamp (age / 500) 0 1 in
  let fadeOut :=
    if decide (lifeRatio > 75 / 100)
    then 1 - (lifeRatio - 75 / 100) / (25 / 100) else 1 in
  ({| id := id s; x := x1; y := y1; w := w s; h := h s; vx := vx3; vy := vy3;
      baseRadius := baseRadius s; energy := e2; seedFeature := seedFeature s;
      color := color s; birth := birth s; lifetime := lifetime s;
      polarity := polarity s; ringAlpha := ringAlpha s * (9 / 10);
      fade := Some (fadeIn * fadeOut) |},
   bool_decide (age < lifetime s)).

(** [getRadius()] and [getAlpha()]; they read [fade], which is set by the
    first [update] ([None] stands for the NaN an earlier call gives). *)
Definition getRadius (s : t) : option R :=
  let energyScale := 4 / 10 + 16 / 10 * energy s * energy s in
  f ← fade s; Some (baseRadius s * energyScale * f).

Definition getAlpha (s : t) : option R :=
  f ← fade s; Some (clamp (3 / 10 + 7 / 10 * energy s) 0 1 * f).

End Spark.

(** The heap maps every address to the object stored there; addresses below
    the allocation pointer of the system are the allocated ones. *)
Abbreviation Heap := (ref -> Spark.t) (only parsing).

(** ** Spatial hash grid *)

Module SpatialGrid.

(** The cell key [`${col},${row}`] is modelled by the pair of integers. *)
Record t := {
  cellSize : R;
  cols : Z;
  rows : Z;
  cells : gmap (Z * Z) (list ref)
}.

Definition new (cellSize0 width height : R) : t :=
  {| cellSize := cellSize0;
     cols := Math_ceil (width / cellSize0);
     rows := Math_ceil (height / cellSize0);
     cells := ∅ |}.

Definition clear (g : t) : t :=
  {| cellSize := cellSize g; cols := cols g; rows := rows g; cells := ∅ |}.

Definition getKey (g : t) (x y : R) : Z * Z :=
  (Math_floor (x / cellSize g), Math_floor (y / cellSize g)).

Definition insert (hp : Heap) (g : t) (spark : ref) : t :=
  let key := getKey g (Spark.x (hp spark)) (Spark.y (hp spark)) in
  let cell := default [] (cells g !! key) in
  {| cellSize := cellSize g; cols := cols g; rows := rows g;
     cells := <[key := cell ++ [spark]]> (cells g) |}.

(** The offsets of the 3x3 block in the order of the two nested loops. *)
Definition offsets : list (Z * Z) :=
  dc ← [-1; 0; 1]%Z; dr ← [-1; 0; 1]%Z; [(dc, dr)].

Definition getNeighbors (hp : Heap) (g : t) (spark : ref) : list ref :=
  let col := Math_floor (Spark.x (hp spark) / cellSize g) in
  let row := Math_floor (Spark.y (hp spark) / cellSize g) in
  d ← offsets;
  filter (fun other => other ≠ spark)
         (default [] (cells g !! ((col + d.1)%Z, (row + d.2)%Z))).

End SpatialGrid.

(** ** Flow particle *)

Module FlowParticle.

Record t := {
  giver : ref;
  receiver : ref;
  t_ : R;            (* the progress field [t] *)
  color : Color;
  alpha : R;
  size : R
}.

(** [new FlowParticle(giver, receiver, color)]; [r] is the random number
    read for the size. *)
Definition new (giver0 receiver0 : ref) (color0 : Color) (r : R) : t :=
  {| giver := giver0; receiver := receiver0; t_ := 0; color := color0;
     alpha := 8 / 10; size := 15 / 10 + r |}.

Definition update (cfg : Config) (hp : Heap) (p : t) (dt : R) : t * bool :=
  let dist := Math_hypot (Spark.x (hp (receiver p)) - Spark.x (hp (giver p)))
                         (Spark.y (hp (receiver p)) - Spark.y (hp (giver p))) in
  let speed := flowParticleSpeed cfg / Rmax dist 1 in
  let t1 := t_ p + speed * dt in
  ({| giver := giver p; receiver := receiver p; t_ := t1; color := color p;
      alpha := 8 / 10 * (1 - t1); size := size p |},
   bool_decide (t1 < 1)).

Definition getPosition (hp : Heap) (p : t) : R * R :=
  (lerp (Spark.x (hp (giver p))) (Spark.x (hp (receiver p))) (t_ p),
   lerp (Spark.y (hp (giver p))) (Spark.y (hp (receiver p))) (t_ p)).

End FlowParticle.

(** ** Main spark system *)

Module SparkSystem.

(** An entry of the connection ledger.  The ledger is keyed by the string
    [`${lo}-${hi}`] of two spark ids, modelled by the pair [(lo, hi)]. *)
Record Conn := { strength : R; a : ref; b : ref }.

Definition Key : Type := nat * nat.

Record t := {
  heap : Heap;                 (* the spark objects *)
  heapNext : ref;              (* the next free address *)
  sparkIdCounter : nat;        (* the global id counter *)
  randCalls : nat;             (* calls of Math.random() so far *)
  nowCalls : nat;              (* calls of performance.now() so far *)
  width : R;
  height : R;
  sparkCount : R;
  sparks : list ref;
  flowParticles : list FlowParticle.t;
  connections : gmap Key Conn;
  nn : TinyNN.t;
  grid : SpatialGrid.t;
  lastTime : R;
  spawnAccumulator : R
}.

Definition spawnSpark (cfg : Config) (E : Env) (st : t) : t :=
  if decide (INR (length (sparks st)) >= sparkCount st) then st
  else
    let pad := spawnPadding cfg in
    let x := width st * (pad + random E (randCalls st) * (1 - 2 * pad)) in
    let y := height st * (pad + random E (S (randCalls st)) * (1 - 2 * pad)) in
    let s := Spark.new cfg E (sparkIdCounter st) (S (S (randCalls st))) (nowCalls st)
                       x y (width st) (height st) (nn st) in
    {| heap := <[heapNext st := s]> (heap st);
       heapNext := S (heapNext st);
       sparkIdCounter := S (sparkIdCounter st);
       randCalls := (randCalls st + 12)%nat;
       nowCalls := S (nowCalls st);
       width := width st; height := height st; sparkCount := sparkCount st;
       sparks := sparks st ++ [heapNext st];
       flowParticles := flowParticles st;
       connections := connections st;
       nn := nn st; grid := grid st;
       lastTime := lastTime st;
       spawnAccumulator := spawnAccumulator st |}.

Definition getConnectionKey (a0 b0 : Spark.t) : Key :=
  if (Spark.id a0 <? Spark.id b0)%nat
  then (Spark.id a0, Spark.id b0) else (Spark.id b0, Spark.id a0).

(** The state threaded through the two nested loops of
    [processInteractions]: the mutable part of the system and the locals
    [interactions], [processed] and [activeConnections]. *)
Record Pass := {
  p_heap : Heap;
  p_randCalls : nat;
  p_flowParticles : list FlowParticle.t;
  p_connections : gmap Key Conn;
  interactions : nat;
  processed : gset Key;
  activeConnections : gset Key
}.

Definition fadeSpeed : R := 3.

(** The smoothing step of a connection's strength. *)
Definition trackStrength (s targetW dt : R) : R :=
  clamp (s + (targetW - s) * fadeSpeed * dt) 0 1.

Definition giverOf (hp : Heap) (spark other : ref) : ref :=
  if decide (Spark.polarity (hp spark) > Spark.polarity (hp other))
  then spark else other.
Definition receiverOf (hp : Heap) (spark other : ref) : ref :=
  if decide (Spark.polarity (hp spark) > Spark.polarity (hp other))
  then other else spark.

Definition deltaEnergy (cfg : Config) (w dt giverEnergy : R) : R :=
  let transfer := clamp (w * transferRatePerSec cfg * dt) 0 1 in
  transfer * Rmax 0 (giverEnergy - energyFloor cfg).

(** The two energy assignments of a transfer, on the heap. *)
Definition transferEnergy (cfg : Config) (w dt : R) (giver receiver : ref)
    (hp : Heap) : Heap :=
  let d := deltaEnergy cfg w dt (Spark.energy (hp giver)) in
  let hp1 := <[giver := Spark.set_energy (Spark.energy (hp giver) - d) (hp giver)]> hp in
  <[receiver := Spark.set_energy (Rmin 1 (Spark.energy (hp1 receiver) + d))
                                 (hp1 receiver)]> hp1.

(** Ring feedback and the two colour assignments. *)
Definition tint (cfg : Config) (w dt : R) (giver receiver : ref) (hp : Heap) : Heap :=
  let hp1 := <[giver := Spark.set_ringAlpha
                          (Rmax (Spark.ringAlpha (hp giver)) (w * (1 / 2)))
                          (hp giver)]> hp in
  let colorT := clamp (w * w * colorRatePerSec cfg * dt) 0 (2 / 10) in
  let hp2 := <[receiver := Spark.set_color
                 (mixColorsLinear (Spark.color (hp1 receiver))
                                  (Spark.color (hp1 giver)) colorT)
                 (hp1 receiver)]> hp1 in
  <[giver := Spark.set_color
               (mixColorsLinear (Spark.color (hp2 giver))
                                (Spark.color (hp2 receiver)) (colorT * (25 / 100)))
               (hp2 giver)]> hp2.

(** The body of the inner loop for the neighbour [other] of [spark]. *)
Definition resolve (cfg : Config) (E : Env) (dt : R) (spark : ref)
    (P : Pass) (other : ref) : Pass :=
  let hp := p_heap P in
  let connKey := getConnectionKey (hp spark) (hp other) in
  if decide (connKey ∈ processed P) then P
  else
    let processed1 := processed P ∪ {[connKey]} in
    let dx := Spark.x (hp other) - Spark.x (hp spark) in
    let dy := Spark.y (hp other) - Spark.y (hp spark) in
    let dist := Math_hypot dx dy in
    if bool_decide (dist < interactionRadius cfg) && bool_decide (dist > 0) then
      let targetW := smoothstep (interactionRadius cfg) 0 dist in
      let conn := default {| strength := 0; a := spark; b := other |}
                          (p_connections P !! connKey) in
      let w := trackStrength (strength conn) targetW dt in
      let conns1 := <[connKey := {| strength := w; a := spark; b := other |}]>
                      (p_connections P) in
      let giver := giverOf hp spark other in
      let receiver := receiverOf hp spark other in
      if decide (w > 1 / 10) then
        let hp1 := tint cfg w dt giver receiver
                        (transferEnergy cfg w dt giver receiver hp) in
        if bool_decide (w > 2 / 10)
           && bool_decide (length (p_flowParticles P) < maxFlowParticles cfg)%nat
        then
          if decide (random E (p_randCalls P) < w * flowSpawnRate cfg * dt * 60) then
            let mixedColor := mixColorsLinear (Spark.color (hp1 giver))
                                              (Spark.color (hp1 receiver)) (3 / 10) in
            {| p_heap := hp1;
               p_randCalls := S (S (p_randCalls P));
               p_flowParticles :=
                 p_flowParticles P ++
                 [FlowParticle.new giver receiver mixedColor
                                   (random E (S (p_randCalls P)))];
               p_connections := conns1;
               interactions := S (interactions P);
               processed := processed1;
               activeConnections := activeConnections P ∪ {[connKey]} |}
          else
            {| p_heap := hp1;
               p_randCalls := S (p_randCalls P);
               p_flowParticles := p_flowParticles P;
               p_connections := conns1;
               interactions := S (interactions P);
               processed := processed1;
               activeConnections := activeConnections P ∪ {[connKey]} |}
        else
          {| p_heap := hp1;
             p_randCalls := p_randCalls P;
             p_flowParticles := p_flowParticles P;
             p_connections := conns1;
             interactions := S (interactions P);
             processed := processed1;
             activeConnections := activeConnections P ∪ {[connKey]} |}
      else
        {| p_heap := hp;
           p_randCalls := p_randCalls P;
           p_flowParticles := p_flowParticles P;
           p_connections := conns1;
           interactions := S (interactions P);
           processed := processed1;
           activeConnections := activeConnections P ∪ {[connKey]} |}
    else
      {| p_heap := hp;
         p_randCalls := p_randCalls P;
         p_flowParticles := p_flowParticles P;
         p_connections := p_connections P;
         interactions := interactions P;
         processed := processed1;
         activeConnections := activeConnections P |}.

(** The outer loop over the population, with its [break]. *)
Fixpoint resolveAll (cfg : Config) (E : Env) (dt : R) (g : SpatialGrid.t)
    (l : list ref) (P : Pass) : Pass :=
  match l with
  | [] => P
  | spark :: l' =>
      if bool_decide (maxInteractionsPerFrame cfg <= interactions P)%nat then P
      else
        let neighbors := SpatialGrid.getNeighbors (p_heap P) g spark in
        resolveAll cfg E dt g l' (foldl (resolve cfg E dt spark) P neighbors)
  end.

(** The fade-out of one ledger entry that was not active this frame. *)
Definition fadeOut (active : gset Key) (dt : R) (key : Key) (c : Conn) : option Conn :=
  if decide (key ∈ active) then Some c
  else
    let s := strength c - 4 * dt in
    if decide (s <= 0) then None else Some {| strength := s; a := a c; b := b c |}.

Definition rebuildGrid (hp : Heap) (g : SpatialGrid.t) (l : list ref) : SpatialGrid.t :=
  foldl (SpatialGrid.insert hp) (SpatialGrid.clear g) l.

Definition startPass (st : t) : Pass :=
  {| p_heap := heap st; p_randCalls := randCalls st;
     p_flowParticles := flowParticles st; p_connections := connections st;
     interactions := 0; processed := ∅; activeConnections := ∅ |}.

(** The two nested loops, on the rebuilt grid. *)
Definition interactionPass (cfg : Config) (E : Env) (dt : R) (st : t) : Pass :=
  resolveAll cfg E dt (rebuildGrid (heap st) (grid st) (sparks st))
             (sparks st) (startPass st).

Definition processInteractions (cfg : Config) (E : Env) (dt : R) (st : t) : t :=
  let g := rebuildGrid (heap st) (grid st) (sparks st) in
  let P := interactionPass cfg E dt st in
  {| heap := p_heap P;
     heapNext := heapNext st;
     sparkIdCounter := sparkIdCounter st;
     randCalls := p_randCalls P;
     nowCalls := nowCalls st;
     width := width st; height := height st; sparkCount := sparkCount st;
     sparks := sparks st;
     flowParticles := p_flowParticles P;
     connections := map_imap (fadeOut (activeConnections P) dt) (p_connections P);
     nn := nn st; grid := g;
     lastTime := lastTime st;
     spawnAccumulator := spawnAccumulator st |}.

(** [this.spawnAccumulator--] and the other field assignments of [update]. *)
Definition set_spawnAccumulator (v : R) (st : t) : t :=
  {| heap := heap st; heapNext := heapNext st; sparkIdCounter := sparkIdCounter st;
     randCalls := randCalls st; nowCalls := nowCalls st;
     width := width st; height := height st; sparkCount := sparkCount st;
     sparks := sparks st; flowParticles := flowParticles st;
     connections := connections st; nn := nn st; grid := grid st;
     lastTime := lastTime st; spawnAccumulator := v |}.

Definition set_lastTime (v : R) (st : t) : t :=
  {| heap := heap st; heapNext := heapNext st; sparkIdCounter := sparkIdCounter st;
     randCalls := randCalls st; nowCalls := nowCalls st;
     width := width st; height := height st; sparkCount := sparkCount st;
     sparks := sparks st; flowParticles := flowParticles st;
     connections := connections st; nn := nn st; grid := grid st;
     lastTime := v; spawnAccumulator := spawnAccumulator st |}.

Definition set_flowParticles (v : list FlowParticle.t) (st : t) : t :=
  {| heap := heap st; heapNext := heapNext st; sparkIdCounter := sparkIdCounter st;
     randCalls := randCalls st; nowCalls := nowCalls st;
     width := width st; height := height st; sparkCount := sparkCount st;
     sparks := sparks st; flowParticles := v;
     connections := connections st; nn := nn st; grid := grid st;
     lastTime := lastTime st; spawnAccumulator := spawnAccumulator st |}.

(** The loop [while (acc >= 1) { spawnSpark(); acc--; }].  It runs
    [floor acc] times; [spawnLoop] is given that many rounds (see
    [spawnLoop_exit]). *)
Fixpoint spawnLoop (cfg : Config) (E : Env) (fuel : nat) (st : t) : t :=
  match fuel with
  | O => st
  | S n =>
      if decide (spawnAccumulator st >= 1) then
        let st1 := spawnSpark cfg E st in
        spawnLoop cfg E n (set_spawnAccumulator (spawnAccumulator st1 - 1) st1)
      else st
  end.

Definition spawnRounds (acc : R) : nat := Z.to_nat (Math_floor acc).

(** One call of the [filter] callback of [update]: the spark at [r] is
    advanced in place, and kept when it is still alive. *)
Definition advance (cfg : Config) (dt time : R)
    (acc : Heap * gset nat * list ref) (r : ref) : Heap * gset nat * list ref :=
  let '(hp, aliveIds, kept) := acc in
  let su := Spark.update cfg (hp r) dt time in
  (<[r := su.1]> hp,
   if su.2 then aliveIds ∪ {[Spark.id su.1]} else aliveIds,
   if su.2 then kept ++ [r] else kept).

Definition connAlive (hp : Heap) (aliveIds : gset nat) (kc : Key * Conn) : Prop :=
  Spark.id (hp (a kc.2)) ∈ aliveIds ∧ Spark.id (hp (b kc.2)) ∈ aliveIds.

#[global] Instance connAlive_dec hp aliveIds kc : Decision (connAlive hp aliveIds kc).
Proof. unfold connAlive. apply _. Defined.

(** [this.flowParticles.filter(p => p.update(dt))]. *)
Definition advanceFlow (cfg : Config) (hp : Heap) (dt : R)
    (l : list FlowParticle.t) : list FlowParticle.t :=
  omap (fun p => let pu := FlowParticle.update cfg hp p dt in
                 if pu.2 then Some pu.1 else None) l.

(** The elapsed time of a frame, capped. *)
Definition frameDt (st : t) (time : R) : R :=
  Rmin ((time - lastTime st) / 1000) (1 / 10).

(** The state after the spawn loop of [update]. *)
Definition spawned (cfg : Config) (E : Env) (st : t) (time : R) : t :=
  let dt := frameDt st time in
  let acc := spawnAccumulator st + spawnRatePerSec cfg * dt in
  spawnLoop cfg E (spawnRounds acc) (set_spawnAccumulator acc (set_lastTime time st)).

(** The state after sparks were advanced and culled and the ledger was
    cleaned of dead sparks. *)
Definition culled (cfg : Config) (E : Env) (st : t) (time : R) : t :=
  let dt := frameDt st time in
  let st2 := spawned cfg E st time in
  let '(hp, aliveIds, kept) :=
    foldl (advance cfg dt time) (heap st2, ∅, []) (sparks st2) in
  {| heap := hp; heapNext := heapNext st2; sparkIdCounter := sparkIdCounter st2;
     randCalls := randCalls st2; nowCalls := nowCalls st2;
     width := width st2; height := height st2; sparkCount := sparkCount st2;
     sparks := kept; flowParticles := flowParticles st2;
     connections := filter (connAlive hp aliveIds) (connections st2);
     nn := nn st2; grid := grid st2;
     lastTime := lastTime st2; spawnAccumulator := spawnAccumulator st2 |}.

Definition update (cfg : Config) (E : Env) (st : t) (time : R) : t :=
  let dt := frameDt st time in
  let st4 := processInteractions cfg E dt (culled cfg E st time) in
  set_flowParticles (advanceFlow cfg (heap st4) dt (flowParticles st4)) st4.

(** The initial population of [start()]: [floor (sparkCount * 0.4)] calls
    of [spawnSpark] (the frames it then requests are the [run] below). *)
Definition start (cfg : Config) (E : Env) (st : t) : t :=
  Nat.iter (Z.to_nat (Math_floor (sparkCount st * (4 / 10)))) (spawnSpark cfg E) st.

(** A run of the engine: one [update] per frame timestamp. *)
Definition run (cfg : Config) (E : Env) (st : t) (times : list R) : t :=
  foldl (update cfg E) st times.

(** [resize()], without its canvas writes: the viewport size is read from
    [innerWidth] and [innerHeight], the grid is built anew and the target
    population is recomputed.  [isMobile] is the field of that name. *)
Definition resize (cfg : Config) (isMobile : bool) (innerWidth innerHeight : R)
    (st : t) : t :=
  let baseArea := 1920 * 1080 in
  let screenArea := innerWidth * innerHeight in
  let densityScale := screenArea / baseArea in
  let baseCount := if isMobile then sparkCountMobile cfg else sparkCountDesktop cfg in
  {| heap := heap st; heapNext := heapNext st; sparkIdCounter := sparkIdCounter st;
     randCalls := randCalls st; nowCalls := nowCalls st;
     width := innerWidth; height := innerHeight;
     sparkCount := Math_round (Rmax 30 (Rmin 300 (baseCount * densityScale)));
     sparks := sparks st; flowParticles := flowParticles st;
     connections := connections st; nn := nn st;
     grid := SpatialGrid.new (interactionRadius cfg) innerWidth innerHeight;
     lastTime := lastTime st; spawnAccumulator := spawnAccumulator st |}.

(** [new SparkSystem(canvas)], without the canvas, the listener and the
    log: [uaMobile] is the outcome of the user-agent test, [hp], [next] and
    [idc] the spark objects, the next free address and the id counter at
    that time, [k] and [n] the calls of [Math.random] and [performance.now]
    made before.  The fields [width], [height] and [grid], which the
    constructor leaves unset until it calls [resize], hold here the values
    [resize] is about to give them. *)
Definition new (cfg : Config) (E : Env) (uaMobile : bool) (innerWidth innerHeight : R)
    (hp : Heap) (next idc k n : nat) : t :=
  let isMobile := uaMobile || bool_decide (innerWidth < 768) in
  let baseArea := 1920 * 1080 in
  let screenArea := innerWidth * innerHeight in
  let densityScale := screenArea / baseArea in
  let baseCount := if isMobile then sparkCountMobile cfg else sparkCountDesktop cfg in
  resize cfg isMobile innerWidth innerHeight
    {| heap := hp; heapNext := next; sparkIdCounter := idc;
       randCalls := (k + 37)%nat; nowCalls := S n;
       width := innerWidth; height := innerHeight;
       sparkCount := Math_round (Rmax 30 (Rmin 300 (baseCount * densityScale)));
       sparks := []; flowParticles := []; connections := ∅;
       nn := TinyNN.new E k;
       grid := SpatialGrid.new (interactionRadius cfg) innerWidth innerHeight;
       lastTime := perfNow E n; spawnAccumulator := 0 |}.

End SparkSystem.

(** The large functions are unfolded on demand only. *)
Arguments Spark.update : simpl never.
Arguments Spark.new : simpl never.
Arguments FlowParticle.update : simpl never.
Arguments SparkSystem.resolve : simpl never.
Arguments SparkSystem.transferEnergy : simpl never.
Arguments SparkSystem.tint : simpl never.
Arguments mixColorsLinear : simpl never.

(** * Notions used in the statements *)

Definition channelOk (c : R) : Prop := 0 <= c <= 255.

Definition colorOk (c : Color) : Prop :=
  channelOk c.1.1 /\ channelOk c.1.2 /\ channelOk c.2.

(** A colour whose three channels are integers. *)
Definition integral (c : Color) : Prop :=
  exists r g b : Z, c = (IZR r, IZR g, IZR b).



(** The distance test of the inner loop for the pair [spark], [other]. *)
Definition pairDist (hp : Heap) (spark other : ref) : R :=
  Math_hypot (Spark.x (hp other) - Spark.x (hp spark))
             (Spark.y (hp other) - Spark.y (hp spark)).

Definition inRadius (cfg : Config) (hp : Heap) (spark other : ref) : bool :=
  bool_decide (pairDist hp spark other < interactionRadius cfg)
  && bool_decide (pairDist hp spark other > 0).

(** The strength a ledger entry has before a pair is resolved: that of the
    stored entry, or [0] for an entry created on the spot. *)
Definition strengthBefore (conns : gmap SparkSystem.Key SparkSystem.Conn)
    (key : SparkSystem.Key) : R :=
  SparkSystem.strength
    (default {| SparkSystem.strength := 0; SparkSystem.a := 0%nat; SparkSystem.b := 0%nat |}
             (conns !! key)).

(** The strength the pair [spark], [other] has once it is resolved. *)
Definition strengthAfter (cfg : Config) (dt : R) (P : SparkSystem.Pass)
    (spark other : ref) : R :=
  SparkSystem.trackStrength
    (strengthBefore (SparkSystem.p_connections P)
       (SparkSystem.getConnectionKey (SparkSystem.p_heap P spark)
                                     (SparkSystem.p_heap P other)))
    (smoothstep (interactionRadius cfg) 0 (pairDist (SparkSystem.p_heap P) spark other))
    dt.

(** ** A concrete scene

    Two sparks 55 pixels apart on a 1920x1080 viewport: spark 0 of polarity
    0.8 at x = 100 with a lifetime of 6 s, spark 1 of polarity 0.3 at
    x = 155 with a lifetime of 12 s, both born at time 0; their ledger entry
    has strength 1/2, which is the target weight at that distance. *)

Definition demoSpark (i : nat) (x0 pol e life : R) : Spark.t :=
  {| Spark.id := i; Spark.x := x0; Spark.y := 0; Spark.w := 1920; Spark.h := 1080;
     Spark.vx := 0; Spark.vy := 0; Spark.baseRadius := 2; Spark.energy := e;
     Spark.seedFeature := 1 / 2; Spark.color := (235, 170, 60);
     Spark.birth := 0; Spark.lifetime := life; Spark.polarity := pol;
     Spark.ringAlpha := 0; Spark.fade := None |}.

(** [e1] is the energy of spark 1. *)
Definition demoHeap (e1 : R) : Heap :=
  fun r => match r with
           | O => demoSpark 0 100 (8 / 10) (8 / 10) 6000
           | _ => demoSpark r 155 (3 / 10) e1 12000
           end.

Definition demoEnv : Env := {| random := fun _ => 1 / 2; perfNow := fun _ => 0 |}.

Definition demoConns : gmap SparkSystem.Key SparkSystem.Conn :=
  {[ (0%nat, 1%nat) :=
       {| SparkSystem.strength := 1 / 2; SparkSystem.a := 0%nat; SparkSystem.b := 1%nat |} ]}.

Definition demoPass (e1 : R) : SparkSystem.Pass :=
  {| SparkSystem.p_heap := demoHeap e1;
     SparkSystem.p_randCalls := 0;
     SparkSystem.p_flowParticles := [];
     SparkSystem.p_connections := demoConns;
     SparkSystem.interactions := 0;
     SparkSystem.processed := ∅;
     SparkSystem.activeConnections := ∅ |}.

(** ** Fields of a spark that are fixed, and the demo system *)

(** [s'] is the same spark as [s]: the fields written only by the
    constructor agree. *)
Definition sameIdentity (s s' : Spark.t) : Prop :=
  Spark.id s' = Spark.id s /\ Spark.polarity s' = Spark.polarity s
  /\ Spark.birth s' = Spark.birth s /\ Spark.lifetime s' = Spark.lifetime s
  /\ Spark.w s' = Spark.w s /\ Spark.h s' = Spark.h s.

(** [s'] is [s] up to the fields the interaction pass writes. *)
Definition unmoved (s s' : Spark.t) : Prop :=
  sameIdentity s s' /\ Spark.x s' = Spark.x s /\ Spark.y s' = Spark.y s.

(** Whether the spark at [r] is still alive at [time]. *)
Definition aliveAt (hp : Heap) (time : R) (r : ref) : bool :=
  bool_decide (time - Spark.birth (hp r) < Spark.lifetime (hp r)).

(** A relation on sparks, lifted to heaps address by address. *)
Definition heapRel (Rel : relation Spark.t) (hp hp' : Heap) : Prop :=
  forall r, Rel (hp r) (hp' r).

(** What spawning leaves alone: the allocated objects, the ledger, the flow
    particles, the network and the grid. *)
Definition spawnFrame (st0 st : SparkSystem.t) : Prop :=
  (SparkSystem.heapNext st0 <= SparkSystem.heapNext st)%nat
  /\ (forall r, (r < SparkSystem.heapNext st0)%nat ->
                SparkSystem.heap st r = SparkSystem.heap st0 r)
  /\ SparkSystem.connections st = SparkSystem.connections st0
  /\ SparkSystem.flowParticles st = SparkSystem.flowParticles st0
  /\ SparkSystem.nn st = SparkSystem.nn st0
  /\ SparkSystem.grid st = SparkSystem.grid st0.

Definition demoNN : TinyNN.t :=
  {| TinyNN.w1 := []; TinyNN.b1 := []; TinyNN.w2 := []; TinyNN.b2 := 0 |}.

(** The scene as a system state, last updated at [last] milliseconds and
    carrying the flow particles [fl]. *)
Definition demoSys (e1 last : R) (fl : list FlowParticle.t) : SparkSystem.t :=
  {| SparkSystem.heap := demoHeap e1;
     SparkSystem.heapNext := 2;
     SparkSystem.sparkIdCounter := 2;
     SparkSystem.randCalls := 0;
     SparkSystem.nowCalls := 0;
     SparkSystem.width := 1920;
     SparkSystem.height := 1080;
     SparkSystem.sparkCount := 120;
     SparkSystem.sparks := [0%nat; 1%nat];
     SparkSystem.flowParticles := fl;
     SparkSystem.connections := demoConns;
     SparkSystem.nn := demoNN;
     SparkSystem.grid := SpatialGrid.new 110 1920 1080;
     SparkSystem.lastTime := last;
     SparkSystem.spawnAccumulator := 0 |}.

(** ** Energy bounds *)

Definition energyOk (cfg : Config) (s : Spark.t) : Prop :=
  energyFloor cfg * (1 / 2) <= Spark.energy s <= 1.

(** A write that keeps a spark within the energy bounds. *)
Definition keepsEnergyOk (cfg : Config) (s s' : Spark.t) : Prop :=
  energyOk cfg s -> energyOk cfg s'.

(** The ranges of the configuration the energy bounds rely on: the floor is
    at most twice the least energy a spark is born with, and the decay rate
    is a proper fraction. *)
Definition energyConfigOk (cfg : Config) : Prop :=
  0 <= energyFloor cfg <= 8 / 10 /\ 0 <= energyDecayPerSec cfg < 1.

(** [Math.random()] returns a number in [0, 1). *)
Definition randomOk (E : Env) : Prop := forall n, 0 <= random E n < 1.

(** Frame timestamps that never go back, starting from [last]. *)
Fixpoint monotone (last : R) (times : list R) : Prop :=
  match times with
  | [] => True
  | time :: times' => last <= time /\ monotone time times'
  end.

(** ** Positions *)

(** A spark about to reach the right edge exactly: it sits 97/6000 of a
    pixel left of it and moves right at one pixel per second; its seed makes
    the horizontal drift vanish at [time = 1000]. *)
Definition edgeSpark : Spark.t :=
  {| Spark.id := 0; Spark.x := 1920 - 97 / 6000; Spark.y := 540;
     Spark.w := 1920; Spark.h := 1080;
     Spark.vx := 1; Spark.vy := 0; Spark.baseRadius := 2; Spark.energy := 1 / 2;
     Spark.seedFeature := (PI - 1) / 10; Spark.color := (235, 170, 60);
     Spark.birth := 0; Spark.lifetime := 6000; Spark.polarity := 1 / 2;
     Spark.ringAlpha := 0; Spark.fade := None |}.

(** ** The spatial grid *)

(** The cell of the spark at [r] in a grid of cell size [size]. *)
Definition cellOf (hp : Heap) (size : R) (r : ref) : Z * Z :=
  (Math_floor (Spark.x (hp r) / size), Math_floor (Spark.y (hp r) / size)).

Definition shiftCell (k d : Z * Z) : Z * Z := ((k.1 + d.1)%Z, (k.2 + d.2)%Z).

(** ** Runs with the interaction cap set to zero *)




(** ** Identities *)

(** The sparks of the population are allocated, carry ids below the id
    counter, and no two of them share an id. *)
Definition uniqueIds (st : SparkSystem.t) : Prop :=
  (forall r, r ∈ SparkSystem.sparks st ->
     (r < SparkSystem.heapNext st)%nat
     /\ (Spark.id (SparkSystem.heap st r) < SparkSystem.sparkIdCounter st)%nat)
  /\ (forall r1 r2, r1 ∈ SparkSystem.sparks st -> r2 ∈ SparkSystem.sparks st ->
        Spark.id (SparkSystem.heap st r1) = Spark.id (SparkSystem.heap st r2) -> r1 = r2).

(** No entry of the ledger refers to the spark at [r]. *)
Definition connsAvoid (r : ref) (conns : gmap SparkSystem.Key SparkSystem.Conn) : Prop :=
  forall k c, conns !! k = Some c -> SparkSystem.a c ≠ r /\ SparkSystem.b c ≠ r.

(** ** A crowd of sparks within reach of one another *)

(** The number of pairs the two loops resolve when [n] sparks are left to
    visit, [c] pairs are resolved so far, and every spark is in reach of
    every other: the spark visited resolves its pairs with the sparks after
    it, and the cap is tested between two sparks only. *)
Fixpoint crowdCount (cap n c : nat) : nat :=
  match n with
  | O => c
  | S m => if bool_decide (cap <= c)%nat then c else crowdCount cap m (c + m)
  end.

(** The pairs already met when the sparks of [done] were visited and the
    spark [s] has met the sparks of [pre]. *)
Definition seenBy (done : list ref) (s : ref) (pre : list ref) (p q : ref) : Prop :=
  p ∈ done \/ q ∈ done \/ (p = s /\ q ∈ pre) \/ (q = s /\ p ∈ pre).

(** Sparks in a row, one pixel apart: the spark at address [r] has id [r]
    and sits at [x = r], [y = 0]. *)
Definition rowHeap : Heap :=
  fun r => {| Spark.id := r; Spark.x := INR r; Spark.y := 0;
              Spark.w := 1920; Spark.h := 1080;
              Spark.vx := 0; Spark.vy := 0; Spark.baseRadius := 2;
              Spark.energy := 1 / 2; Spark.seedFeature := 1 / 2;
              Spark.color := (235, 170, 60);
              Spark.birth := 0; Spark.lifetime := 6000;
              Spark.polarity := INR r / 100;
              Spark.ringAlpha := 0; Spark.fade := None |}.

(** A system whose population is the first [n] sparks of the row. *)
Definition rowSys (n : nat) : SparkSystem.t :=
  {| SparkSystem.heap := rowHeap;
     SparkSystem.heapNext := n;
     SparkSystem.sparkIdCounter := n;
     SparkSystem.randCalls := 0;
     SparkSystem.nowCalls := 0;
     SparkSystem.width := 1920;
     SparkSystem.height := 1080;
     SparkSystem.sparkCount := 120;
     SparkSystem.sparks := seq 0 n;
     SparkSystem.flowParticles := [];
     SparkSystem.connections := ∅;
     SparkSystem.nn := demoNN;
     SparkSystem.grid := SpatialGrid.new 110 1920 1080;
     SparkSystem.lastTime := 0;
     SparkSystem.spawnAccumulator := 0 |}.

(** The pass [P] runs on a heap that agrees with [hp0] on ids and
    positions, and of the pairs of the population [pop] it has so far met
    exactly those that [seen] holds of. *)
Definition processedIs (hp0 : Heap) (pop : list ref) (seen : ref -> ref -> Prop)
    (P : SparkSystem.Pass) : Prop :=
  heapRel unmoved hp0 (SparkSystem.p_heap P)
  /\ forall p q, p ∈ pop -> q ∈ pop -> p ≠ q ->
       (SparkSystem.getConnectionKey (hp0 p) (hp0 q) ∈ SparkSystem.processed P
        <-> seen p q).

(** ** Further notions: colours, network, grid *)

(** The weights a network built by the constructor reads are in range. *)
Definition weightsOk (net : TinyNN.t) : Prop :=
  length (TinyNN.w1 net) = 4%nat
  /\ Forall (fun row => length row = 6%nat
                        /\ Forall (fun v => Rabs v <= sqrt (2 / 10)) row)
            (TinyNN.w1 net)
  /\ length (TinyNN.b1 net) = 6%nat
  /\ Forall (fun v => Rabs v <= 5 / 100) (TinyNN.b1 net)
  /\ length (TinyNN.w2 net) = 6%nat
  /\ Forall (fun v => Rabs v <= sqrt (2 / 7)) (TinyNN.w2 net)
  /\ Rabs (TinyNN.b2 net) <= 5 / 100.

(** ** Further notions: sparks *)



(** ** Further notions: flow particles *)

(** A flow particle as kept by a frame: under way, with the alpha of its
    progress. *)
Definition flowOk (p : FlowParticle.t) : Prop :=
  0 <= FlowParticle.t_ p < 1
  /\ FlowParticle.alpha p = 8 / 10 * (1 - FlowParticle.t_ p).

(** ** Further notions: the ledger *)

(** Every entry of the ledger [conns] joins two distinct sparks of the
    population [pop], is stored under the key of their ids, and has a
    strength in [0, 1]. *)
Definition ledgerOk (hp : Heap) (pop : list ref)
    (conns : gmap SparkSystem.Key SparkSystem.Conn) : Prop :=
  forall k c, conns !! k = Some c ->
    SparkSystem.a c ∈ pop /\ SparkSystem.b c ∈ pop
    /\ SparkSystem.a c ≠ SparkSystem.b c
    /\ k = SparkSystem.getConnectionKey (hp (SparkSystem.a c)) (hp (SparkSystem.b c))
    /\ 0 <= SparkSystem.strength c <= 1.

(** ** Further notions: what is drawn *)

(** The ring alpha and the colour of a spark are in range. *)
Definition visualOk (s : Spark.t) : Prop :=
  0 <= Spark.ringAlpha s <= 1 / 2 /\ colorOk (Spark.color s).

(** A write that keeps them in range. *)
Definition keepsVisualOk (s s' : Spark.t) : Prop := visualOk s -> visualOk s'.

(** The sparks of the population and the flow particles of a system are
    in range. *)
Definition drawable (st : SparkSystem.t) : Prop :=
  (forall r, r ∈ SparkSystem.sparks st -> visualOk (SparkSystem.heap st r))
  /\ Forall (fun p => colorOk (FlowParticle.color p)) (SparkSystem.flowParticles st).

(** ** Further notions: what the interaction pass writes *)

(** [s'] is [s] up to the fields [energy], [color] and [ringAlpha]. *)
Definition interactionKeeps (s s' : Spark.t) : Prop :=
  unmoved s s'
  /\ Spark.vx s' = Spark.vx s /\ Spark.vy s' = Spark.vy s
  /\ Spark.baseRadius s' = Spark.baseRadius s
  /\ Spark.seedFeature s' = Spark.seedFeature s
  /\ Spark.fade s' = Spark.fade s.

(** The energy of the sparks at the addresses [l], summed. *)
Definition totalEnergy (hp : Heap) (l : list ref) : R :=
  foldr (fun r acc => Spark.energy (hp r) + acc) 0 l.

(** * Properties *)

(** ** Utility functions *)

Lemma clamp_range (v lo hi : R) : lo <= hi -> lo <= clamp v lo hi <= hi.
Proof.
  intros Hle. unfold clamp.
  split; [apply Rmax_l|].
  apply Rmax_lub; [exact Hle | apply Rmin_l].
Qed.

Lemma clamp_id (v lo hi : R) : lo <= v <= hi -> clamp v lo hi = v.
Proof.
  intros [Hlo Hhi]. unfold clamp.
  rewrite (Rmin_right hi v Hhi). apply Rmax_right, Hlo.
Qed.

Lemma smoothstep_range (e0 e1 x : R) : 0 <= smoothstep e0 e1 x <= 1.
Proof.
  unfold smoothstep.
  pose proof (clamp_range ((x - e0) / (e1 - e0)) 0 1 ltac:(lra)) as Ht.
  set (t := clamp _ 0 1) in *. cbv zeta. clearbody t.
  assert (0 <= t * t) as Hsq by nra.
  assert (0 <= (1 - t) * (1 - t)) as Hsq' by nra.
  split; [nra|].
  replace (t * t * (3 - 2 * t)) with (1 - (1 - t) * (1 - t) * (1 + 2 * t)) by ring.
  nra.
Qed.

Lemma lerp_0 (a b : R) : lerp a b 0 = a.
Proof. unfold lerp. ring. Qed.






Lemma Math_pow_pos (x y : R) : 0 < x -> Math_pow x y = Rpower x y.
Proof. intros Hx. unfold Math_pow. by destruct (decide (0 < x)). Qed.

Lemma Math_pow_0 (y : R) : y <> 0 -> Math_pow 0 y = 0.
Proof.
  intros Hy. unfold Math_pow.
  destruct (decide (0 < 0)) as [H|_]; [lra|].
  by destruct (decide (y = 0)).
Qed.

(** A power of a base in (0,1] with a non-negative exponent stays in (0,1]. *)
Lemma Rpower_unit (x y : R) : 0 < x <= 1 -> 0 <= y -> 0 < Rpower x y <= 1.
Proof.
  intros [Hx0 Hx1] Hy. unfold Rpower. split; [apply exp_pos|].
  rewrite <- exp_0.
  assert (ln x <= 0) as Hln.
  { rewrite <- ln_1. destruct Hx1 as [Hlt| ->]; [left; by apply ln_increasing | right; done]. }
  assert (y * ln x <= 0) as [Hlt|Heq] by (clear - Hln Hy; nra).
  - left. by apply exp_increasing.
  - right. by rewrite Heq.
Qed.

Lemma Math_pow_unit (x y : R) : 0 < x <= 1 -> 0 <= y -> 0 < Math_pow x y <= 1.
Proof. intros Hx Hy. rewrite Math_pow_pos by lra. by apply Rpower_unit. Qed.




Lemma Math_hypot_nonneg (u v : R) : 0 <= Math_hypot u v.
Proof. apply sqrt_pos. Qed.

Lemma Math_hypot_abs_l (u v : R) : Rabs u <= Math_hypot u v.
Proof.
  unfold Math_hypot. rewrite <- sqrt_Rsqr_abs.
  apply sqrt_le_1_alt. unfold Rsqr. nra.
Qed.

Lemma Math_hypot_abs_r (u v : R) : Rabs v <= Math_hypot u v.
Proof.
  unfold Math_hypot. rewrite <- sqrt_Rsqr_abs.
  apply sqrt_le_1_alt. unfold Rsqr. nra.
Qed.

(** ** Colour mixing *)








(** ** One resolved pair *)

Section Resolve.
Import SparkSystem.
Context (cfg : Config) (E : Env) (dt : R).

Lemma default_conn_strength (conns : gmap Key Conn) (key : Key) (spark other : ref) :
  strength (default {| strength := 0; a := spark; b := other |} (conns !! key))
  = strengthBefore conns key.
Proof. unfold strengthBefore. by destruct (conns !! key). Qed.

Lemma resolve_processed (spark : ref) (P : Pass) (other : ref) :
  getConnectionKey (p_heap P spark) (p_heap P other) ∈ processed P ->
  resolve cfg E dt spark P other = P.
Proof. intros Hin. unfold resolve. by destruct (decide _). Qed.

Lemma resolve_far (spark : ref) (P : Pass) (other : ref) :
  getConnectionKey (p_heap P spark) (p_heap P other) ∉ processed P ->
  inRadius cfg (p_heap P) spark other = false ->
  resolve cfg E dt spark P other =
  {| p_heap := p_heap P; p_randCalls := p_randCalls P;
     p_flowParticles := p_flowParticles P; p_connections := p_connections P;
     interactions := interactions P;
     processed := processed P ∪ {[getConnectionKey (p_heap P spark) (p_heap P other)]};
     activeConnections := activeConnections P |}.
Proof.
  intros Hnin Hfar. unfold resolve.
  destruct (decide _) as [|_]; [done|].
  unfold inRadius, pairDist in Hfar. by rewrite Hfar.
Qed.

Lemma resolve_connections (spark : ref) (P : Pass) (other : ref) :
  getConnectionKey (p_heap P spark) (p_heap P other) ∉ processed P ->
  inRadius cfg (p_heap P) spark other = true ->
  p_connections (resolve cfg E dt spark P other) =
  <[getConnectionKey (p_heap P spark) (p_heap P other) :=
      {| strength := strengthAfter cfg dt P spark other; a := spark; b := other |}]>
    (p_connections P).
Proof.
  intros Hnin Hnear. unfold resolve. cbv zeta.
  destruct (decide _) as [|_]; [done|].
  unfold inRadius, pairDist in Hnear. rewrite Hnear.
  rewrite default_conn_strength. fold (pairDist (p_heap P) spark other).
  fold (strengthAfter cfg dt P spark other).
  destruct (decide (strengthAfter cfg dt P spark other > 1 / 10)); [|done].
  destruct (bool_decide (_ > 2 / 10) && _); [|done].
  by destruct (decide (random E _ < _)).
Qed.

Lemma resolve_counts (spark : ref) (P : Pass) (other : ref) :
  getConnectionKey (p_heap P spark) (p_heap P other) ∉ processed P ->
  inRadius cfg (p_heap P) spark other = true ->
  interactions (resolve cfg E dt spark P other) = S (interactions P)
  /\ processed (resolve cfg E dt spark P other)
     = processed P ∪ {[getConnectionKey (p_heap P spark) (p_heap P other)]}
  /\ activeConnections (resolve cfg E dt spark P other)
     = activeConnections P ∪ {[getConnectionKey (p_heap P spark) (p_heap P other)]}.
Proof.
  intros Hnin Hnear. unfold resolve. cbv zeta.
  destruct (decide _) as [|_]; [done|].
  unfold inRadius, pairDist in Hnear. rewrite Hnear.
  destruct (decide (_ > 1 / 10)); [|done].
  destruct (bool_decide (_ > 2 / 10) && _); [|done].
  by destruct (decide (random E _ < _)).
Qed.

(** The heap after a pair is resolved: untouched below the activation
    threshold, and otherwise the energy transfer followed by the tint. *)
Lemma resolve_heap (spark : ref) (P : Pass) (other : ref) :
  getConnectionKey (p_heap P spark) (p_heap P other) ∉ processed P ->
  inRadius cfg (p_heap P) spark other = true ->
  p_heap (resolve cfg E dt spark P other) =
  if decide (strengthAfter cfg dt P spark other > 1 / 10) then
    tint cfg (strengthAfter cfg dt P spark other) dt
         (giverOf (p_heap P) spark other) (receiverOf (p_heap P) spark other)
         (transferEnergy cfg (strengthAfter cfg dt P spark other) dt
            (giverOf (p_heap P) spark other) (receiverOf (p_heap P) spark other)
            (p_heap P))
  else p_heap P.
Proof.
  intros Hnin Hnear. unfold resolve. cbv zeta.
  destruct (decide _) as [|_]; [done|].
  unfold inRadius, pairDist in Hnear. rewrite Hnear.
  rewrite default_conn_strength. fold (pairDist (p_heap P) spark other).
  fold (strengthAfter cfg dt P spark other).
  destruct (decide (strengthAfter cfg dt P spark other > 1 / 10)); [|done].
  destruct (bool_decide (_ > 2 / 10) && _); [|done].
  by destruct (decide (random E _ < _)).
Qed.

Lemma tint_energy (w : R) (giver receiver : ref) (hp : Heap) (r : ref) :
  Spark.energy (tint cfg w dt giver receiver hp r) = Spark.energy (hp r).
Proof.
  unfold tint, insert, fn_insert.
  repeat (destruct (decide _); subst; simpl; try done).
Qed.

End Resolve.

(** ** The concrete scene, evaluated *)

Lemma Math_hypot_0_r (u : R) : 0 <= u -> Math_hypot u 0 = u.
Proof.
  intros Hu. unfold Math_hypot.
  replace (u * u + 0 * 0) with (u * u) by ring. by apply sqrt_square.
Qed.

Lemma demo_pairDist (e1 : R) : pairDist (demoHeap e1) 0 1 = 55.
Proof.
  unfold pairDist. simpl.
  replace (155 - 100) with 55 by lra. replace (0 - 0) with 0 by lra.
  apply Math_hypot_0_r. lra.
Qed.

Lemma demo_inRadius (e1 : R) : inRadius CONFIG (demoHeap e1) 0 1 = true.
Proof.
  unfold inRadius. rewrite demo_pairDist. simpl.
  rewrite !bool_decide_eq_true_2; [done | lra | lra].
Qed.

Lemma smoothstep_half : smoothstep 110 0 55 = 1 / 2.
Proof.
  unfold smoothstep.
  replace ((55 - 110) / (0 - 110)) with (1 / 2) by field.
  rewrite clamp_id by lra. field.
Qed.

Lemma demo_strengthAfter (e1 dt : R) :
  strengthAfter CONFIG dt (demoPass e1) 0 1 = 1 / 2.
Proof.
  unfold strengthAfter. simpl SparkSystem.p_heap.
  rewrite demo_pairDist. simpl interactionRadius. rewrite smoothstep_half.
  unfold strengthBefore. simpl.
  unfold demoConns. rewrite lookup_singleton_eq. simpl.
  unfold SparkSystem.trackStrength.
  replace (1 / 2 + (1 / 2 - 1 / 2) * SparkSystem.fadeSpeed * dt) with (1 / 2) by ring.
  apply clamp_id. lra.
Qed.

Lemma demo_key_fresh (e1 : R) :
  SparkSystem.getConnectionKey (demoHeap e1 0%nat) (demoHeap e1 1%nat)
  ∉ SparkSystem.processed (demoPass e1).
Proof. simpl. set_solver. Qed.

(** ** Connection strength *)

Lemma trackStrength_between (s T dt : R) :
  0 <= dt < 1 / SparkSystem.fadeSpeed -> 0 <= T <= 1 ->
  (s <= T -> s <= SparkSystem.trackStrength s T dt <= T)
  /\ (T <= s -> T <= SparkSystem.trackStrength s T dt <= s).
Proof.
  unfold SparkSystem.trackStrength, SparkSystem.fadeSpeed, clamp.
  intros [Hdt0 Hdt1] [HT0 HT1].
  assert (dt * 3 < 1) as Hk by lra.
  set (s1 := s + (T - s) * 3 * dt).
  split; intros Hs.
  - assert (s <= s1 <= T) as [Hlo Hhi] by (unfold s1; split; nra).
    rewrite (Rmin_right 1 s1) by lra.
    split; [etrans; [exact Hlo | apply Rmax_r] | apply Rmax_lub; lra].
  - assert (T <= s1 <= s) as [Hlo Hhi] by (unfold s1; split; nra).
    split.
    + etrans; [|apply Rmax_r]. apply Rmin_glb; lra.
    + apply Rmax_lub; [lra|]. etrans; [apply Rmin_r | done].
Qed.

(** C8.  When a pair is resolved with an elapsed time below the fade time
    constant [1 / fadeSpeed], the stored strength moves from its previous
    value towards the target weight of the pair and stays on the same side
    of it. *)
Theorem strength_approaches_target (cfg : Config) (E : Env) (dt : R)
    (spark other : ref) (P : SparkSystem.Pass) :
  let key := SparkSystem.getConnectionKey (SparkSystem.p_heap P spark)
                                          (SparkSystem.p_heap P other) in
  let s := strengthBefore (SparkSystem.p_connections P) key in
  let target := smoothstep (interactionRadius cfg) 0
                           (pairDist (SparkSystem.p_heap P) spark other) in
  0 <= dt < 1 / SparkSystem.fadeSpeed ->
  key ∉ SparkSystem.processed P ->
  inRadius cfg (SparkSystem.p_heap P) spark other = true ->
  exists c,
    SparkSystem.p_connections (SparkSystem.resolve cfg E dt spark P other) !! key = Some c
    /\ (s <= target -> s <= SparkSystem.strength c <= target)
    /\ (target <= s -> target <= SparkSystem.strength c <= s).
Proof.
  intros key s target Hdt Hfresh Hnear.
  rewrite resolve_connections by done.
  eexists. split; [apply lookup_insert_eq|].
  simpl. apply trackStrength_between; [done | apply smoothstep_range].
Qed.

Lemma strength_approaches_target_witness :
  exists c,
    SparkSystem.p_connections
      (SparkSystem.resolve CONFIG demoEnv (1 / 60) 0 (demoPass (1 / 2)) 1)
      !! (0%nat, 1%nat) = Some c.
Proof.
  destruct (strength_approaches_target CONFIG demoEnv (1 / 60) 0 1 (demoPass (1 / 2)))
    as (c & Hc & _).
  - unfold SparkSystem.fadeSpeed. lra.
  - apply demo_key_fresh.
  - apply demo_inRadius.
  - exists c. exact Hc.
Defined.

(** ** Energy transfer *)

Section Transfer.
Import SparkSystem.
Context (cfg : Config) (w dt : R) (giver receiver : ref) (hp : Heap).
Hypothesis Hne : giver ≠ receiver.

Lemma transferEnergy_giver :
  Spark.energy (transferEnergy cfg w dt giver receiver hp giver)
  = Spark.energy (hp giver) - deltaEnergy cfg w dt (Spark.energy (hp giver)).
Proof.
  unfold transferEnergy. cbv zeta.
  rewrite fn_lookup_insert_ne by done.
  by rewrite fn_lookup_insert.
Qed.

Lemma transferEnergy_receiver :
  Spark.energy (transferEnergy cfg w dt giver receiver hp receiver)
  = Rmin 1 (Spark.energy (hp receiver)
            + deltaEnergy cfg w dt (Spark.energy (hp giver))).
Proof.
  unfold transferEnergy. cbv zeta.
  rewrite fn_lookup_insert.
  by rewrite fn_lookup_insert_ne by done.
Qed.

End Transfer.

Lemma transferEnergy_other (cfg : Config) (w dt : R) (giver receiver : ref)
    (hp : Heap) (r : ref) :
  r ≠ giver -> r ≠ receiver ->
  SparkSystem.transferEnergy cfg w dt giver receiver hp r = hp r.
Proof.
  intros Hg Hr. unfold SparkSystem.transferEnergy. cbv zeta.
  by rewrite !fn_lookup_insert_ne by done.
Qed.

Lemma deltaEnergy_nonneg (cfg : Config) (w dt e : R) :
  0 <= SparkSystem.deltaEnergy cfg w dt e.
Proof.
  unfold SparkSystem.deltaEnergy. cbv zeta.
  pose proof (clamp_range (w * transferRatePerSec cfg * dt) 0 1 ltac:(lra)) as Hc.
  pose proof (Rmax_l 0 (e - energyFloor cfg)) as Hm.
  clear - Hc Hm. nra.
Qed.

Lemma roles_distinct (hp : Heap) (spark other : ref) :
  spark ≠ other ->
  SparkSystem.giverOf hp spark other ≠ SparkSystem.receiverOf hp spark other.
Proof.
  intros Hne. unfold SparkSystem.giverOf, SparkSystem.receiverOf.
  destruct (decide _); congruence.
Qed.

(** The energies after an activated pair is resolved. *)
Lemma resolve_energy (cfg : Config) (E : Env) (dt : R) (spark other : ref)
    (P : SparkSystem.Pass) (r : ref) :
  SparkSystem.getConnectionKey (SparkSystem.p_heap P spark) (SparkSystem.p_heap P other)
    ∉ SparkSystem.processed P ->
  inRadius cfg (SparkSystem.p_heap P) spark other = true ->
  strengthAfter cfg dt P spark other > 1 / 10 ->
  Spark.energy (SparkSystem.p_heap (SparkSystem.resolve cfg E dt spark P other) r)
  = Spark.energy
      (SparkSystem.transferEnergy cfg (strengthAfter cfg dt P spark other) dt
         (SparkSystem.giverOf (SparkSystem.p_heap P) spark other)
         (SparkSystem.receiverOf (SparkSystem.p_heap P) spark other)
         (SparkSystem.p_heap P) r).
Proof.
  intros Hfresh Hnear Hw. rewrite resolve_heap by done.
  destruct (decide _); [|done]. apply tint_energy.
Qed.

(** C1, as amended.  When a pair above the activation threshold is
    resolved, the giver loses [deltaEnergy] and the receiver ends at its
    energy plus that amount, capped at 1; the two amounts are equal when the
    cap is not reached. *)
Theorem energy_transfer_balance (cfg : Config) (E : Env) (dt : R)
    (spark other : ref) (P : SparkSystem.Pass) :
  let hp := SparkSystem.p_heap P in
  let hp' := SparkSystem.p_heap (SparkSystem.resolve cfg E dt spark P other) in
  let giver := SparkSystem.giverOf hp spark other in
  let receiver := SparkSystem.receiverOf hp spark other in
  let d := SparkSystem.deltaEnergy cfg (strengthAfter cfg dt P spark other) dt
                                   (Spark.energy (hp giver)) in
  spark ≠ other ->
  SparkSystem.getConnectionKey (hp spark) (hp other) ∉ SparkSystem.processed P ->
  inRadius cfg hp spark other = true ->
  strengthAfter cfg dt P spark other > 1 / 10 ->
  Spark.energy (hp giver) - Spark.energy (hp' giver) = d
  /\ Spark.energy (hp' receiver) = Rmin 1 (Spark.energy (hp receiver) + d)
  /\ (Spark.energy (hp receiver) + d <= 1 ->
      Spark.energy (hp' receiver) - Spark.energy (hp receiver)
      = Spark.energy (hp giver) - Spark.energy (hp' giver)).
Proof.
  intros hp hp' giver receiver d Hne Hfresh Hnear Hw.
  pose proof (roles_distinct hp spark other Hne) as Hgr.
  unfold hp'. rewrite !resolve_energy by done.
  fold hp giver receiver.
  rewrite transferEnergy_giver, transferEnergy_receiver by done.
  fold d. split; [lra|]. split; [done|].
  intros Hcap. rewrite Rmin_right by done. lra.
Qed.

Lemma demo_giver (e1 : R) : SparkSystem.giverOf (demoHeap e1) 0 1 = 0%nat.
Proof.
  unfold SparkSystem.giverOf. simpl.
  destruct (decide _) as [|Hn]; [done | exfalso; apply Hn; lra].
Qed.

Lemma demo_receiver (e1 : R) : SparkSystem.receiverOf (demoHeap e1) 0 1 = 1%nat.
Proof.
  unfold SparkSystem.receiverOf. simpl.
  destruct (decide _) as [|Hn]; [done | exfalso; apply Hn; lra].
Qed.

Lemma demo_deltaEnergy :
  SparkSystem.deltaEnergy CONFIG (1 / 2) (1 / 10) (8 / 10) = 195 / 10000.
Proof.
  unfold SparkSystem.deltaEnergy. simpl.
  rewrite clamp_id by lra. rewrite Rmax_right by lra. field.
Qed.

Lemma energy_transfer_balance_witness :
  let P := demoPass (1 / 2) in
  let P' := SparkSystem.resolve CONFIG demoEnv (1 / 10) 0 P 1 in
  Spark.energy (SparkSystem.p_heap P 0%nat) - Spark.energy (SparkSystem.p_heap P' 0%nat)
  = SparkSystem.deltaEnergy CONFIG (strengthAfter CONFIG (1 / 10) P 0 1) (1 / 10)
      (Spark.energy (SparkSystem.p_heap P 0%nat)).
Proof.
  intros P P'.
  pose proof (energy_transfer_balance CONFIG demoEnv (1 / 10) 0 1 P) as H.
  cbv zeta in H. unfold P in H at 1 2 3 4 5 6. simpl SparkSystem.p_heap in H.
  rewrite demo_giver in H.
  apply H.
  - done.
  - apply demo_key_fresh.
  - apply demo_inRadius.
  - unfold P. rewrite demo_strengthAfter. lra.
Defined.

(** C1 as stated fails when the receiver is close to full: spark 0 gives
    0.0195 and spark 1, at energy 0.99, only gains 0.01. *)
Lemma energy_transfer_not_conservative :
  let P := demoPass (99 / 100) in
  let P' := SparkSystem.resolve CONFIG demoEnv (1 / 10) 0 P 1 in
  (SparkSystem.getConnectionKey (SparkSystem.p_heap P 0%nat) (SparkSystem.p_heap P 1%nat)
     ∉ SparkSystem.processed P)
  /\ inRadius CONFIG (SparkSystem.p_heap P) 0 1 = true
  /\ strengthAfter CONFIG (1 / 10) P 0 1 > 1 / 10
  /\ SparkSystem.giverOf (SparkSystem.p_heap P) 0 1 = 0%nat
  /\ SparkSystem.receiverOf (SparkSystem.p_heap P) 0 1 = 1%nat
  /\ Spark.energy (SparkSystem.p_heap P' 1%nat) - Spark.energy (SparkSystem.p_heap P 1%nat)
     <> Spark.energy (SparkSystem.p_heap P 0%nat) - Spark.energy (SparkSystem.p_heap P' 0%nat).
Proof.
  intros P P'.
  assert (strengthAfter CONFIG (1 / 10) P 0 1 > 1 / 10) as Hw.
  { unfold P. rewrite demo_strengthAfter. lra. }
  split; [apply demo_key_fresh|]. split; [apply demo_inRadius|].
  split; [exact Hw|]. split; [apply demo_giver|]. split; [apply demo_receiver|].
  unfold P'.
  rewrite !resolve_energy by first [done | apply demo_key_fresh | apply demo_inRadius].
  unfold P. simpl SparkSystem.p_heap.
  rewrite demo_giver, demo_receiver, demo_strengthAfter.
  rewrite transferEnergy_giver, transferEnergy_receiver by done.
  simpl Spark.energy. rewrite demo_deltaEnergy.
  rewrite Rmin_left by lra. lra.
Qed.

(** ** Heap relations preserved by a frame *)

#[global] Instance sameIdentity_preorder : PreOrder sameIdentity.
Proof.
  split.
  - by intros s.
  - intros s1 s2 s3 (?&?&?&?&?&?) (?&?&?&?&?&?). unfold sameIdentity.
    repeat split; congruence.
Qed.

#[global] Instance unmoved_preorder : PreOrder unmoved.
Proof.
  split.
  - by intros s.
  - intros s1 s2 s3 (?&?&?) (?&?&?). unfold unmoved.
    split; [by etrans|]. split; congruence.
Qed.

Lemma unmoved_sameIdentity (s s' : Spark.t) : unmoved s s' -> sameIdentity s s'.
Proof. by intros [? _]. Qed.

Lemma update_sameIdentity (cfg : Config) (s : Spark.t) (dt time : R) :
  sameIdentity s (Spark.update cfg s dt time).1.
Proof. by unfold sameIdentity. Qed.

Lemma update_alive (cfg : Config) (s : Spark.t) (dt time : R) :
  (Spark.update cfg s dt time).2 = bool_decide (time - Spark.birth s < Spark.lifetime s).
Proof. done. Qed.

#[global] Instance heapRel_preorder (Rel : relation Spark.t) `{!PreOrder Rel} :
  PreOrder (heapRel Rel).
Proof.
  split.
  - intros hp r. reflexivity.
  - intros hp1 hp2 hp3 H12 H23 r. etrans; [apply H12 | apply H23].
Qed.

Section HeapRel.
Import SparkSystem.
Context (cfg : Config) (E : Env) (dt : R).
Context (Rel : relation Spark.t) `{!PreOrder Rel}.

Lemma heapRel_insert (hp : Heap) (r : ref) (s : Spark.t) :
  Rel (hp r) s -> heapRel Rel hp (<[r := s]> hp).
Proof.
  intros Hs r'. unfold insert, fn_insert.
  destruct (decide _) as [<-|]; [done | reflexivity].
Qed.

Hypothesis Rel_color : forall c s, Rel s (Spark.set_color c s).
Hypothesis Rel_ring : forall v s, Rel s (Spark.set_ringAlpha v s).
Hypothesis Rel_transfer : forall w giver receiver hp,
  heapRel Rel hp (transferEnergy cfg w dt giver receiver hp).

Lemma tint_rel (w : R) (giver receiver : ref) (hp : Heap) :
  heapRel Rel hp (tint cfg w dt giver receiver hp).
Proof.
  unfold tint. cbv zeta.
  etrans; [apply heapRel_insert, Rel_ring|].
  etrans; [apply heapRel_insert, Rel_color|].
  apply heapRel_insert, Rel_color.
Qed.

Lemma resolve_rel (spark : ref) (P : Pass) (other : ref) :
  heapRel Rel (p_heap P) (p_heap (resolve cfg E dt spark P other)).
Proof.
  destruct (decide (getConnectionKey (p_heap P spark) (p_heap P other) ∈ processed P))
    as [Hin|Hnin].
  { rewrite resolve_processed by done. reflexivity. }
  destruct (inRadius cfg (p_heap P) spark other) eqn:Hnear.
  - rewrite resolve_heap by done.
    destruct (decide _); [|reflexivity].
    etrans; [apply Rel_transfer | apply tint_rel].
  - rewrite resolve_far by done. reflexivity.
Qed.

Lemma resolve_fold_rel (spark : ref) (l : list ref) (P : Pass) :
  heapRel Rel (p_heap P) (p_heap (foldl (resolve cfg E dt spark) P l)).
Proof.
  revert P. induction l as [|other l IH]; intros P; simpl; [reflexivity|].
  etrans; [apply resolve_rel | apply IH].
Qed.

Lemma resolveAll_rel (g : SpatialGrid.t) (l : list ref) (P : Pass) :
  heapRel Rel (p_heap P) (p_heap (resolveAll cfg E dt g l P)).
Proof.
  revert P. induction l as [|spark l IH]; intros P; simpl; [reflexivity|].
  destruct (bool_decide _); [reflexivity|].
  etrans; [apply resolve_fold_rel | apply IH].
Qed.

Lemma processInteractions_rel (st : t) :
  heapRel Rel (heap st) (heap (processInteractions cfg E dt st)).
Proof. apply (resolveAll_rel _ _ (startPass st)). Qed.

End HeapRel.

Lemma transferEnergy_rel (Rel : relation Spark.t) `{!PreOrder Rel} (cfg : Config)
    (w dt : R) (giver receiver : ref) (hp : Heap) :
  (forall e s, Rel s (Spark.set_energy e s)) ->
  heapRel Rel hp (SparkSystem.transferEnergy cfg w dt giver receiver hp).
Proof.
  intros Henergy. unfold SparkSystem.transferEnergy. cbv zeta.
  etrans; apply (heapRel_insert Rel); apply Henergy.
Qed.

Lemma processInteractions_unmoved (cfg : Config) (E : Env) (dt : R)
    (st : SparkSystem.t) (r : ref) :
  unmoved (SparkSystem.heap st r)
          (SparkSystem.heap (SparkSystem.processInteractions cfg E dt st) r).
Proof.
  apply (processInteractions_rel cfg E dt unmoved); try done.
  intros. apply transferEnergy_rel; [apply _ | done].
Qed.

Lemma interactionPass_unmoved (cfg : Config) (E : Env) (dt : R)
    (st : SparkSystem.t) (r : ref) :
  unmoved (SparkSystem.heap st r)
          (SparkSystem.p_heap (SparkSystem.interactionPass cfg E dt st) r).
Proof. apply (processInteractions_unmoved cfg E dt st r). Qed.

(** ** The spawn loop *)

Section Spawn.
Import SparkSystem.
Context (cfg : Config) (E : Env).

Lemma spawnLoop_ind (Q : t -> Prop) :
  (forall st, Q st -> Q (spawnSpark cfg E st)) ->
  (forall v st, Q st -> Q (set_spawnAccumulator v st)) ->
  forall fuel st, Q st -> Q (spawnLoop cfg E fuel st).
Proof.
  intros Hspawn Hset. induction fuel as [|n IH]; intros st HQ; simpl; [done|].
  destruct (decide _); [|done]. by apply IH, Hset, Hspawn.
Qed.

Lemma spawnSpark_accumulator (st : t) :
  spawnAccumulator (spawnSpark cfg E st) = spawnAccumulator st.
Proof. unfold spawnSpark. by destruct (decide _). Qed.

(** With [n] rounds the loop leaves an accumulator below [n + 1] below 1. *)
Lemma spawnLoop_below (n : nat) (st : t) :
  spawnAccumulator st < INR n + 1 ->
  spawnAccumulator (spawnLoop cfg E n st) < 1.
Proof.
  revert st. induction n as [|n IH]; intros st Hacc; simpl spawnLoop.
  - simpl in Hacc. lra.
  - destruct (decide _) as [Hge|Hlt]; [|lra].
    apply IH. simpl spawnAccumulator. rewrite spawnSpark_accumulator.
    rewrite S_INR in Hacc. lra.
Qed.

(** The rounds given to the loop are enough: it stops because its test
    fails, not because the rounds are used up. *)
Lemma spawnLoop_exit (st : t) :
  spawnAccumulator (spawnLoop cfg E (spawnRounds (spawnAccumulator st)) st) < 1.
Proof.
  apply spawnLoop_below. unfold spawnRounds, Math_floor.
  pose proof (base_Int_part (spawnAccumulator st)) as [Hlo Hhi].
  destruct (Z_le_gt_dec 0 (Int_part (spawnAccumulator st))) as [Hz|Hz].
  - rewrite INR_IZR_INZ, Z2Nat.id by done. lra.
  - rewrite Z2Nat.nonpos by lia. simpl.
    assert (IZR (Int_part (spawnAccumulator st)) <= -1) by (apply IZR_le; lia).
    lra.
Qed.

End Spawn.

Section SpawnFrame.
Import SparkSystem.
Context (cfg : Config) (E : Env).

#[global] Instance spawnFrame_preorder : PreOrder spawnFrame.
Proof.
  split.
  - intros st. unfold spawnFrame. by repeat split.
  - intros s1 s2 s3 (Hn1 & Hh1 & ? & ? & ? & ?) (Hn2 & Hh2 & ? & ? & ? & ?).
    unfold spawnFrame. repeat split; try congruence; [lia|].
    intros r Hr. rewrite Hh2 by lia. by apply Hh1.
Qed.

Lemma spawnSpark_frame (st : t) : spawnFrame st (spawnSpark cfg E st).
Proof.
  unfold spawnSpark. destruct (decide _); [reflexivity|].
  unfold spawnFrame. simpl. repeat split; try done; [lia|].
  intros r Hr. apply fn_lookup_insert_ne. lia.
Qed.

Lemma spawnLoop_frame (fuel : nat) (st : t) : spawnFrame st (spawnLoop cfg E fuel st).
Proof.
  apply (spawnLoop_ind cfg E (spawnFrame st)); [| |reflexivity].
  - intros st' H. etrans; [exact H | apply spawnSpark_frame].
  - intros v st' H. exact H.
Qed.

Lemma spawned_frame (st : t) (time : R) : spawnFrame st (spawned cfg E st time).
Proof.
  unfold spawned. cbv zeta.
  etrans; [|apply spawnLoop_frame]. unfold spawnFrame. by repeat split.
Qed.

Lemma spawned_lastTime (st : t) (time : R) : lastTime (spawned cfg E st time) = time.
Proof.
  unfold spawned. cbv zeta.
  apply (spawnLoop_ind cfg E (fun s => lastTime s = time)); try done.
  intros st' H. unfold spawnSpark. by destruct (decide _).
Qed.

End SpawnFrame.

(** ** Advancing and culling the population *)

Section Advance.
Import SparkSystem.
Context (cfg : Config) (dt time : R).

Lemma aliveAt_sameIdentity (hp hp' : Heap) (r : ref) :
  sameIdentity (hp r) (hp' r) -> aliveAt hp' time r = aliveAt hp time r.
Proof. intros (_ & _ & Hb & Hl & _). unfold aliveAt. by rewrite Hb, Hl. Qed.

Lemma foldl_step {A B : Type} (f : A -> B -> A) (a0 : A) (v : B) (l : list B) :
  foldl f a0 (v :: l) = foldl f (f a0 v) l.
Proof. done. Qed.

Lemma advance_eq (hp : Heap) (ids : gset nat) (kept : list ref) (r : ref) :
  advance cfg dt time (hp, ids, kept) r
  = (<[r := (Spark.update cfg (hp r) dt time).1]> hp,
     if aliveAt hp time r then ids ∪ {[Spark.id (hp r)]} else ids,
     if aliveAt hp time r then kept ++ [r] else kept).
Proof. done. Qed.

Lemma advance_heap_sameIdentity (hp : Heap) (r : ref) :
  heapRel sameIdentity hp (<[r := (Spark.update cfg (hp r) dt time).1]> hp).
Proof. apply (heapRel_insert sameIdentity), update_sameIdentity. Qed.

Lemma advance_fold_rel (Rel : relation Spark.t) `{!PreOrder Rel} :
  (forall s, Rel s (Spark.update cfg s dt time).1) ->
  forall l hp ids kept,
    heapRel Rel hp (foldl (advance cfg dt time) (hp, ids, kept) l).1.1.
Proof.
  intros Hupd. induction l as [|r l IH]; intros hp ids kept; [reflexivity|].
  rewrite foldl_step, advance_eq.
  etrans; [|apply IH]. apply (heapRel_insert Rel), Hupd.
Qed.

Lemma filter_alive_advance (hp : Heap) (r : ref) (l : list ref) :
  filter (fun r0 => aliveAt (<[r := (Spark.update cfg (hp r) dt time).1]> hp) time r0) l
  = filter (fun r0 => aliveAt hp time r0) l.
Proof.
  apply list_filter_iff. intros r0.
  by rewrite (aliveAt_sameIdentity hp) by apply advance_heap_sameIdentity.
Qed.

Lemma advance_fold_kept (l : list ref) (hp : Heap) (ids : gset nat) (kept : list ref) :
  (foldl (advance cfg dt time) (hp, ids, kept) l).2
  = kept ++ filter (fun r => aliveAt hp time r) l.
Proof.
  revert hp ids kept. induction l as [|r l IH]; intros hp ids kept.
  { simpl. by rewrite app_nil_r. }
  rewrite foldl_step, advance_eq, IH, filter_alive_advance, filter_cons.
  destruct (aliveAt hp time r) eqn:Ha.
  - rewrite decide_True by done. by rewrite <- app_assoc.
  - by rewrite decide_False by (intros []).
Qed.

Lemma advance_fold_ids (l : list ref) (hp : Heap) (ids : gset nat) (kept : list ref) :
  (foldl (advance cfg dt time) (hp, ids, kept) l).1.2
  = ids ∪ list_to_set ((fun r => Spark.id (hp r)) <$> filter (fun r => aliveAt hp time r) l).
Proof.
  revert hp ids kept. induction l as [|r l IH]; intros hp ids kept.
  { simpl. set_solver. }
  rewrite foldl_step, advance_eq, IH, filter_alive_advance, filter_cons.
  assert ((fun r0 => Spark.id ((<[r:=(Spark.update cfg (hp r) dt time).1]> hp) r0))
          <$> filter (fun r0 => aliveAt hp time r0) l
          = (fun r0 => Spark.id (hp r0)) <$> filter (fun r0 => aliveAt hp time r0) l) as ->.
  { apply list_fmap_ext. intros _ r0 _. apply advance_heap_sameIdentity. }
  destruct (aliveAt hp time r) eqn:Ha.
  - rewrite decide_True by done. simpl. set_solver.
  - by rewrite decide_False by (intros []).
Qed.

End Advance.

(** ** One frame, stage by stage *)

Section Frame.
Import SparkSystem.
Context (cfg : Config) (E : Env).

Lemma culled_eq (st : t) (time : R) :
  let st2 := spawned cfg E st time in
  let res := foldl (advance cfg (frameDt st time) time) (heap st2, ∅, []) (sparks st2) in
  culled cfg E st time =
  {| heap := res.1.1; heapNext := heapNext st2; sparkIdCounter := sparkIdCounter st2;
     randCalls := randCalls st2; nowCalls := nowCalls st2;
     width := width st2; height := height st2; sparkCount := sparkCount st2;
     sparks := res.2; flowParticles := flowParticles st2;
     connections := filter (connAlive res.1.1 res.1.2) (connections st2);
     nn := nn st2; grid := grid st2;
     lastTime := lastTime st2; spawnAccumulator := spawnAccumulator st2 |}.
Proof.
  intros st2 res. unfold culled. fold st2. cbv zeta. fold res.
  by destruct res as [[hp ids] kept].
Qed.

Lemma culled_sparks (st : t) (time : R) :
  sparks (culled cfg E st time)
  = filter (fun r => aliveAt (heap (spawned cfg E st time)) time r)
           (sparks (spawned cfg E st time)).
Proof. rewrite culled_eq. cbv zeta. simpl. by rewrite advance_fold_kept. Qed.

Lemma culled_heap_rel (Rel : relation Spark.t) `{!PreOrder Rel} (st : t) (time : R) :
  (forall s, Rel s (Spark.update cfg s (frameDt st time) time).1) ->
  heapRel Rel (heap (spawned cfg E st time)) (heap (culled cfg E st time)).
Proof.
  intros Hupd. rewrite culled_eq. cbv zeta. simpl.
  by apply advance_fold_rel.
Qed.

Lemma culled_heapNext (st : t) (time : R) :
  heapNext (culled cfg E st time) = heapNext (spawned cfg E st time).
Proof. by rewrite culled_eq. Qed.

Lemma culled_lastTime (st : t) (time : R) : lastTime (culled cfg E st time) = time.
Proof. rewrite culled_eq. cbv zeta. simpl. apply spawned_lastTime. Qed.

Lemma update_heap (st : t) (time : R) :
  heap (update cfg E st time)
  = heap (processInteractions cfg E (frameDt st time) (culled cfg E st time)).
Proof. done. Qed.

Lemma update_heapNext (st : t) (time : R) :
  heapNext (update cfg E st time) = heapNext (spawned cfg E st time).
Proof. unfold update. simpl. apply culled_heapNext. Qed.

Lemma update_lastTime (st : t) (time : R) : lastTime (update cfg E st time) = time.
Proof. unfold update. simpl. apply culled_lastTime. Qed.

Lemma update_heapNext_le (st : t) (time : R) :
  (heapNext st <= heapNext (update cfg E st time))%nat.
Proof. rewrite update_heapNext. apply spawned_frame. Qed.

(** A relation kept by every write of a frame holds between the heap after
    spawning and the heap after the frame. *)
Lemma update_heap_rel (Rel : relation Spark.t) `{!PreOrder Rel} (st : t) (time : R) :
  (forall s, Rel s (Spark.update cfg s (frameDt st time) time).1) ->
  (forall c s, Rel s (Spark.set_color c s)) ->
  (forall v s, Rel s (Spark.set_ringAlpha v s)) ->
  (forall w giver receiver hp,
     heapRel Rel hp (transferEnergy cfg w (frameDt st time) giver receiver hp)) ->
  heapRel Rel (heap (spawned cfg E st time)) (heap (update cfg E st time)).
Proof.
  intros Hupd Hcol Hring Htr. rewrite update_heap.
  etrans; [by apply culled_heap_rel|].
  by apply processInteractions_rel.
Qed.

Lemma update_sameIdentity_heap (st : t) (time : R) (r : ref) :
  (r < heapNext st)%nat ->
  sameIdentity (heap st r) (heap (update cfg E st time) r).
Proof.
  intros Hr.
  destruct (spawned_frame cfg E st time) as (_ & Hold & _).
  rewrite <- (Hold r Hr).
  apply (update_heap_rel sameIdentity).
  - intros s. apply update_sameIdentity.
  - done.
  - done.
  - intros. apply transferEnergy_rel; [apply _ | done].
Qed.

Lemma run_snoc (st : t) (times : list R) (time : R) :
  run cfg E st (times ++ [time]) = update cfg E (run cfg E st times) time.
Proof. unfold run. by rewrite foldl_app. Qed.

Lemma run_heapNext_le (st : t) (times : list R) :
  (heapNext st <= heapNext (run cfg E st times))%nat.
Proof.
  revert st. induction times as [|time times IH]; intros st; simpl; [done|].
  etrans; [apply (update_heapNext_le st time) | apply IH].
Qed.

Lemma run_sameIdentity (st : t) (times : list R) (r : ref) :
  (r < heapNext st)%nat ->
  sameIdentity (heap st r) (heap (run cfg E st times) r).
Proof.
  revert st. induction times as [|time times IH]; intros st Hr; simpl; [done|].
  etrans; [by apply (update_sameIdentity_heap st time)|].
  apply IH. pose proof (update_heapNext_le st time). lia.
Qed.

End Frame.

(** ** Giver and receiver *)

Lemma roles_of_polarity (hp : Heap) (p q : ref) :
  Spark.polarity (hp p) > Spark.polarity (hp q) ->
  SparkSystem.giverOf hp p q = p /\ SparkSystem.receiverOf hp p q = q
  /\ SparkSystem.giverOf hp q p = p /\ SparkSystem.receiverOf hp q p = q.
Proof.
  intros Hgt. unfold SparkSystem.giverOf, SparkSystem.receiverOf.
  destruct (decide (Spark.polarity (hp p) > Spark.polarity (hp q))); [|done].
  destruct (decide (Spark.polarity (hp q) > Spark.polarity (hp p))); [lra | done].
Qed.

Lemma culled_sameIdentity_heap (cfg : Config) (E : Env) (st : SparkSystem.t)
    (time : R) (r : ref) :
  (r < SparkSystem.heapNext st)%nat ->
  sameIdentity (SparkSystem.heap st r) (SparkSystem.heap (SparkSystem.culled cfg E st time) r).
Proof.
  intros Hr.
  destruct (spawned_frame cfg E st time) as (_ & Hold & _).
  rewrite <- (Hold r Hr).
  apply (culled_heap_rel cfg E sameIdentity).
  intros s. apply update_sameIdentity.
Qed.

(** C5.  Of two sparks, the one of strictly greater polarity is the giver
    and the other the receiver, whichever of the two the outer loop visits;
    polarities are never written after construction, so this holds with the
    same roles after every frame of a run, and in every state [P] the
    interaction pass of a later frame goes through (its heap differs from
    the heap after culling only in what the pass writes). *)
Theorem roles_fixed_by_polarity (cfg : Config) (E : Env) (st : SparkSystem.t)
    (times : list R) (p q : ref) :
  (p < SparkSystem.heapNext st)%nat -> (q < SparkSystem.heapNext st)%nat ->
  Spark.polarity (SparkSystem.heap st p) > Spark.polarity (SparkSystem.heap st q) ->
  let st' := SparkSystem.run cfg E st times in
  let hp := SparkSystem.heap st' in
  Spark.polarity (hp p) = Spark.polarity (SparkSystem.heap st p)
  /\ Spark.polarity (hp q) = Spark.polarity (SparkSystem.heap st q)
  /\ SparkSystem.giverOf hp p q = p /\ SparkSystem.receiverOf hp p q = q
  /\ SparkSystem.giverOf hp q p = p /\ SparkSystem.receiverOf hp q p = q
  /\ (forall time P,
        heapRel unmoved (SparkSystem.heap (SparkSystem.culled cfg E st' time))
                (SparkSystem.p_heap P) ->
        SparkSystem.giverOf (SparkSystem.p_heap P) p q = p
        /\ SparkSystem.receiverOf (SparkSystem.p_heap P) p q = q
        /\ SparkSystem.giverOf (SparkSystem.p_heap P) q p = p
        /\ SparkSystem.receiverOf (SparkSystem.p_heap P) q p = q).
Proof.
  intros Hp Hq Hgt st' hp.
  destruct (run_sameIdentity cfg E st times p Hp) as (_ & Hpp & _).
  destruct (run_sameIdentity cfg E st times q Hq) as (_ & Hpq & _).
  fold st' hp in Hpp, Hpq.
  split; [done|]. split; [done|].
  assert (SparkSystem.giverOf hp p q = p /\ SparkSystem.receiverOf hp p q = q
          /\ SparkSystem.giverOf hp q p = p /\ SparkSystem.receiverOf hp q p = q)
    as (H1 & H2 & H3 & H4).
  { apply roles_of_polarity. by rewrite Hpp, Hpq. }
  do 4 (split; [done|]).
  intros time P HP. apply roles_of_polarity.
  pose proof (run_heapNext_le cfg E st times) as Hnext. fold st' in Hnext.
  destruct (culled_sameIdentity_heap cfg E st' time p ltac:(lia)) as (_ & Hcp & _).
  destruct (culled_sameIdentity_heap cfg E st' time q ltac:(lia)) as (_ & Hcq & _).
  destruct (HP p) as [(_ & HPp & _) _]. destruct (HP q) as [(_ & HPq & _) _].
  rewrite HPp, HPq, Hcp, Hcq. fold hp. by rewrite Hpp, Hpq.
Qed.

Lemma roles_fixed_by_polarity_witness :
  let hp := SparkSystem.heap
              (SparkSystem.run CONFIG demoEnv (demoSys (1 / 2) 0 []) [16; 32]) in
  SparkSystem.giverOf hp 0 1 = 0%nat /\ SparkSystem.giverOf hp 1 0 = 0%nat.
Proof.
  destruct (roles_fixed_by_polarity CONFIG demoEnv (demoSys (1 / 2) 0 []) [16; 32] 0 1)
    as (_ & _ & Hg & _ & Hg' & _).
  - simpl. lia.
  - simpl. lia.
  - simpl. lra.
  - by split.
Defined.

(** ** Energy bounds *)

#[global] Instance keepsEnergyOk_preorder (cfg : Config) : PreOrder (keepsEnergyOk cfg).
Proof.
  split.
  - intros s H. exact H.
  - intros s1 s2 s3 H12 H23 H1. by apply H23, H12.
Qed.

Lemma frameDt_nonneg (st : SparkSystem.t) (time : R) :
  SparkSystem.lastTime st <= time -> 0 <= SparkSystem.frameDt st time.
Proof.
  intros Hle. unfold SparkSystem.frameDt. apply Rmin_glb; lra.
Qed.

Lemma frameDt_le (st : SparkSystem.t) (time : R) : SparkSystem.frameDt st time <= 1 / 10.
Proof. unfold SparkSystem.frameDt. apply Rmin_r. Qed.

Lemma update_energyOk (cfg : Config) (s : Spark.t) (dt time : R) :
  energyConfigOk cfg -> 0 <= dt ->
  keepsEnergyOk cfg s (Spark.update cfg s dt time).1.
Proof.
  intros [[Hf0 Hf1] [Hd0 Hd1]] Hdt [Hlo Hhi]. unfold energyOk in *.
  unfold Spark.update. cbv zeta. simpl Spark.energy.
  split; [apply Rmax_l|].
  apply Rmax_lub; [lra|].
  pose proof (Math_pow_unit (1 - energyDecayPerSec cfg) dt ltac:(lra) Hdt) as Hp.
  set (q := Math_pow _ _) in *. clearbody q.
  assert (0 <= Spark.energy s) by lra.
  clear - Hp Hhi H. nra.
Qed.

Lemma transferEnergy_energyOk (cfg : Config) (w dt : R) (giver receiver : ref)
    (hp : Heap) :
  energyConfigOk cfg ->
  heapRel (keepsEnergyOk cfg) hp (SparkSystem.transferEnergy cfg w dt giver receiver hp).
Proof.
  intros [[Hf0 Hf1] _] r. unfold keepsEnergyOk, energyOk.
  unfold SparkSystem.transferEnergy. cbv zeta.
  pose proof (deltaEnergy_nonneg cfg w dt (Spark.energy (hp giver))) as Hd0.
  assert (Spark.energy (hp giver)
            - SparkSystem.deltaEnergy cfg w dt (Spark.energy (hp giver))
          <= Spark.energy (hp giver)) as Hd1 by lra.
  assert (energyFloor cfg * (1 / 2) <= Spark.energy (hp giver) ->
          energyFloor cfg * (1 / 2)
          <= Spark.energy (hp giver)
             - SparkSystem.deltaEnergy cfg w dt (Spark.energy (hp giver))) as Hd2.
  { intros Hg. unfold SparkSystem.deltaEnergy. cbv zeta.
    pose proof (clamp_range (w * transferRatePerSec cfg * dt) 0 1 ltac:(lra)) as Hc.
    set (tr := clamp _ 0 1) in *. clearbody tr.
    destruct (Rle_dec (Spark.energy (hp giver)) (energyFloor cfg)) as [Hle|Hgt].
    - rewrite Rmax_left by lra. lra.
    - rewrite Rmax_right by lra. clear - Hc Hgt Hf0. nra. }
  set (d := SparkSystem.deltaEnergy cfg w dt (Spark.energy (hp giver))) in *.
  clearbody d.
  unfold insert, fn_insert.
  destruct (decide (receiver = r)) as [<-|Hr];
    [destruct (decide (giver = receiver)) as [->|Hg] | destruct (decide (giver = r)) as [<-|Hg]];
    simpl; intros [Hlo Hhi].
  - split; [apply Rmin_glb; lra | apply Rmin_l].
  - split; [apply Rmin_glb; lra | apply Rmin_l].
  - split; [by apply Hd2 | lra].
  - done.
Qed.

Lemma giver_stays_above_floor (cfg : Config) (w dt : R) (giver receiver : ref)
    (hp : Heap) :
  giver ≠ receiver ->
  energyFloor cfg <= Spark.energy (hp giver) ->
  energyFloor cfg
  <= Spark.energy (SparkSystem.transferEnergy cfg w dt giver receiver hp giver).
Proof.
  intros Hne Hfl. rewrite transferEnergy_giver by done.
  unfold SparkSystem.deltaEnergy. cbv zeta.
  pose proof (clamp_range (w * transferRatePerSec cfg * dt) 0 1 ltac:(lra)) as Hc.
  set (tr := clamp _ 0 1) in *. clearbody tr.
  rewrite Rmax_right by lra. clear - Hc Hfl. nra.
Qed.

Lemma new_energy (cfg : Config) (E : Env) (idc k n : nat) (x0 y0 w0 h0 : R)
    (net : TinyNN.t) :
  Spark.energy (Spark.new cfg E idc k n x0 y0 w0 h0 net)
  = 4 / 10 + random E (k + 3) * (4 / 10).
Proof. done. Qed.

Section EnergyFrame.
Import SparkSystem.
Context (cfg : Config) (E : Env).
Hypothesis Hcfg : energyConfigOk cfg.
Hypothesis Hrnd : randomOk E.

Lemma spawnSpark_energyOk (st : t) :
  (forall r, (r < heapNext st)%nat -> energyOk cfg (heap st r)) ->
  forall r, (r < heapNext (spawnSpark cfg E st))%nat ->
            energyOk cfg (heap (spawnSpark cfg E st) r).
Proof.
  intros Hok r. unfold spawnSpark. destruct (decide _); [apply Hok|].
  simpl. intros Hr. unfold insert, fn_insert.
  destruct (decide (heapNext st = r)) as [<-|Hne]; [|apply Hok; lia].
  unfold energyOk. rewrite new_energy.
  destruct Hcfg as [[Hf0 Hf1] _].
  pose proof (Hrnd (S (S (randCalls st)) + 3)%nat) as Hr3. lra.
Qed.

Lemma spawned_energyOk (st : t) (time : R) :
  (forall r, (r < heapNext st)%nat -> energyOk cfg (heap st r)) ->
  forall r, (r < heapNext (spawned cfg E st time))%nat ->
            energyOk cfg (heap (spawned cfg E st time) r).
Proof.
  intros Hok. unfold spawned. cbv zeta.
  apply (spawnLoop_ind cfg E
           (fun s => forall r, (r < heapNext s)%nat -> energyOk cfg (heap s r)));
    [apply spawnSpark_energyOk | done | done].
Qed.

Lemma update_frame_energyOk (st : t) (time : R) :
  lastTime st <= time ->
  (forall r, (r < heapNext st)%nat -> energyOk cfg (heap st r)) ->
  forall r, (r < heapNext (update cfg E st time))%nat ->
            energyOk cfg (heap (update cfg E st time) r).
Proof.
  intros Htime Hok r Hr. rewrite update_heapNext in Hr.
  apply (update_heap_rel cfg E (keepsEnergyOk cfg) st time).
  - intros s. apply update_energyOk; [done | by apply frameDt_nonneg].
  - intros c s H. exact H.
  - intros v s H. exact H.
  - intros. by apply transferEnergy_energyOk.
  - by apply spawned_energyOk.
Qed.

Lemma run_energyOk (times : list R) (st : t) :
  monotone (lastTime st) times ->
  (forall r, (r < heapNext st)%nat -> energyOk cfg (heap st r)) ->
  forall r, (r < heapNext (run cfg E st times))%nat ->
            energyOk cfg (heap (run cfg E st times) r).
Proof.
  revert st. induction times as [|time times IH]; intros st Hmono Hok; [done|].
  destruct Hmono as [Hle Hmono]. simpl. apply IH.
  - by rewrite update_lastTime.
  - by apply update_frame_energyOk.
Qed.

End EnergyFrame.

(** C6.  With timestamps that never go back and random numbers in [0, 1),
    every spark allocated in a run keeps its energy between half the energy
    floor and 1 at the end of every frame; and a transfer never takes a
    giver that is at or above the floor below it. *)
Theorem energy_bounds (cfg : Config) (E : Env) (st : SparkSystem.t) (times : list R) :
  energyConfigOk cfg -> randomOk E ->
  monotone (SparkSystem.lastTime st) times ->
  (forall r, (r < SparkSystem.heapNext st)%nat -> energyOk cfg (SparkSystem.heap st r)) ->
  (forall r, (r < SparkSystem.heapNext (SparkSystem.run cfg E st times))%nat ->
             energyOk cfg (SparkSystem.heap (SparkSystem.run cfg E st times) r))
  /\ (forall w dt giver receiver hp,
        giver ≠ receiver ->
        energyFloor cfg <= Spark.energy (hp giver) ->
        energyFloor cfg
        <= Spark.energy (SparkSystem.transferEnergy cfg w dt giver receiver hp giver)).
Proof.
  intros Hcfg Hrnd Hmono Hok. split.
  - by apply run_energyOk.
  - intros. by apply giver_stays_above_floor.
Qed.

Lemma CONFIG_energyOk : energyConfigOk CONFIG.
Proof. unfold energyConfigOk. simpl. lra. Qed.

Lemma demoEnv_randomOk : randomOk demoEnv.
Proof. intros n. simpl. lra. Qed.

Lemma energy_bounds_witness :
  energyOk CONFIG
    (SparkSystem.heap (SparkSystem.run CONFIG demoEnv (demoSys (1 / 2) 0 []) [16; 32])
                      0%nat)
  /\ energyOk CONFIG
       (SparkSystem.heap (SparkSystem.run CONFIG demoEnv (demoSys (1 / 2) 0 []) [16; 32])
                         1%nat).
Proof.
  pose proof (run_heapNext_le CONFIG demoEnv (demoSys (1 / 2) 0 []) [16; 32]) as Hnext.
  change (SparkSystem.heapNext (demoSys (1 / 2) 0 [])) with 2%nat in Hnext.
  destruct (energy_bounds CONFIG demoEnv (demoSys (1 / 2) 0 []) [16; 32]) as [Hok _].
  - apply CONFIG_energyOk.
  - apply demoEnv_randomOk.
  - simpl. lra.
  - intros r Hr. simpl in Hr. unfold energyOk.
    destruct r as [|[|r]]; simpl; [lra | lra | lia].
  - split; apply Hok; lia.
Defined.

(** ** Positions *)

Lemma Math_hypot_triangle (u v : R) : Math_hypot u v <= Rabs u + Rabs v.
Proof.
  unfold Math_hypot.
  pose proof (Rabs_pos u) as Hu. pose proof (Rabs_pos v) as Hv.
  rewrite <- (sqrt_square (Rabs u + Rabs v)) by lra.
  apply sqrt_le_1_alt.
  assert (u * u = Rabs u * Rabs u) as -> by (rewrite <- Rabs_mult; symmetry; apply Rabs_right; nra).
  assert (v * v = Rabs v * Rabs v) as -> by (rewrite <- Rabs_mult; symmetry; apply Rabs_right; nra).
  nra.
Qed.

(** The speed clamp leaves each velocity component within the bound. *)
Lemma clamped_component (u sp m : R) :
  0 <= m -> Rabs u <= sp ->
  Rabs (if decide (sp > m) then u / sp * m else u) <= m.
Proof.
  intros Hm Hu. destruct (decide (sp > m)) as [Hgt|Hle]; [|lra].
  assert (0 < sp) as Hsp by lra.
  unfold Rdiv. rewrite !Rabs_mult, (Rabs_right m) by lra.
  rewrite Rabs_inv, (Rabs_right sp) by lra.
  assert (Rabs u * / sp <= 1) as H1.
  { apply (Rmult_le_reg_r sp); [done|]. rewrite Rmult_assoc, Rinv_l by lra. lra. }
  pose proof (Rabs_pos u) as H0.
  assert (0 <= Rabs u * / sp).
  { apply Rmult_le_pos; [done|]. left. by apply Rinv_0_lt_compat. }
  clear - H1 H Hm. nra.
Qed.

Lemma Rabs_le_between (d bound : R) : Rabs d <= bound -> - bound <= d <= bound.
Proof.
  intros Hd. pose proof (Rle_abs d) as H1. pose proof (Rle_abs (- d)) as H2.
  rewrite Rabs_Ropp in H2. lra.
Qed.

Lemma wrap_closed (p0 d bound : R) :
  0 <= p0 <= bound -> Rabs d <= bound ->
  0 <= Spark.wrap (p0 + d) bound <= bound.
Proof.
  intros [H0 Hb] Hd. apply Rabs_le_between in Hd. unfold Spark.wrap. cbv zeta.
  destruct (decide (p0 + d < 0)); destruct (decide (_ > bound)); lra.
Qed.

Lemma update_x (cfg : Config) (s : Spark.t) (dt time : R) :
  Spark.x (Spark.update cfg s dt time).1
  = Spark.wrap (Spark.x s + Spark.vx (Spark.update cfg s dt time).1 * dt) (Spark.w s).
Proof. done. Qed.

Lemma update_y (cfg : Config) (s : Spark.t) (dt time : R) :
  Spark.y (Spark.update cfg s dt time).1
  = Spark.wrap (Spark.y s + Spark.vy (Spark.update cfg s dt time).1 * dt) (Spark.h s).
Proof. done. Qed.

Lemma update_speed (cfg : Config) (s : Spark.t) (dt time : R) :
  0 <= maxSpeed cfg ->
  Rabs (Spark.vx (Spark.update cfg s dt time).1) <= maxSpeed cfg
  /\ Rabs (Spark.vy (Spark.update cfg s dt time).1) <= maxSpeed cfg.
Proof.
  intros Hm. unfold Spark.update. cbv zeta. simpl Spark.vx. simpl Spark.vy.
  split; apply clamped_component; try done.
  - apply Math_hypot_abs_l.
  - apply Math_hypot_abs_r.
Qed.

(** C4, as amended.  When one step is no longer than the viewport is wide
    and high, an update keeps a spark inside the closed box
    [0, w] x [0, h]. *)
Theorem position_in_closed_box (cfg : Config) (s : Spark.t) (dt time : R) :
  0 <= maxSpeed cfg ->
  Rabs dt * maxSpeed cfg <= Spark.w s ->
  Rabs dt * maxSpeed cfg <= Spark.h s ->
  0 <= Spark.x s <= Spark.w s ->
  0 <= Spark.y s <= Spark.h s ->
  let s' := (Spark.update cfg s dt time).1 in
  0 <= Spark.x s' <= Spark.w s' /\ 0 <= Spark.y s' <= Spark.h s'.
Proof.
  intros Hm Hw Hh Hx Hy s'.
  destruct (update_speed cfg s dt time Hm) as [Hvx Hvy].
  pose proof (Rabs_pos dt) as Hdt.
  unfold s'. rewrite update_x, update_y.
  change (Spark.w (Spark.update cfg s dt time).1) with (Spark.w s).
  change (Spark.h (Spark.update cfg s dt time).1) with (Spark.h s).
  split; apply wrap_closed; try done; rewrite Rabs_mult.
  - pose proof (Rabs_pos (Spark.vx (Spark.update cfg s dt time).1)).
    etrans; [|exact Hw]. clear - Hvx Hdt H. nra.
  - pose proof (Rabs_pos (Spark.vy (Spark.update cfg s dt time).1)).
    etrans; [|exact Hh]. clear - Hvy Hdt H. nra.
Qed.

Lemma position_in_closed_box_witness :
  let s' := (Spark.update CONFIG (demoSpark 0 100 (8 / 10) (8 / 10) 6000) (1 / 60) 16).1 in
  0 <= Spark.x s' <= Spark.w s' /\ 0 <= Spark.y s' <= Spark.h s'.
Proof.
  apply (position_in_closed_box CONFIG (demoSpark 0 100 (8 / 10) (8 / 10) 6000) (1 / 60) 16).
  - simpl. lra.
  - simpl. rewrite Rabs_right by lra. lra.
  - simpl. rewrite Rabs_right by lra. lra.
  - simpl. lra.
  - simpl. lra.
Defined.

Lemma edgeSpark_vx :
  Spark.vx (Spark.update CONFIG edgeSpark (1 / 60) 1000).1 = 97 / 100.
Proof.
  unfold Spark.update. cbv zeta. simpl.
  replace (1000 * (1 / 1000) + (PI - 1) / 10 * 10) with PI by field.
  rewrite sin_PI.
  replace (1 / 60 * 60) with 1 by field.
  rewrite Math_pow_pos by lra. rewrite Rpower_1 by lra.
  set (c := cos _). pose proof (COS_bound (1000 * (12 / 10000) + (PI - 1) / 10 * 7)) as Hc.
  fold c in Hc. clearbody c.
  destruct (decide _) as [Hgt|_]; [|lra].
  exfalso.
  pose proof (Math_hypot_triangle ((1 + 0 * 10 * (1 / 60)) * (97 / 100))
                                  ((0 + c * 10 * (1 / 60)) * (97 / 100))) as Htri.
  rewrite (Rabs_right ((1 + 0 * 10 * (1 / 60)) * (97 / 100))) in Htri by lra.
  assert (Rabs ((0 + c * 10 * (1 / 60)) * (97 / 100)) <= 1) as Hv.
  { apply Rabs_le. lra. }
  lra.
Qed.

(** C4 as stated fails at the right edge: the spark lands on [x = w]
    exactly, which the test [x > w] leaves in place. *)
Lemma position_reaches_right_edge :
  let s' := (Spark.update CONFIG edgeSpark (1 / 60) 1000).1 in
  0 <= Spark.x edgeSpark < Spark.w edgeSpark
  /\ 0 <= Spark.seedFeature edgeSpark < 1
  /\ Spark.x s' = Spark.w s'
  /\ ~ (0 <= Spark.x s' < Spark.w s').
Proof.
  intros s'.
  assert (Spark.x s' = 1920) as Hx.
  { unfold s'. rewrite update_x, edgeSpark_vx. simpl.
    replace (1920 - 97 / 6000 + 97 / 100 * (1 / 60)) with 1920 by field.
    unfold Spark.wrap. cbv zeta.
    destruct (decide (1920 < 0)); [lra|].
    destruct (decide (1920 > 1920)); [lra | done]. }
  split; [simpl; lra|]. split.
  { simpl. pose proof PI2_3_2. pose proof PI_4. lra. }
  split; [by rewrite Hx|].
  rewrite Hx. simpl. lra.
Qed.

(** ** The spatial grid *)

Section Grid.
Import SpatialGrid.
Context (hp : Heap).

Lemma insert_cellSize (g : t) (r : ref) : cellSize (insert hp g r) = cellSize g.
Proof. done. Qed.

Lemma insert_fold_cellSize (l : list ref) (g : t) :
  cellSize (foldl (insert hp) g l) = cellSize g.
Proof.
  revert g. induction l as [|r l IH]; intros g; [done|].
  by rewrite foldl_step, IH.
Qed.

(** After a series of insertions a cell holds what it held before, followed
    by the inserted sparks that fall into it, in insertion order. *)
Lemma insert_fold_cells (l : list ref) (g : t) (k : Z * Z) :
  default [] (cells (foldl (insert hp) g l) !! k)
  = default [] (cells g !! k) ++ filter (fun r => cellOf hp (cellSize g) r = k) l.
Proof.
  revert g. induction l as [|r l IH]; intros g.
  { simpl. by rewrite app_nil_r. }
  rewrite foldl_step, IH, insert_cellSize, filter_cons.
  unfold insert at 1. cbv zeta. simpl cells.
  change (getKey g (Spark.x (hp r)) (Spark.y (hp r))) with (cellOf hp (cellSize g) r).
  destruct (decide (cellOf hp (cellSize g) r = k)) as [<-|Hne].
  - rewrite lookup_insert_eq. simpl. by rewrite <- app_assoc.
  - by rewrite lookup_insert_ne.
Qed.

Lemma rebuildGrid_cellSize (g : t) (l : list ref) :
  cellSize (SparkSystem.rebuildGrid hp g l) = cellSize g.
Proof. unfold SparkSystem.rebuildGrid. by rewrite insert_fold_cellSize. Qed.

Lemma rebuildGrid_cells (g : t) (l : list ref) (k : Z * Z) :
  default [] (cells (SparkSystem.rebuildGrid hp g l) !! k)
  = filter (fun r => cellOf hp (cellSize g) r = k) l.
Proof.
  unfold SparkSystem.rebuildGrid. rewrite insert_fold_cells. simpl.
  by rewrite lookup_empty.
Qed.

(** The neighbours of [p] in the rebuilt grid, cell by cell. *)
Lemma rebuildGrid_neighbors (g : t) (l : list ref) (p : ref) :
  getNeighbors hp (SparkSystem.rebuildGrid hp g l) p
  = d ← offsets;
    filter (fun other => other ≠ p)
           (filter (fun r => cellOf hp (cellSize g) r
                             = shiftCell (cellOf hp (cellSize g) p) d) l).
Proof.
  unfold getNeighbors. cbv zeta. rewrite rebuildGrid_cellSize.
  apply list_bind_ext; [|done]. intros d.
  by rewrite rebuildGrid_cells.
Qed.

Lemma offsets_NoDup : NoDup offsets.
Proof. apply (bool_decide_unpack _). by vm_compute. Qed.

Lemma shiftCell_inj (k d1 d2 : Z * Z) : shiftCell k d1 = shiftCell k d2 -> d1 = d2.
Proof.
  destruct k as [c r], d1 as [a1 b1], d2 as [a2 b2]. unfold shiftCell. simpl.
  intros [=]. f_equal; lia.
Qed.

Lemma neighbors_elem (g : t) (l : list ref) (p q : ref) :
  q ∈ getNeighbors hp (SparkSystem.rebuildGrid hp g l) p
  <-> q ≠ p /\ q ∈ l
      /\ exists d, d ∈ offsets
                   /\ cellOf hp (cellSize g) q = shiftCell (cellOf hp (cellSize g) p) d.
Proof.
  rewrite rebuildGrid_neighbors, list_elem_of_bind.
  setoid_rewrite list_elem_of_filter. setoid_rewrite list_elem_of_filter.
  naive_solver.
Qed.

Lemma neighbors_NoDup (g : t) (l : list ref) (p : ref) :
  NoDup l -> NoDup (getNeighbors hp (SparkSystem.rebuildGrid hp g l) p).
Proof.
  intros Hl. rewrite rebuildGrid_neighbors.
  apply NoDup_bind; [| |apply offsets_NoDup].
  - intros d1 d2 q _ _ H1 H2.
    apply list_elem_of_filter in H1 as [_ [H1 _]%list_elem_of_filter].
    apply list_elem_of_filter in H2 as [_ [H2 _]%list_elem_of_filter].
    apply (shiftCell_inj (cellOf hp (cellSize g) p)). congruence.
  - intros d _. by do 2 apply list.NoDup_filter.
Qed.

End Grid.



(** ** Runs with the interaction cap set to zero *)

Section ZeroCap.
Import SparkSystem.
Context (cfg : Config) (E : Env).
Hypothesis Hcap : maxInteractionsPerFrame cfg = 0%nat.











End ZeroCap.




(** ** Expired sparks *)

Section Purge.
Import SparkSystem.
Context (cfg : Config) (E : Env).

Lemma spawnSpark_uniqueIds (st : t) : uniqueIds st -> uniqueIds (spawnSpark cfg E st).
Proof.
  intros [Hall Hinj]. unfold spawnSpark. destruct (decide _); [done|].
  assert (forall r, r ∈ sparks st ->
            (<[heapNext st := Spark.new cfg E (sparkIdCounter st) (S (S (randCalls st)))
                                 (nowCalls st)
                                 (width st * (spawnPadding cfg + random E (randCalls st)
                                              * (1 - 2 * spawnPadding cfg)))
                                 (height st * (spawnPadding cfg + random E (S (randCalls st))
                                               * (1 - 2 * spawnPadding cfg)))
                                 (width st) (height st) (nn st)]> (heap st)) r
            = heap st r) as Hold.
  { intros r Hr. apply fn_lookup_insert_ne. destruct (Hall r Hr). lia. }
  split; simpl.
  - intros r [Hr| ->%list_elem_of_singleton]%elem_of_app.
    + rewrite Hold by done. destruct (Hall r Hr). lia.
    + rewrite fn_lookup_insert. simpl. lia.
  - intros r1 r2 [H1| ->%list_elem_of_singleton]%elem_of_app
                 [H2| ->%list_elem_of_singleton]%elem_of_app;
      rewrite ?fn_lookup_insert, ?Hold by done; simpl.
    + by apply Hinj.
    + intros Heq. destruct (Hall r1 H1). lia.
    + intros Heq. destruct (Hall r2 H2). lia.
    + done.
Qed.

Lemma spawned_uniqueIds (st : t) (time : R) :
  uniqueIds st -> uniqueIds (spawned cfg E st time).
Proof.
  intros Hwf. unfold spawned. cbv zeta.
  apply (spawnLoop_ind cfg E uniqueIds); [apply spawnSpark_uniqueIds | done | done].
Qed.

(** Spawning appends to the population. *)
Lemma spawned_sparks (st : t) (time : R) :
  exists extra, sparks (spawned cfg E st time) = sparks st ++ extra.
Proof.
  unfold spawned. cbv zeta.
  apply (spawnLoop_ind cfg E (fun s => exists extra, sparks s = sparks st ++ extra)).
  - intros s [extra Hs]. unfold spawnSpark. destruct (decide _); [by exists extra|].
    simpl. exists (extra ++ [heapNext s]). by rewrite Hs, app_assoc.
  - done.
  - exists []. simpl. by rewrite app_nil_r.
Qed.

Lemma neighbors_in_population (hp hp' : Heap) (g : SpatialGrid.t) (l : list ref)
    (p q : ref) :
  q ∈ SpatialGrid.getNeighbors hp' (rebuildGrid hp g l) p -> q ∈ l /\ q ≠ p.
Proof.
  unfold SpatialGrid.getNeighbors. cbv zeta.
  intros (d & Hq & _)%list_elem_of_bind.
  apply list_elem_of_filter in Hq as [Hne Hq].
  rewrite rebuildGrid_cells in Hq.
  by apply list_elem_of_filter in Hq as [_ Hq].
Qed.

Lemma resolve_avoid (dt : R) (r spark other : ref) (P : Pass) :
  spark ≠ r -> other ≠ r ->
  connsAvoid r (p_connections P) ->
  connsAvoid r (p_connections (resolve cfg E dt spark P other)).
Proof.
  intros Hs Ho Hav.
  destruct (decide (getConnectionKey (p_heap P spark) (p_heap P other) ∈ processed P))
    as [Hin|Hnin].
  { by rewrite resolve_processed. }
  destruct (inRadius cfg (p_heap P) spark other) eqn:Hnear.
  - rewrite resolve_connections by done. intros k c.
    rewrite lookup_insert. destruct (decide _) as [_|_]; [|apply Hav].
    by intros [= <-].
  - by rewrite resolve_far.
Qed.

Lemma resolve_fold_avoid (dt : R) (r spark : ref) (others : list ref) (P : Pass) :
  spark ≠ r -> Forall (fun other => other ≠ r) others ->
  connsAvoid r (p_connections P) ->
  connsAvoid r (p_connections (foldl (resolve cfg E dt spark) P others)).
Proof.
  intros Hs Hothers. revert P.
  induction Hothers as [|other others Ho _ IH]; intros P Hav; [done|].
  rewrite foldl_step. by apply IH, resolve_avoid.
Qed.

Lemma resolveAll_avoid (dt : R) (r : ref) (hp : Heap) (g : SpatialGrid.t)
    (pop l : list ref) (P : Pass) :
  r ∉ pop -> l ⊆ pop ->
  connsAvoid r (p_connections P) ->
  connsAvoid r (p_connections (resolveAll cfg E dt (rebuildGrid hp g pop) l P)).
Proof.
  intros Hr. revert P. induction l as [|spark l IH]; intros P Hl Hav; [done|].
  simpl. destruct (bool_decide _); [done|].
  apply IH; [set_solver|].
  apply resolve_fold_avoid; [set_solver | | done].
  apply list.Forall_forall. intros q [Hq _]%neighbors_in_population. set_solver.
Qed.

Lemma fadeOut_refs (active : gset Key) (dt : R) (k : Key) (c c' : Conn) :
  fadeOut active dt k c = Some c' -> a c' = a c /\ b c' = b c.
Proof.
  unfold fadeOut. destruct (decide _); [by intros [= <-]|].
  cbv zeta. destruct (decide _); [done|]. by intros [= <-].
Qed.

Lemma processInteractions_avoid (dt : R) (r : ref) (st : t) :
  r ∉ sparks st -> connsAvoid r (connections st) ->
  connsAvoid r (connections (processInteractions cfg E dt st)).
Proof.
  intros Hr Hav k c'. unfold processInteractions. cbv zeta. simpl.
  rewrite map_lookup_imap.
  destruct (p_connections (interactionPass cfg E dt st) !! k) as [c|] eqn:Hc; [|done].
  simpl. intros [-> ->]%fadeOut_refs.
  by apply (resolveAll_avoid dt r (heap st) (grid st) (sparks st) (sparks st)
              (startPass st) Hr) in Hc.
Qed.

(** After the cleanup no ledger entry refers to a spark that just expired. *)
Lemma culled_avoid (st : t) (time : R) (r : ref) :
  uniqueIds st -> r ∈ sparks st ->
  aliveAt (heap st) time r = false ->
  (r ∉ sparks (culled cfg E st time))
  /\ connsAvoid r (connections (culled cfg E st time)).
Proof.
  intros Hwf Hr Hdead.
  pose proof (spawned_uniqueIds st time Hwf) as [_ Hinj].
  destruct (spawned_sparks st time) as [extra Hsp].
  destruct (spawned_frame cfg E st time) as (_ & Hold & _).
  set (st2 := spawned cfg E st time) in *.
  assert (r ∈ sparks st2) as Hr2 by (rewrite Hsp; set_solver).
  assert (aliveAt (heap st2) time r = false) as Hdead2.
  { unfold aliveAt. rewrite Hold; [done|]. by apply Hwf. }
  split.
  { rewrite culled_sparks. fold st2. rewrite list_elem_of_filter.
    intros [Halive _]. by rewrite Hdead2 in Halive. }
  rewrite culled_eq. fold st2. cbv zeta. simpl.
  rewrite advance_fold_ids.
  pose proof (advance_fold_rel cfg (frameDt st time) time sameIdentity
                (fun s => update_sameIdentity cfg s (frameDt st time) time)
                (sparks st2) (heap st2) ∅ []) as Hsame.
  set (hp3 := (foldl _ _ _).1.1) in *.
  assert (forall q, Spark.id (hp3 q) ∈
            (∅ ∪ list_to_set ((fun r0 => Spark.id (heap st2 r0))
                               <$> filter (fun r0 => aliveAt (heap st2) time r0) (sparks st2))
             : gset nat) -> q ∈ sparks st2 -> aliveAt (heap st2) time q = true) as Hids.
  { intros q Hq Hq2. apply elem_of_union in Hq as [Hq|Hq]; [set_solver|].
    apply elem_of_list_to_set, list_elem_of_fmap in Hq as (q' & Hid & Hq').
    apply list_elem_of_filter in Hq' as [Halive Hq'].
    destruct (Hsame q) as [Hidq _]. rewrite Hidq in Hid.
    rewrite (Hinj q q' Hq2 Hq' Hid). by apply Is_true_true. }
  intros k c [_ [Ha Hb]]%map_lookup_filter_Some. simpl in Ha, Hb.
  split; intros Heq; subst r.
  - rewrite (Hids _ Ha Hr2) in Hdead2. done.
  - rewrite (Hids _ Hb Hr2) in Hdead2. done.
Qed.

End Purge.

Section FlowSurvival.
Import SparkSystem.
Context (cfg : Config) (E : Env).

Lemma update_uniqueIds (st : t) (time : R) :
  uniqueIds st -> uniqueIds (update cfg E st time).
Proof.
  intros Hwf. pose proof (spawned_uniqueIds cfg E st time Hwf) as [Hall Hinj].
  assert (forall q, Spark.id (heap (update cfg E st time) q)
                    = Spark.id (heap (spawned cfg E st time) q)) as Hid.
  { intros q.
    apply (update_heap_rel cfg E sameIdentity st time).
    - intros s. apply update_sameIdentity.
    - done.
    - done.
    - intros. apply transferEnergy_rel; [apply _ | done]. }
  assert (forall q, q ∈ sparks (update cfg E st time) -> q ∈ sparks (spawned cfg E st time))
    as Hsub.
  { intros q. change (sparks (update cfg E st time)) with (sparks (culled cfg E st time)).
    rewrite culled_sparks. by intros [_ ?]%list_elem_of_filter. }
  split.
  - intros q Hq%Hsub. rewrite Hid, update_heapNext.
    change (sparkIdCounter (update cfg E st time))
      with (sparkIdCounter (culled cfg E st time)).
    rewrite culled_eq. by apply Hall.
  - intros q1 q2 H1%Hsub H2%Hsub. rewrite !Hid. by apply Hinj.
Qed.

(** The pass only appends to the flow particles. *)
Lemma resolve_flow (dt : R) (spark : ref) (P : Pass) (other : ref) :
  exists extra,
    p_flowParticles (resolve cfg E dt spark P other) = p_flowParticles P ++ extra.
Proof.
  unfold resolve. cbv zeta.
  destruct (decide _); [by exists []; rewrite app_nil_r|].
  destruct (bool_decide (_ < interactionRadius cfg) && _);
    [|by exists []; rewrite app_nil_r].
  destruct (decide (_ > 1 / 10)); [|by exists []; rewrite app_nil_r].
  destruct (bool_decide (_ > 2 / 10) && _); [|by exists []; rewrite app_nil_r].
  destruct (decide (random E _ < _)); [by eexists | by exists []; rewrite app_nil_r].
Qed.

Lemma resolve_fold_flow (dt : R) (spark : ref) (others : list ref) (P : Pass) :
  exists extra,
    p_flowParticles (foldl (resolve cfg E dt spark) P others) = p_flowParticles P ++ extra.
Proof.
  revert P. induction others as [|other others IH]; intros P.
  { exists []. simpl. by rewrite app_nil_r. }
  rewrite foldl_step.
  destruct (IH (resolve cfg E dt spark P other)) as [e2 ->].
  destruct (resolve_flow dt spark P other) as [e1 ->].
  exists (e1 ++ e2). by rewrite app_assoc.
Qed.

Lemma resolveAll_flow (dt : R) (g : SpatialGrid.t) (l : list ref) (P : Pass) :
  exists extra,
    p_flowParticles (resolveAll cfg E dt g l P) = p_flowParticles P ++ extra.
Proof.
  revert P. induction l as [|spark l IH]; intros P; simpl.
  { exists []. by rewrite app_nil_r. }
  destruct (bool_decide _); [by exists []; rewrite app_nil_r|].
  destruct (IH (foldl (resolve cfg E dt spark) P
                      (SpatialGrid.getNeighbors (p_heap P) g spark))) as [e2 ->].
  destruct (resolve_fold_flow dt spark (SpatialGrid.getNeighbors (p_heap P) g spark) P)
    as [e1 ->].
  exists (e1 ++ e2). by rewrite app_assoc.
Qed.

Lemma flow_update_alive (hp : Heap) (p : FlowParticle.t) (dt : R) :
  0 <= dt -> 0 <= flowParticleSpeed cfg ->
  FlowParticle.t_ p + flowParticleSpeed cfg * dt < 1 ->
  (FlowParticle.update cfg hp p dt).2 = true.
Proof.
  intros Hdt Hsp Ht. unfold FlowParticle.update. cbv zeta. simpl.
  apply bool_decide_eq_true_2.
  set (dist := Math_hypot _ _).
  pose proof (Rmax_r dist 1) as Hm.
  assert (flowParticleSpeed cfg / Rmax dist 1 <= flowParticleSpeed cfg) as Hle.
  { apply (Rmult_le_reg_r (Rmax dist 1)); [lra|].
    unfold Rdiv. rewrite Rmult_assoc, Rinv_l by lra. clear - Hm Hsp. nra. }
  assert (0 <= flowParticleSpeed cfg / Rmax dist 1) as Hge.
  { apply Rmult_le_pos; [done|]. left. apply Rinv_0_lt_compat. lra. }
  clear - Hle Hge Hdt Ht. nra.
Qed.

(** A flow particle that is not about to finish is still there after the
    frame, between the same two sparks, whatever became of them. *)
Lemma flow_survives (st : t) (time : R) (p : FlowParticle.t) :
  p ∈ flowParticles st ->
  0 <= frameDt st time -> 0 <= flowParticleSpeed cfg ->
  FlowParticle.t_ p + flowParticleSpeed cfg * frameDt st time < 1 ->
  exists p', p' ∈ flowParticles (update cfg E st time)
             /\ FlowParticle.giver p' = FlowParticle.giver p
             /\ FlowParticle.receiver p' = FlowParticle.receiver p.
Proof.
  intros Hp Hdt Hsp Ht. unfold update. cbv zeta. simpl flowParticles.
  set (st3 := culled cfg E st time).
  destruct (resolveAll_flow (frameDt st time)
              (rebuildGrid (heap st3) (grid st3) (sparks st3)) (sparks st3)
              (startPass st3)) as [extra Hfl].
  fold (interactionPass cfg E (frameDt st time) st3) in Hfl. rewrite Hfl.
  assert (flowParticles st3 = flowParticles st) as Hsame.
  { unfold st3. rewrite culled_eq. cbv zeta. simpl.
    by destruct (spawned_frame cfg E st time) as (_ & _ & _ & -> & _). }
  simpl p_flowParticles. rewrite Hsame.
  set (hp4 := p_heap _).
  exists (FlowParticle.update cfg hp4 p (frameDt st time)).1.
  split; [|done].
  unfold advanceFlow. apply list_elem_of_omap. exists p.
  split; [set_solver|].
  by rewrite (flow_update_alive hp4 p (frameDt st time)).
Qed.

End FlowSurvival.

(** C3, as amended.  A spark whose age exceeds its lifetime is reported
    not alive by its update, and after the frame it is no longer in the
    population and no connection of the ledger refers to it. *)
Theorem expired_spark_is_purged (cfg : Config) (E : Env) (st : SparkSystem.t)
    (time : R) (r : ref) :
  uniqueIds st -> r ∈ SparkSystem.sparks st ->
  time - Spark.birth (SparkSystem.heap st r) > Spark.lifetime (SparkSystem.heap st r) ->
  (Spark.update cfg (SparkSystem.heap st r) (SparkSystem.frameDt st time) time).2 = false
  /\ (r ∉ SparkSystem.sparks (SparkSystem.update cfg E st time))
  /\ connsAvoid r (SparkSystem.connections (SparkSystem.update cfg E st time)).
Proof.
  intros Hwf Hr Hage.
  assert (aliveAt (SparkSystem.heap st) time r = false) as Hdead.
  { apply bool_decide_eq_false_2. lra. }
  split; [by rewrite update_alive|].
  destruct (culled_avoid cfg E st time r Hwf Hr Hdead) as [Hnin Hav].
  split; [exact Hnin|].
  by apply processInteractions_avoid.
Qed.

Lemma demoSys_uniqueIds (e1 last : R) (fl : list FlowParticle.t) :
  uniqueIds (demoSys e1 last fl).
Proof.
  split; simpl.
  - intros r Hr.
    assert (r = 0%nat \/ r = 1%nat) as [-> | ->] by set_solver; simpl; lia.
  - intros r1 r2 H1 H2.
    assert (r1 = 0%nat \/ r1 = 1%nat) as [-> | ->] by set_solver;
      assert (r2 = 0%nat \/ r2 = 1%nat) as [-> | ->] by set_solver; simpl; done.
Qed.

Lemma demoSys_frameDt (e1 : R) (fl : list FlowParticle.t) :
  SparkSystem.frameDt (demoSys e1 6984 fl) 7000 = 16 / 1000.
Proof.
  unfold SparkSystem.frameDt. simpl.
  replace ((7000 - 6984) / 1000) with (16 / 1000) by field.
  apply Rmin_left. lra.
Qed.

Lemma expired_spark_is_purged_witness :
  (0%nat ∉ SparkSystem.sparks
             (SparkSystem.update CONFIG demoEnv (demoSys (1 / 2) 6984 []) 7000))
  /\ connsAvoid 0
       (SparkSystem.connections
          (SparkSystem.update CONFIG demoEnv (demoSys (1 / 2) 6984 []) 7000)).
Proof.
  apply (expired_spark_is_purged CONFIG demoEnv (demoSys (1 / 2) 6984 []) 7000 0).
  - apply demoSys_uniqueIds.
  - simpl. set_solver.
  - simpl. lra.
Defined.

(** C3 as stated fails for flow particles: spark 0 expires at time 7000,
    and the flow particle it gives through is still there after the frame. *)
Lemma flow_particle_outlives_giver :
  let fl := FlowParticle.new 0 1 (235, 170, 60) (1 / 2) in
  let st := demoSys (1 / 2) 6984 [fl] in
  let st' := SparkSystem.update CONFIG demoEnv st 7000 in
  uniqueIds st
  /\ 0%nat ∈ SparkSystem.sparks st
  /\ 7000 - Spark.birth (SparkSystem.heap st 0%nat)
     > Spark.lifetime (SparkSystem.heap st 0%nat)
  /\ (0%nat ∉ SparkSystem.sparks st')
  /\ exists p, p ∈ SparkSystem.flowParticles st' /\ FlowParticle.giver p = 0%nat.
Proof.
  intros fl st st'.
  split; [apply demoSys_uniqueIds|].
  split; [simpl; set_solver|].
  split; [simpl; lra|].
  split.
  - apply (culled_avoid CONFIG demoEnv st 7000 0).
    + apply demoSys_uniqueIds.
    + simpl. set_solver.
    + apply bool_decide_eq_false_2. simpl. lra.
  - destruct (flow_survives CONFIG demoEnv st 7000 fl) as (p & Hp & Hg & _).
    + simpl. set_solver.
    + unfold st. rewrite demoSys_frameDt. lra.
    + simpl. lra.
    + unfold st. rewrite demoSys_frameDt. simpl. lra.
    + exists p. by split.
Qed.

(** ** A crowd of sparks within reach of one another *)

Lemma unmoved_key (hp0 hp : Heap) (p q : ref) :
  heapRel unmoved hp0 hp ->
  SparkSystem.getConnectionKey (hp p) (hp q)
  = SparkSystem.getConnectionKey (hp0 p) (hp0 q).
Proof.
  intros H. destruct (H p) as [[Hp _] _], (H q) as [[Hq _] _].
  unfold SparkSystem.getConnectionKey. by rewrite Hp, Hq.
Qed.

Lemma unmoved_inRadius (cfg : Config) (hp0 hp : Heap) (p q : ref) :
  heapRel unmoved hp0 hp -> inRadius cfg hp p q = inRadius cfg hp0 p q.
Proof.
  intros H. destruct (H p) as (_ & Hpx & Hpy), (H q) as (_ & Hqx & Hqy).
  unfold inRadius, pairDist. by rewrite Hpx, Hpy, Hqx, Hqy.
Qed.

Lemma unmoved_neighbors (hp0 hp : Heap) (g : SpatialGrid.t) (p : ref) :
  heapRel unmoved hp0 hp ->
  SpatialGrid.getNeighbors hp g p = SpatialGrid.getNeighbors hp0 g p.
Proof.
  intros H. destruct (H p) as (_ & Hpx & Hpy).
  unfold SpatialGrid.getNeighbors. by rewrite Hpx, Hpy.
Qed.

Lemma resolve_unmoved (cfg : Config) (E : Env) (dt : R) (spark other : ref)
    (P : SparkSystem.Pass) :
  heapRel unmoved (SparkSystem.p_heap P)
          (SparkSystem.p_heap (SparkSystem.resolve cfg E dt spark P other)).
Proof.
  apply (resolve_rel cfg E dt unmoved); try done.
  intros. apply transferEnergy_rel; [apply _ | done].
Qed.

Lemma bind_nothing {A B : Type} (f : A -> list B) (l : list A) :
  (forall y, y ∈ l -> f y = []) -> l ≫= f = [].
Proof.
  induction l as [|z l IH]; intros Hf; [done|].
  change ((z :: l) ≫= f) with (f z ++ (l ≫= f)).
  rewrite Hf by set_solver. simpl. apply IH. intros y Hy. apply Hf. set_solver.
Qed.

Lemma bind_only {A B : Type} (f : A -> list B) (l : list A) (v : A) :
  NoDup l -> v ∈ l -> (forall y, y ∈ l -> y ≠ v -> f y = []) -> l ≫= f = f v.
Proof.
  intros Hnd. revert v. induction Hnd as [|y l Hy Hnd IH]; intros v Hv Hf.
  { by apply elem_of_nil in Hv. }
  change ((y :: l) ≫= f) with (f y ++ (l ≫= f)).
  apply elem_of_cons in Hv as [->|Hv].
  - rewrite bind_nothing; [by rewrite app_nil_r|].
    intros z Hz. apply Hf; set_solver.
  - rewrite (Hf y); [|set_solver|set_solver]. simpl.
    apply IH; [done|]. intros y' Hy' Hne. apply Hf; [set_solver|done].
Qed.

Lemma filter_all {A : Type} (Q : A -> Prop) `{!forall v, Decision (Q v)} (l : list A) :
  (forall v, v ∈ l -> Q v) -> filter Q l = l.
Proof.
  induction l as [|v l IH]; intros Hall; [done|].
  rewrite filter_cons, decide_True by set_solver.
  f_equal. apply IH. set_solver.
Qed.

Lemma filter_none {A : Type} (Q : A -> Prop) `{!forall v, Decision (Q v)} (l : list A) :
  (forall v, v ∈ l -> ~ Q v) -> filter Q l = [].
Proof.
  induction l as [|v l IH]; intros Hall; [done|].
  rewrite filter_cons, decide_False by set_solver.
  apply IH. set_solver.
Qed.

Lemma key_sym (s1 s2 : Spark.t) :
  SparkSystem.getConnectionKey s1 s2 = SparkSystem.getConnectionKey s2 s1.
Proof.
  unfold SparkSystem.getConnectionKey.
  destruct (Nat.ltb_spec (Spark.id s1) (Spark.id s2)),
           (Nat.ltb_spec (Spark.id s2) (Spark.id s1)); try done; try lia.
  f_equal; lia.
Qed.

Lemma key_inj (s1 s2 s3 s4 : Spark.t) :
  SparkSystem.getConnectionKey s1 s2 = SparkSystem.getConnectionKey s3 s4 ->
  (Spark.id s1 = Spark.id s3 /\ Spark.id s2 = Spark.id s4)
  \/ (Spark.id s1 = Spark.id s4 /\ Spark.id s2 = Spark.id s3).
Proof.
  unfold SparkSystem.getConnectionKey.
  destruct (Nat.ltb_spec (Spark.id s1) (Spark.id s2)),
           (Nat.ltb_spec (Spark.id s3) (Spark.id s4)); intros [= ? ?]; lia.
Qed.

Lemma shiftCell_0 (k : Z * Z) : shiftCell k (0, 0)%Z = k.
Proof. destruct k as [c r]. unfold shiftCell. simpl. f_equal; lia. Qed.

Section Crowd.
Import SparkSystem.
Context (cfg : Config) (E : Env) (dt : R).
Context (hp0 : Heap) (g0 : SpatialGrid.t) (pop : list ref).
Hypothesis Hnd : NoDup pop.
Hypothesis Hcell : forall p q, p ∈ pop -> q ∈ pop ->
  cellOf hp0 (SpatialGrid.cellSize g0) q = cellOf hp0 (SpatialGrid.cellSize g0) p.
Hypothesis Hnear : forall p q, p ∈ pop -> q ∈ pop -> p ≠ q -> inRadius cfg hp0 p q = true.
Hypothesis Hids : forall p q, p ∈ pop -> q ∈ pop ->
  Spark.id (hp0 p) = Spark.id (hp0 q) -> p = q.

Lemma crowd_neighbors (p : ref) :
  p ∈ pop ->
  SpatialGrid.getNeighbors hp0 (rebuildGrid hp0 g0 pop) p
  = filter (fun other => other ≠ p) pop.
Proof.
  intros Hp. rewrite rebuildGrid_neighbors.
  rewrite (bind_only _ SpatialGrid.offsets (0, 0)%Z).
  - f_equal. apply filter_all. intros q Hq.
    by rewrite (Hcell p q Hp Hq), shiftCell_0.
  - apply offsets_NoDup.
  - apply (bool_decide_unpack _). by vm_compute.
  - intros d _ Hd.
    assert (filter (fun r => cellOf hp0 (SpatialGrid.cellSize g0) r
                             = shiftCell (cellOf hp0 (SpatialGrid.cellSize g0) p) d) pop
            = []) as ->; [|done].
    apply filter_none.
    intros q Hq. rewrite (Hcell p q Hp Hq). intros Heq. apply Hd.
    apply (shiftCell_inj (cellOf hp0 (SpatialGrid.cellSize g0) p)).
    by rewrite <- Heq, shiftCell_0.
Qed.

Lemma crowd_key_eq (p q p' q' : ref) :
  p ∈ pop -> q ∈ pop -> p' ∈ pop -> q' ∈ pop ->
  getConnectionKey (hp0 p) (hp0 q) = getConnectionKey (hp0 p') (hp0 q') ->
  (p = p' /\ q = q') \/ (p = q' /\ q = p').
Proof.
  intros Hp Hq Hp' Hq' [[H1 H2]|[H1 H2]]%key_inj; [left | right];
    split; by apply Hids.
Qed.

Lemma processedIs_iff (seen seen' : ref -> ref -> Prop) (P : Pass) :
  (forall p q, p ∈ pop -> q ∈ pop -> p ≠ q -> seen p q <-> seen' p q) ->
  processedIs hp0 pop seen P -> processedIs hp0 pop seen' P.
Proof.
  intros Hiff [Hheap Hseen]. split; [done|].
  intros p q Hp Hq Hne. rewrite (Hseen p q Hp Hq Hne). by apply Hiff.
Qed.

(** One neighbour: a pair met before is skipped, a new one is resolved. *)
Lemma crowd_resolve (seen : ref -> ref -> Prop) (s q : ref) (P : Pass) :
  processedIs hp0 pop seen P -> s ∈ pop -> q ∈ pop -> s ≠ q ->
  (seen s q -> resolve cfg E dt s P q = P)
  /\ (~ seen s q ->
      interactions (resolve cfg E dt s P q) = S (interactions P)
      /\ processedIs hp0 pop
           (fun p' q' => seen p' q' \/ (p' = s /\ q' = q) \/ (p' = q /\ q' = s))
           (resolve cfg E dt s P q)).
Proof.
  intros [Hheap Hseen] Hs Hq Hne.
  pose proof (unmoved_key hp0 (p_heap P) s q Hheap) as Hkey.
  split.
  - intros Hsq. apply resolve_processed. rewrite Hkey. by apply Hseen.
  - intros Hsq.
    assert (getConnectionKey (p_heap P s) (p_heap P q) ∉ processed P) as Hfresh.
    { rewrite Hkey. by rewrite Hseen. }
    assert (inRadius cfg (p_heap P) s q = true) as Hin.
    { rewrite (unmoved_inRadius cfg hp0) by done. by apply Hnear. }
    destruct (resolve_counts cfg E dt s P q Hfresh Hin) as (Hcount & Hproc & _).
    split; [done|]. split.
    + etrans; [exact Hheap | apply resolve_unmoved].
    + intros p' q' Hp' Hq' Hne'. rewrite Hproc, Hkey, elem_of_union, elem_of_singleton.
      rewrite (Hseen p' q' Hp' Hq' Hne'). split.
      * intros [?|Heq]; [by left|]. right.
        by apply crowd_key_eq in Heq.
      * intros [?|[[-> ->]|[-> ->]]]; [by left | by right |].
        right. apply key_sym.
Qed.

(** The inner loop of a spark [s] that was not visited yet: it resolves
    its pairs with the neighbours that were not visited either. *)
Lemma crowd_inner (D : list ref) (s : ref) (others pre : list ref) (P : Pass) :
  s ∈ pop -> s ∉ D ->
  (forall q, q ∈ others -> q ∈ pop /\ q ≠ s) ->
  NoDup (pre ++ others) ->
  processedIs hp0 pop (seenBy D s pre) P ->
  interactions (foldl (resolve cfg E dt s) P others)
  = (interactions P + length (filter (fun q => q ∉ D) others))%nat
  /\ processedIs hp0 pop (seenBy D s (pre ++ others))
       (foldl (resolve cfg E dt s) P others).
Proof.
  intros Hs HsD. revert pre P.
  induction others as [|q others IH]; intros pre P Hothers Hnd' HP.
  { simpl. rewrite app_nil_r. split; [lia | done]. }
  destruct (Hothers q ltac:(set_solver)) as [Hq Hqs].
  assert (q ∉ pre) as Hqpre.
  { apply list.NoDup_app in Hnd' as (_ & Hdisj & _). intros Hin.
    apply (Hdisj q Hin). set_solver. }
  assert (NoDup ((pre ++ [q]) ++ others)) as Hnd''.
  { by rewrite <- app_assoc. }
  rewrite foldl_step, filter_cons.
  destruct (crowd_resolve (seenBy D s pre) s q P HP Hs Hq (not_eq_sym Hqs))
    as [Hskip Hnew].
  destruct (decide (q ∉ D)) as [HqD|HqD].
  - destruct Hnew as [Hcount HP'].
    { unfold seenBy. intros [?|[?|[[_ ?]|[? _]]]]; done. }
    destruct (IH (pre ++ [q]) (resolve cfg E dt s P q)) as [Hc Hp]; [set_solver|done| |].
    { apply (processedIs_iff
               (fun p' q' => seenBy D s pre p' q' \/ (p' = s /\ q' = q) \/ (p' = q /\ q' = s)));
        [|done].
      intros p' q' _ _ _. unfold seenBy. set_solver. }
    rewrite <- app_assoc in Hp. split; [|done].
    rewrite Hc, Hcount. simpl. lia.
  - apply dec_stable in HqD.
    rewrite Hskip by (unfold seenBy; auto).
    destruct (IH (pre ++ [q]) P) as [Hc Hp]; [set_solver|done| |].
    { apply (processedIs_iff (seenBy D s pre)); [|done].
      intros p' q' _ _ _. unfold seenBy. set_solver. }
    rewrite <- app_assoc in Hp. by split.
Qed.

Lemma crowd_later_count (D rest : list ref) (s : ref) :
  NoDup (D ++ s :: rest) ->
  length (filter (fun q => q ∉ D) (filter (fun other => other ≠ s) (D ++ s :: rest)))
  = length rest.
Proof.
  intros Hnd'. apply list.NoDup_app in Hnd' as (_ & Hdisj & [HsR _]%list.NoDup_cons).
  rewrite filter_app, filter_cons, decide_False by (intros H; by apply H).
  rewrite (filter_all _ D) by (intros q Hq ->; apply (Hdisj s Hq); set_solver).
  rewrite (filter_all _ rest) by (by intros q Hq ->).
  rewrite filter_app, (filter_none _ D) by (intros q Hq Hn; by apply Hn).
  rewrite (filter_all _ rest); [done|].
  intros q Hq HqD. apply (Hdisj q HqD). set_solver.
Qed.

(** The outer loop over the sparks still to visit, the sparks of [D]
    being visited already. *)
Lemma crowd_outer (rest D : list ref) (P : Pass) :
  pop = D ++ rest ->
  processedIs hp0 pop (fun p q => p ∈ D \/ q ∈ D) P ->
  interactions (resolveAll cfg E dt (rebuildGrid hp0 g0 pop) rest P)
  = crowdCount (maxInteractionsPerFrame cfg) (length rest) (interactions P).
Proof.
  revert D P. induction rest as [|s rest IH]; intros D P Hpop HP; [done|].
  simpl. destruct (bool_decide _); [done|].
  assert (s ∈ pop) as Hs by (rewrite Hpop; set_solver).
  assert (NoDup (D ++ s :: rest)) as Hnd' by (by rewrite <- Hpop).
  assert (s ∉ D) as HsD.
  { apply list.NoDup_app in Hnd' as (_ & Hdisj & _). intros Hin.
    apply (Hdisj s Hin). set_solver. }
  rewrite (unmoved_neighbors hp0) by apply HP.
  rewrite crowd_neighbors by done.
  destruct (crowd_inner D s (filter (fun other => other ≠ s) pop) [] P Hs HsD)
    as [Hcount HP'].
  - intros q [? ?]%list_elem_of_filter. by split.
  - simpl. by apply list.NoDup_filter.
  - apply (processedIs_iff (fun p q => p ∈ D \/ q ∈ D)); [|done].
    intros p q _ _ _. unfold seenBy. set_solver.
  - rewrite (IH (D ++ [s])).
    + rewrite Hcount. f_equal. rewrite Hpop at 1. by rewrite crowd_later_count.
    + by rewrite <- app_assoc.
    + apply (processedIs_iff (seenBy D s ([] ++ filter (fun other => other ≠ s) pop)));
        [|done].
      intros p q Hp Hq Hne. unfold seenBy. simpl.
      rewrite !list_elem_of_filter, !elem_of_app, !list_elem_of_singleton.
      naive_solver.
Qed.

End Crowd.

(** The pairs resolved in a frame by a population in which every spark is
    in reach of every other and all share one cell. *)
Lemma crowd_interactions (cfg : Config) (E : Env) (dt : R) (st : SparkSystem.t) :
  NoDup (SparkSystem.sparks st) ->
  (forall p q, p ∈ SparkSystem.sparks st -> q ∈ SparkSystem.sparks st ->
     cellOf (SparkSystem.heap st) (SpatialGrid.cellSize (SparkSystem.grid st)) q
     = cellOf (SparkSystem.heap st) (SpatialGrid.cellSize (SparkSystem.grid st)) p) ->
  (forall p q, p ∈ SparkSystem.sparks st -> q ∈ SparkSystem.sparks st -> p ≠ q ->
     inRadius cfg (SparkSystem.heap st) p q = true) ->
  (forall p q, p ∈ SparkSystem.sparks st -> q ∈ SparkSystem.sparks st ->
     Spark.id (SparkSystem.heap st p) = Spark.id (SparkSystem.heap st q) -> p = q) ->
  SparkSystem.interactions (SparkSystem.interactionPass cfg E dt st)
  = crowdCount (maxInteractionsPerFrame cfg) (length (SparkSystem.sparks st)) 0.
Proof.
  intros Hnd Hcell Hnear Hids. unfold SparkSystem.interactionPass.
  apply (crowd_outer cfg E dt (SparkSystem.heap st) (SparkSystem.grid st)
           (SparkSystem.sparks st) Hnd Hcell Hnear Hids (SparkSystem.sparks st) []
           (SparkSystem.startPass st)); [done|].
  split; [reflexivity|]. intros p q _ _ _. simpl. set_solver.
Qed.

(** ** Fifty sparks in a row *)

Lemma Math_hypot_0_r_abs (u : R) : Math_hypot u 0 = Rabs u.
Proof.
  unfold Math_hypot. replace (u * u + 0 * 0) with (Rsqr u) by (unfold Rsqr; ring).
  apply sqrt_Rsqr_abs.
Qed.

Lemma row_cell (r : nat) :
  (r < 110)%nat -> cellOf rowHeap 110 r = (0%Z, 0%Z).
Proof.
  intros Hr. unfold cellOf, Math_floor. simpl.
  apply lt_INR in Hr. pose proof (pos_INR r) as H0.
  replace (INR 110) with 110 in Hr by (simpl; lra).
  f_equal; symmetry; apply Int_part_spec; simpl; lra.
Qed.

Lemma row_inRadius (p q : nat) :
  (p < 110)%nat -> (q < 110)%nat -> p ≠ q -> inRadius CONFIG rowHeap p q = true.
Proof.
  intros Hp Hq Hne. unfold inRadius, pairDist. simpl.
  replace (0 - 0) with 0 by lra. rewrite Math_hypot_0_r_abs.
  apply lt_INR in Hp, Hq. pose proof (pos_INR p). pose proof (pos_INR q).
  replace (INR 110) with 110 in Hp, Hq by (simpl; lra).
  assert (INR q - INR p <> 0) as Hd.
  { intros Heq. apply Hne. apply INR_eq. lra. }
  rewrite !bool_decide_eq_true_2; [done | |].
  - by apply Rabs_pos_lt.
  - apply Rabs_def1; lra.
Qed.

(** C2, at the configured cap of 1200.  With fifty sparks in reach of one
    another the pass resolves 1204 pairs: the cap is tested before a
    spark's neighbours are scanned, not between two neighbours, and the
    43rd spark visited starts at 1197 pairs and resolves 7 more. *)
Theorem interaction_cap_overshoot (E : Env) (dt : R) :
  SparkSystem.interactions (SparkSystem.interactionPass CONFIG E dt (rowSys 50)) = 1204%nat
  /\ maxInteractionsPerFrame CONFIG = 1200%nat.
Proof.
  split; [|done].
  rewrite crowd_interactions.
  - by vm_compute.
  - apply NoDup_seq.
  - intros p q Hp%elem_of_seq Hq%elem_of_seq. simpl in *.
    by rewrite !row_cell by lia.
  - intros p q Hp%elem_of_seq Hq%elem_of_seq Hne. simpl in *.
    apply row_inRadius; [lia | lia | done].
  - intros p q _ _. simpl. done.
Qed.

(** ** The initial population *)

Section Start.
Import SparkSystem.
Context (cfg : Config) (E : Env).

Lemma start_ind (Q : t -> Prop) (st : t) :
  (forall s, Q s -> Q (spawnSpark cfg E s)) -> Q st -> Q (start cfg E st).
Proof.
  intros Hspawn HQ. unfold start.
  induction (Z.to_nat _) as [|n IH]; simpl; [done | by apply Hspawn].
Qed.

Lemma start_uniqueIds (st : t) : uniqueIds st -> uniqueIds (start cfg E st).
Proof. intros Hwf. apply start_ind; [apply spawnSpark_uniqueIds | done]. Qed.

Lemma start_energyOk (st : t) :
  energyConfigOk cfg -> randomOk E ->
  (forall r, (r < heapNext st)%nat -> energyOk cfg (heap st r)) ->
  forall r, (r < heapNext (start cfg E st))%nat -> energyOk cfg (heap (start cfg E st) r).
Proof.
  intros Hcfg Hrnd Hok.
  apply (start_ind (fun s => forall r, (r < heapNext s)%nat -> energyOk cfg (heap s r)));
    [|done].
  intros s. by apply spawnSpark_energyOk.
Qed.

(** A system that has not spawned yet meets both invariants. *)
Lemma fresh_uniqueIds (st : t) : sparks st = [] -> uniqueIds st.
Proof. intros Hnil. unfold uniqueIds. rewrite Hnil. split; intros; set_solver. Qed.

Lemma fresh_energyOk (st : t) (r : ref) :
  heapNext st = 0%nat -> (r < heapNext st)%nat -> energyOk cfg (heap st r).
Proof. intros ->. lia. Qed.

End Start.

(** * Further properties of the code *)

(** ** Closeness weight *)

Lemma smoothstep_poly_mono (u v : R) :
  0 <= u -> u <= v -> v <= 1 -> u * u * (3 - 2 * u) <= v * v * (3 - 2 * v).
Proof.
  intros H0 Huv H1.
  assert (0 <= (v - u) * (3 * (u + v) - 2 * (u * u + u * v + v * v))) as H.
  { apply Rmult_le_pos; [lra|]. nra. }
  nra.
Qed.

Lemma clamp_mono (u v lo hi : R) : u <= v -> clamp u lo hi <= clamp v lo hi.
Proof.
  intros Huv. unfold clamp.
  apply Rmax_lub; [apply Rmax_l|].
  etrans; [|apply Rmax_r]. apply Rmin_glb; [apply Rmin_l|].
  etrans; [apply Rmin_r | done].
Qed.

(** X1.  The target weight of a pair is 1 at distance 0, 0 at the
    interaction radius, always between 0 and 1, and never larger for a
    pair that is further apart. *)
Theorem closeness_weight (radius : R) :
  0 < radius ->
  smoothstep radius 0 0 = 1
  /\ smoothstep radius 0 radius = 0
  /\ (forall d, 0 <= smoothstep radius 0 d <= 1)
  /\ (forall d1 d2, d1 <= d2 -> smoothstep radius 0 d2 <= smoothstep radius 0 d1).
Proof.
  intros Hr. split; [|split; [|split]].
  - unfold smoothstep. replace ((0 - radius) / (0 - radius)) with 1 by (field; lra).
    rewrite clamp_id by lra. ring.
  - unfold smoothstep. replace ((radius - radius) / (0 - radius)) with 0 by (field; lra).
    rewrite clamp_id by lra. ring.
  - intros d. apply smoothstep_range.
  - intros d1 d2 Hd. unfold smoothstep. cbv zeta.
    assert ((d2 - radius) / (0 - radius) <= (d1 - radius) / (0 - radius)) as Hq.
    { unfold Rdiv. replace (/ (0 - radius)) with (- / radius) by (field; lra).
      assert (0 < / radius) by (by apply Rinv_0_lt_compat). nra. }
    pose proof (clamp_mono _ _ 0 1 Hq) as Hc.
    pose proof (clamp_range ((d2 - radius) / (0 - radius)) 0 1 ltac:(lra)) as H2.
    pose proof (clamp_range ((d1 - radius) / (0 - radius)) 0 1 ltac:(lra)) as H1.
    apply smoothstep_poly_mono; lra.
Qed.

Lemma closeness_weight_witness :
  smoothstep 110 0 0 = 1 /\ smoothstep 110 0 110 = 0.
Proof.
  destruct (closeness_weight 110) as (H0 & H1 & _); [lra|]. by split.
Defined.

(** ** Colour mixing *)

Lemma Math_pow_unit_closed (x y : R) : 0 <= x <= 1 -> 0 < y -> 0 <= Math_pow x y <= 1.
Proof.
  intros [[Hpos|<-] H1] Hy.
  - pose proof (Math_pow_unit x y ltac:(lra) ltac:(lra)). lra.
  - rewrite Math_pow_0 by lra. lra.
Qed.

Lemma Math_floor_range (v : R) (lo hi : Z) :
  IZR lo <= v -> v < IZR hi + 1 -> (lo <= Math_floor v <= hi)%Z.
Proof.
  intros Hlo Hhi. unfold Math_floor.
  pose proof (base_Int_part v) as [H1 H2].
  split.
  - apply Z.lt_succ_r. apply lt_IZR. rewrite succ_IZR. lra.
  - apply Z.lt_succ_r. apply lt_IZR. rewrite succ_IZR. lra.
Qed.

Lemma toSRGB_channel (v : R) : channelOk (toSRGB v) /\ exists n : Z, toSRGB v = IZR n.
Proof.
  unfold toSRGB, Math_round.
  pose proof (clamp_range v 0 1 ltac:(lra)) as Hc.
  assert (0 < 1 / GAMMA) as HG by (unfold GAMMA; lra).
  pose proof (Math_pow_unit_closed (clamp v 0 1) (1 / GAMMA) Hc HG) as Hp.
  set (q := Math_pow _ _) in *. clearbody q.
  destruct (Math_floor_range (q * 255 + / 2) 0 255) as [Hlo Hhi]; [lra | lra |].
  split; [|exists (Math_floor (q * 255 + / 2)); reflexivity].
  unfold channelOk. split; apply IZR_le; lia.
Qed.

(** The channels of a mix come out of [toSRGB]. *)
Lemma mix_colorOk (c1 c2 : Color) (t : R) : colorOk (mixColorsLinear c1 c2 t).
Proof.
  destruct c1 as [[r1 g1] b1], c2 as [[r2 g2] b2].
  unfold mixColorsLinear, colorOk. simpl.
  split; [|split]; apply toSRGB_channel.
Qed.

(** X2.  Whatever the mixing ratio, the mix of two colours with channels
    in [0, 255] has integer channels in [0, 255]. *)
Theorem mixColorsLinear_in_range (c1 c2 : Color) (t : R) :
  colorOk c1 -> colorOk c2 ->
  colorOk (mixColorsLinear c1 c2 t) /\ integral (mixColorsLinear c1 c2 t).
Proof.
  intros _ _. destruct c1 as [[r1 g1] b1], c2 as [[r2 g2] b2].
  unfold mixColorsLinear.
  set (r := lerp _ _ t * _). set (g := lerp _ _ t * _). set (b := lerp _ _ t * _).
  destruct (toSRGB_channel r) as [Hr [nr Hnr]], (toSRGB_channel g) as [Hg [ng Hng]],
           (toSRGB_channel b) as [Hb [nb Hnb]].
  split; [unfold colorOk; simpl; auto|].
  exists nr, ng, nb. by rewrite Hnr, Hng, Hnb.
Qed.

Lemma mixColorsLinear_in_range_witness :
  colorOk (mixColorsLinear (235, 170, 60) (210, 100, 60) (1 / 5)).
Proof.
  apply (mixColorsLinear_in_range (235, 170, 60) (210, 100, 60) (1 / 5));
    unfold colorOk, channelOk; simpl; lra.
Defined.

Lemma lerp_swap (u v t : R) : lerp u v t = lerp v u (1 - t).
Proof. unfold lerp. ring. Qed.

Lemma darkening_swap (t : R) : darkening t = darkening (1 - t).
Proof. unfold darkening. ring. Qed.

(** X3.  Mixing is symmetric: for two colours with channels in [0, 255],
    the mix of [c1] and [c2] at ratio [t] is the mix of [c2] and [c1] at
    ratio [1 - t]. *)
Theorem mixColorsLinear_swap (c1 c2 : Color) (t : R) :
  colorOk c1 -> colorOk c2 ->
  mixColorsLinear c1 c2 t = mixColorsLinear c2 c1 (1 - t).
Proof.
  intros _ _. destruct c1 as [[r1 g1] b1], c2 as [[r2 g2] b2].
  unfold mixColorsLinear.
  by rewrite (lerp_swap (toLinear r1)), (lerp_swap (toLinear g1)),
    (lerp_swap (toLinear b1)), (darkening_swap t).
Qed.

Lemma mixColorsLinear_swap_witness :
  mixColorsLinear (235, 170, 60) (210, 100, 60) (1 / 5)
  = mixColorsLinear (210, 100, 60) (235, 170, 60) (1 - 1 / 5).
Proof.
  apply (mixColorsLinear_swap (235, 170, 60) (210, 100, 60) (1 / 5));
    unfold colorOk, channelOk; simpl; lra.
Defined.

(** ** The polarity network *)



Lemma random_centered (E : Env) (i : nat) :
  randomOk E -> Rabs (random E i * 2 - 1) <= 1 /\ Rabs (random E i - 1 / 2) <= 1 / 2.
Proof. intros H. pose proof (H i). split; apply Rabs_le; lra. Qed.

(** X5.  A network built by the constructor has 4 rows of 6 input
    weights, 6 hidden biases and 6 output weights, so that the forward pass
    reads no missing entry; the weights are bounded by their scale and the
    biases by 0.05. *)
Theorem constructed_network_shape (E : Env) (k : nat) :
  randomOk E -> weightsOk (TinyNN.new E k).
Proof.
  intros Hrnd. unfold weightsOk, TinyNN.new. cbv zeta.
  cbn [TinyNN.w1 TinyNN.b1 TinyNN.w2 TinyNN.b2].
  assert (forall sc v, 0 <= sc -> Rabs v <= 1 -> Rabs (v * sc) <= sc) as Hsc.
  { intros sc v Hs Hv. rewrite Rabs_mult, (Rabs_right sc) by lra.
    pose proof (Rabs_pos v). nra. }
  assert (forall v, Rabs v <= 1 / 2 -> Rabs (v * (1 / 10)) <= 5 / 100) as Hb.
  { intros v Hv. rewrite Rabs_mult, (Rabs_right (1 / 10)) by lra. lra. }
  split_and!.
  - by rewrite length_map, length_seq.
  - apply List.Forall_map, Forall_forall. intros i _.
    split; [by rewrite length_map, length_seq|].
    apply List.Forall_map, Forall_forall. intros j _.
    apply Hsc; [apply sqrt_pos | by apply random_centered].
  - by rewrite length_map, length_seq.
  - apply List.Forall_map, Forall_forall. intros j _.
    apply Hb. by apply random_centered.
  - by rewrite length_map, length_seq.
  - apply List.Forall_map, Forall_forall. intros j _.
    apply Hsc; [apply sqrt_pos | by apply random_centered].
  - apply Hb. by apply random_centered.
Qed.

Lemma constructed_network_shape_witness : weightsOk (TinyNN.new demoEnv 0).
Proof. apply (constructed_network_shape demoEnv 0). apply demoEnv_randomOk. Defined.

(** ** The neighbour query *)

Lemma Math_floor_near (u v : R) :
  Rabs (v - u) <= 1 ->
  exists d : Z, (-1 <= d <= 1)%Z /\ Math_floor v = (Math_floor u + d)%Z.
Proof.
  intros Hd. apply Rabs_le_between in Hd.
  pose proof (base_Int_part u) as [Hu1 Hu2]. fold (Math_floor u) in Hu1, Hu2.
  destruct (Math_floor_range v (Math_floor u - 1) (Math_floor u + 1)) as [Hlo Hhi].
  - rewrite minus_IZR. lra.
  - rewrite plus_IZR. lra.
  - exists (Math_floor v - Math_floor u)%Z. lia.
Qed.

Lemma offsets_elem (d : Z * Z) :
  d ∈ SpatialGrid.offsets <-> (-1 <= d.1 <= 1)%Z /\ (-1 <= d.2 <= 1)%Z.
Proof.
  assert (SpatialGrid.offsets
          = [(-1, -1); (-1, 0); (-1, 1); (0, -1); (0, 0); (0, 1); (1, -1); (1, 0); (1, 1)]%Z)
    as -> by done.
  destruct d as [a b]. simpl. rewrite !elem_of_cons, elem_of_nil.
  split.
  - intros H. repeat destruct H as [H|H]; try done; injection H as -> ->; lia.
  - intros [Ha Hb].
    assert (a = (-1)%Z \/ a = 0%Z \/ a = 1%Z) as [->|[->| ->]] by lia;
      assert (b = (-1)%Z \/ b = 0%Z \/ b = 1%Z) as [->|[->| ->]] by lia; tauto.
Qed.

Lemma cells_near (hp : Heap) (size : R) (p q : ref) :
  0 < size ->
  Rabs (Spark.x (hp q) - Spark.x (hp p)) <= size ->
  Rabs (Spark.y (hp q) - Spark.y (hp p)) <= size ->
  exists d, d ∈ SpatialGrid.offsets
            /\ cellOf hp size q = shiftCell (cellOf hp size p) d.
Proof.
  intros Hs Hx Hy.
  assert (forall u v, Rabs (v - u) <= size -> Rabs (v / size - u / size) <= 1) as Hdiv.
  { intros u v Huv. replace (v / size - u / size) with ((v - u) * / size) by (field; lra).
    rewrite Rabs_mult, (Rabs_right (/ size)).
    - apply (Rmult_le_reg_r size); [done|].
      rewrite Rmult_assoc, Rinv_l by lra. lra.
    - left. by apply Rinv_0_lt_compat. }
  destruct (Math_floor_near _ _ (Hdiv _ _ Hx)) as (dc & Hdc & Hc).
  destruct (Math_floor_near _ _ (Hdiv _ _ Hy)) as (dr & Hdr & Hr).
  exists (dc, dr). split; [by apply offsets_elem|].
  unfold cellOf, shiftCell. simpl. by rewrite Hc, Hr.
Qed.

Lemma pairDist_self (hp : Heap) (p : ref) : pairDist hp p p = 0.
Proof.
  unfold pairDist. rewrite !Rminus_diag. unfold Math_hypot.
  replace (0 * 0 + 0 * 0) with 0 by ring. apply sqrt_0.
Qed.

(** X6.  The neighbour query misses no pair: in a grid whose cells are as
    large as the interaction radius, every spark of the population within
    the radius of [p] is among the neighbours of [p]. *)
Theorem in_radius_pairs_are_neighbors (cfg : Config) (hp : Heap) (g : SpatialGrid.t)
    (l : list ref) (p q : ref) :
  SpatialGrid.cellSize g = interactionRadius cfg ->
  p ∈ l -> q ∈ l ->
  inRadius cfg hp p q = true ->
  q ∈ SpatialGrid.getNeighbors hp (SparkSystem.rebuildGrid hp g l) p.
Proof.
  intros Hsize Hp Hq Hnear. unfold inRadius in Hnear.
  apply andb_true_iff in Hnear as [Hlt%bool_decide_eq_true Hgt%bool_decide_eq_true].
  apply neighbors_elem. split; [|split; [done|]].
  - intros ->. rewrite pairDist_self in Hgt. lra.
  - rewrite Hsize. apply cells_near.
    + lra.
    + etrans; [apply Math_hypot_abs_l|]. unfold pairDist in Hlt. left. exact Hlt.
    + etrans; [apply Math_hypot_abs_r|]. unfold pairDist in Hlt. left. exact Hlt.
Qed.

Lemma in_radius_pairs_are_neighbors_witness :
  1%nat ∈ SpatialGrid.getNeighbors (demoHeap (1 / 2))
            (SparkSystem.rebuildGrid (demoHeap (1 / 2)) (SpatialGrid.new 110 1920 1080)
                                     [0%nat; 1%nat]) 0.
Proof.
  apply (in_radius_pairs_are_neighbors CONFIG (demoHeap (1 / 2))
           (SpatialGrid.new 110 1920 1080) [0%nat; 1%nat] 0 1).
  - reflexivity.
  - set_solver.
  - set_solver.
  - apply demo_inRadius.
Defined.



(** X8.  Rebuilding the grid forgets what it held: whatever the grid was,
    each of its cells then holds the sparks of the population whose key is
    that of the cell, once per insertion and in population order; the cell
    size is kept, and every spark of the population is found in the cell of
    its key. *)
Theorem rebuilt_grid_cells (hp : Heap) (g : SpatialGrid.t) (l : list ref) :
  (forall k,
     default [] (SpatialGrid.cells (SparkSystem.rebuildGrid hp g l) !! k)
     = filter (fun r => SpatialGrid.getKey g (Spark.x (hp r)) (Spark.y (hp r)) = k) l)
  /\ SpatialGrid.cellSize (SparkSystem.rebuildGrid hp g l) = SpatialGrid.cellSize g
  /\ (forall r, r ∈ l ->
        r ∈ default [] (SpatialGrid.cells (SparkSystem.rebuildGrid hp g l)
                        !! SpatialGrid.getKey g (Spark.x (hp r)) (Spark.y (hp r)))).
Proof.
  split; [intros k; apply rebuildGrid_cells|]. split; [apply rebuildGrid_cellSize|].
  intros r Hr.
  change (SpatialGrid.getKey g (Spark.x (hp r)) (Spark.y (hp r)))
    with (cellOf hp (SpatialGrid.cellSize g) r).
  rewrite rebuildGrid_cells. by apply list_elem_of_filter.
Qed.

(** ** Sparks *)





Lemma Math_hypot_scale (u v c : R) :
  0 <= c -> Math_hypot (u * c) (v * c) = c * Math_hypot u v.
Proof.
  intros Hc. unfold Math_hypot.
  replace (u * c * (u * c) + v * c * (v * c)) with (c * c * (u * u + v * v)) by ring.
  rewrite sqrt_mult_alt by nra. by rewrite sqrt_square.
Qed.

(** X10.  With a positive damping factor, the speed of a spark after an
    update is at most the configured top speed. *)
Theorem update_speed_clamped (cfg : Config) (s : Spark.t) (dt time : R) :
  0 < damping cfg -> 0 <= maxSpeed cfg ->
  Math_hypot (Spark.vx (Spark.update cfg s dt time).1)
             (Spark.vy (Spark.update cfg s dt time).1) <= maxSpeed cfg.
Proof.
  intros _ Hm. unfold Spark.update. cbv zeta. cbn [fst Spark.vx Spark.vy].
  set (vx2 := (Spark.vx s + _) * _). set (vy2 := (Spark.vy s + _) * _).
  destruct (decide (Math_hypot vx2 vy2 > maxSpeed cfg)) as [Hgt|Hle]; [|lra].
  assert (0 < Math_hypot vx2 vy2) as Hpos by lra.
  replace (vx2 / Math_hypot vx2 vy2 * maxSpeed cfg)
    with (vx2 * (maxSpeed cfg / Math_hypot vx2 vy2)) by (field; lra).
  replace (vy2 / Math_hypot vx2 vy2 * maxSpeed cfg)
    with (vy2 * (maxSpeed cfg / Math_hypot vx2 vy2)) by (field; lra).
  rewrite Math_hypot_scale.
  - right. field. lra.
  - apply Rmult_le_pos; [done|]. left. by apply Rinv_0_lt_compat.
Qed.

Lemma update_speed_clamped_witness :
  Math_hypot (Spark.vx (Spark.update CONFIG edgeSpark (1 / 60) 1000).1)
             (Spark.vy (Spark.update CONFIG edgeSpark (1 / 60) 1000).1) <= 20.
Proof. apply (update_speed_clamped CONFIG edgeSpark (1 / 60) 1000); simpl; lra. Defined.

Lemma update_fade (cfg : Config) (s : Spark.t) (dt time : R) :
  Spark.fade (Spark.update cfg s dt time).1
  = Some (clamp ((time - Spark.birth s) / 500) 0 1
          * (if decide ((time - Spark.birth s) / Spark.lifetime s > 75 / 100)
             then 1 - ((time - Spark.birth s) / Spark.lifetime s - 75 / 100) / (25 / 100)
             else 1)).
Proof. done. Qed.

(** X11.  An update sets the fade of a spark: it is between 0 and 1 for a
    spark reported alive, 0 for one whose age is not positive, 1 between
    500 ms of age and three quarters of the lifetime, and at most 0 for a
    spark reported dead. *)
Theorem update_fade_range (cfg : Config) (s : Spark.t) (dt time : R) :
  0 < Spark.lifetime s ->
  exists f, Spark.fade (Spark.update cfg s dt time).1 = Some f
    /\ ((Spark.update cfg s dt time).2 = true -> 0 <= f <= 1)
    /\ (time - Spark.birth s <= 0 -> f = 0)
    /\ (500 <= time - Spark.birth s ->
        time - Spark.birth s <= 75 / 100 * Spark.lifetime s -> f = 1)
    /\ ((Spark.update cfg s dt time).2 = false -> f <= 0).
Proof.
  intros Hlife. eexists. split; [apply update_fade|].
  rewrite update_alive.
  set (age := time - Spark.birth s). set (life := Spark.lifetime s) in *.
  pose proof (clamp_range (age / 500) 0 1 ltac:(lra)) as Hin.
  assert (age / life * life = age) as Hratio by (field; lra).
  set (lr := age / life) in *. clearbody lr.
  split_and!.
  - intros Halive%bool_decide_eq_true.
    assert (lr < 1) by (clear - Hratio Halive Hlife; nra).
    set (fi := clamp _ 0 1) in *. clearbody fi.
    destruct (decide (lr > 75 / 100)) as [Hgt|Hle]; [|lra].
    clear - Hin H Hgt. split; nra.
  - intros Hage. unfold clamp. rewrite Rmin_right by lra.
    rewrite Rmax_left by lra. ring.
  - intros H500 H75.
    unfold clamp. rewrite Rmin_left by lra. rewrite Rmax_right by lra.
    destruct (decide (lr > 75 / 100)) as [Hgt|Hle]; [|ring].
    exfalso. clear - Hratio H75 Hgt Hlife. nra.
  - intros Hdead%bool_decide_eq_false.
    assert (1 <= lr) by (clear - Hratio Hdead Hlife; nra).
    set (fi := clamp _ 0 1) in *. clearbody fi.
    destruct (decide (lr > 75 / 100)) as [Hgt|Hle]; [|lra].
    clear - Hin H. nra.
Qed.

Lemma update_fade_range_witness :
  exists f, Spark.fade (Spark.update CONFIG edgeSpark (1 / 60) 1000).1 = Some f.
Proof.
  destruct (update_fade_range CONFIG edgeSpark (1 / 60) 1000) as (f & Hf & _).
  - simpl. lra.
  - by exists f.
Defined.

(** X12.  For a spark with energy and fade between 0 and 1 and a
    non-negative base radius, the drawn alpha is between 0 and the fade, and
    the drawn radius between 0.4 and 2 times the base radius times the
    fade; before the first update, when no fade is set, neither is
    defined. *)
Theorem visual_weights_range (s : Spark.t) (f : R) :
  Spark.fade s = Some f -> 0 <= f <= 1 ->
  0 <= Spark.energy s <= 1 -> 0 <= Spark.baseRadius s ->
  (exists al, Spark.getAlpha s = Some al /\ 0 <= al <= f)
  /\ (exists rad, Spark.getRadius s = Some rad
                  /\ 4 / 10 * Spark.baseRadius s * f <= rad <= 2 * Spark.baseRadius s * f)
  /\ (forall s0, Spark.fade s0 = None ->
                 Spark.getAlpha s0 = None /\ Spark.getRadius s0 = None).
Proof.
  intros Hf [Hf0 Hf1] [He0 He1] Hb. split_and!.
  - unfold Spark.getAlpha. rewrite Hf. simpl. eexists. split; [done|].
    pose proof (clamp_range (3 / 10 + 7 / 10 * Spark.energy s) 0 1 ltac:(lra)) as Hc.
    set (c := clamp _ 0 1) in *. clearbody c. split; nra.
  - unfold Spark.getRadius. rewrite Hf. simpl. eexists. split; [done|].
    set (e := Spark.energy s) in *. set (b := Spark.baseRadius s) in *.
    assert (0 <= e * e <= 1) as He2 by nra.
    assert (0 <= b * f) as Hbf by nra.
    split.
    + replace (b * (4 / 10 + 16 / 10 * e * e) * f)
        with (b * f * (4 / 10 + 16 / 10 * (e * e))) by ring.
      replace (4 / 10 * b * f) with (b * f * (4 / 10)) by ring.
      apply Rmult_le_compat_l; [done | lra].
    + replace (b * (4 / 10 + 16 / 10 * e * e) * f)
        with (b * f * (4 / 10 + 16 / 10 * (e * e))) by ring.
      replace (2 * b * f) with (b * f * 2) by ring.
      apply Rmult_le_compat_l; [done | lra].
  - intros s0 H0. unfold Spark.getAlpha, Spark.getRadius. by rewrite H0.
Qed.

Lemma visual_weights_range_witness :
  exists al, Spark.getAlpha (Spark.update CONFIG (demoSpark 0 100 (8 / 10) (8 / 10) 6000)
                                          (1 / 60) 1000).1 = Some al.
Proof.
  destruct (visual_weights_range
              (Spark.update CONFIG (demoSpark 0 100 (8 / 10) (8 / 10) 6000) (1 / 60) 1000).1
              1) as [(al & Hal & _) _].
  - rewrite update_fade. simpl. f_equal.
    replace ((1000 - 0) / 500) with 2 by field.
    unfold clamp. rewrite Rmin_left by lra. rewrite Rmax_right by lra.
    destruct (decide _) as [Hgt|_]; [lra | ring].
  - lra.
  - pose proof (update_energyOk CONFIG (demoSpark 0 100 (8 / 10) (8 / 10) 6000)
                  (1 / 60) 1000 CONFIG_energyOk ltac:(lra)) as Hok.
    unfold keepsEnergyOk, energyOk in Hok. simpl in Hok.
    assert (15 / 100 * (1 / 2) <= 8 / 10 <= 1) as H by lra.
    specialize (Hok H). simpl. lra.
  - simpl. lra.
  - by exists al.
Defined.

(** ** Flow particles *)

Lemma flow_speed_range (cfg : Config) (dist : R) :
  0 <= flowParticleSpeed cfg ->
  0 <= flowParticleSpeed cfg / Rmax dist 1 <= flowParticleSpeed cfg.
Proof.
  intros Hsp. pose proof (Rmax_r dist 1) as Hm.
  set (m := Rmax dist 1) in *. clearbody m.
  assert (0 < / m <= 1) as [Hi0 Hi1].
  { split; [apply Rinv_0_lt_compat; lra|].
    apply (Rmult_le_reg_r m); [lra|]. rewrite Rinv_l by lra. lra. }
  unfold Rdiv. split; nra.
Qed.

Lemma flow_update_bounds (cfg : Config) (hp : Heap) (p : FlowParticle.t) (dt : R) :
  0 <= dt -> 0 <= flowParticleSpeed cfg ->
  FlowParticle.t_ p <= FlowParticle.t_ (FlowParticle.update cfg hp p dt).1
  /\ FlowParticle.t_ (FlowParticle.update cfg hp p dt).1
     <= FlowParticle.t_ p + flowParticleSpeed cfg * dt.
Proof.
  intros Hdt Hsp. unfold FlowParticle.update. cbv zeta. cbn [fst FlowParticle.t_].
  set (dist := Math_hypot _ _).
  pose proof (flow_speed_range cfg dist Hsp) as Hs.
  set (sp := flowParticleSpeed cfg / Rmax dist 1) in *. clearbody sp.
  split; nra.
Qed.

(** X13.  With a non-negative elapsed time, an update of a flow particle
    never moves it back and advances it by at most [flowParticleSpeed * dt];
    it reports the particle alive exactly when the new progress is below 1,
    and leaves it with alpha [0.8 * (1 - t)] between the same two sparks. *)
Theorem flow_update_progress (cfg : Config) (hp : Heap) (p : FlowParticle.t) (dt : R) :
  0 <= dt -> 0 <= flowParticleSpeed cfg ->
  let p' := (FlowParticle.update cfg hp p dt).1 in
  FlowParticle.t_ p <= FlowParticle.t_ p'
                    <= FlowParticle.t_ p + flowParticleSpeed cfg * dt
  /\ ((FlowParticle.update cfg hp p dt).2 = true <-> FlowParticle.t_ p' < 1)
  /\ FlowParticle.alpha p' = 8 / 10 * (1 - FlowParticle.t_ p')
  /\ FlowParticle.giver p' = FlowParticle.giver p
  /\ FlowParticle.receiver p' = FlowParticle.receiver p.
Proof.
  intros Hdt Hsp p'. unfold p'.
  split; [by apply flow_update_bounds|].
  split; [apply bool_decide_eq_true | done].
Qed.

Lemma flow_update_progress_witness :
  FlowParticle.t_ (FlowParticle.new 0 1 (235, 170, 60) (1 / 2))
  <= FlowParticle.t_ (FlowParticle.update CONFIG (demoHeap (1 / 2))
                        (FlowParticle.new 0 1 (235, 170, 60) (1 / 2)) (1 / 60)).1.
Proof.
  apply (flow_update_progress CONFIG (demoHeap (1 / 2))
           (FlowParticle.new 0 1 (235, 170, 60) (1 / 2)) (1 / 60)).
  - lra.
  - simpl. lra.
Defined.

Lemma lerp_minmax (u v t : R) : 0 <= t <= 1 -> Rmin u v <= lerp u v t <= Rmax u v.
Proof.
  intros [H0 H1]. unfold lerp.
  destruct (Rle_dec u v).
  - rewrite Rmin_left, Rmax_right by done. split; nra.
  - assert (v < u) by lra. rewrite Rmin_right, Rmax_left by lra. split; nra.
Qed.

(** X14.  A flow particle whose progress is between 0 and 1 is drawn on
    the segment from its giver to its receiver: each coordinate lies
    between theirs, at the giver for progress 0. *)
Theorem flow_position_on_segment (hp : Heap) (p : FlowParticle.t) :
  0 <= FlowParticle.t_ p <= 1 ->
  let g := hp (FlowParticle.giver p) in
  let r := hp (FlowParticle.receiver p) in
  Rmin (Spark.x g) (Spark.x r) <= (FlowParticle.getPosition hp p).1
                               <= Rmax (Spark.x g) (Spark.x r)
  /\ Rmin (Spark.y g) (Spark.y r) <= (FlowParticle.getPosition hp p).2
                                  <= Rmax (Spark.y g) (Spark.y r)
  /\ (FlowParticle.t_ p = 0 ->
      FlowParticle.getPosition hp p = (Spark.x g, Spark.y g)).
Proof.
  intros Ht g r. unfold FlowParticle.getPosition. simpl.
  split; [by apply lerp_minmax|]. split; [by apply lerp_minmax|].
  intros ->. by rewrite !lerp_0.
Qed.

Lemma flow_position_on_segment_witness :
  FlowParticle.getPosition (demoHeap (1 / 2)) (FlowParticle.new 0 1 (235, 170, 60) (1 / 2))
  = (100, 0).
Proof.
  apply (flow_position_on_segment (demoHeap (1 / 2))
           (FlowParticle.new 0 1 (235, 170, 60) (1 / 2))).
  - simpl. lra.
  - reflexivity.
Defined.

(** ** Induction on the interaction pass *)

Section PassInduction.
Import SparkSystem.
Context (cfg : Config) (E : Env) (dt : R).

Lemma resolve_fold_ind (Q : Pass -> Prop) (spark : ref) (others : list ref) (P : Pass) :
  (forall P' other, other ∈ others -> Q P' -> Q (resolve cfg E dt spark P' other)) ->
  Q P -> Q (foldl (resolve cfg E dt spark) P others).
Proof.
  revert P. induction others as [|other others IH]; intros P Hstep HQ; [done|].
  rewrite foldl_step. apply IH.
  - intros P' o Ho. apply Hstep. set_solver.
  - apply Hstep; [set_solver | done].
Qed.

(** A property of the loop state that every resolution of a pair of
    distinct sparks of the population keeps is kept by the two loops. *)
Lemma resolveAll_ind (Q : Pass -> Prop) (hp : Heap) (g : SpatialGrid.t)
    (pop l : list ref) (P : Pass) :
  l ⊆ pop ->
  (forall spark P' other,
     spark ∈ pop -> other ∈ pop -> other ≠ spark ->
     Q P' -> Q (resolve cfg E dt spark P' other)) ->
  Q P -> Q (resolveAll cfg E dt (rebuildGrid hp g pop) l P).
Proof.
  intros Hl Hstep. revert P.
  induction l as [|spark l IH]; intros P HQ; [done|].
  simpl. destruct (bool_decide _); [done|].
  apply IH; [set_solver|].
  apply resolve_fold_ind; [|done].
  intros P' other [Ho Hne]%neighbors_in_population HQ'.
  apply Hstep; [set_solver | done | done | done].
Qed.

Lemma interactionPass_ind (Q : Pass -> Prop) (st : t) :
  (forall spark P' other,
     spark ∈ sparks st -> other ∈ sparks st -> other ≠ spark ->
     Q P' -> Q (resolve cfg E dt spark P' other)) ->
  Q (startPass st) -> Q (interactionPass cfg E dt st).
Proof.
  intros Hstep HQ. unfold interactionPass.
  by apply (resolveAll_ind Q (heap st) (grid st) (sparks st) (sparks st)).
Qed.

(** The three ways a resolution can go. *)
Lemma resolve_cases (spark : ref) (P : Pass) (other : ref) :
  resolve cfg E dt spark P other = P
  \/ ((getConnectionKey (p_heap P spark) (p_heap P other) ∉ processed P)
      /\ inRadius cfg (p_heap P) spark other = false)
  \/ ((getConnectionKey (p_heap P spark) (p_heap P other) ∉ processed P)
      /\ inRadius cfg (p_heap P) spark other = true).
Proof.
  destruct (decide (getConnectionKey (p_heap P spark) (p_heap P other) ∈ processed P)).
  - left. by apply resolve_processed.
  - right. destruct (inRadius cfg (p_heap P) spark other); [right | left]; done.
Qed.

End PassInduction.

(** X15.  The counter of the pass is the number of pair keys it has marked
    active, each of which is also marked processed: no pair key is resolved
    twice in a frame. *)
Theorem each_key_resolved_once (cfg : Config) (E : Env) (dt : R) (st : SparkSystem.t) :
  let P := SparkSystem.interactionPass cfg E dt st in
  SparkSystem.interactions P = size (SparkSystem.activeConnections P)
  /\ SparkSystem.activeConnections P ⊆ SparkSystem.processed P.
Proof.
  apply (interactionPass_ind cfg E dt
           (fun P => SparkSystem.interactions P = size (SparkSystem.activeConnections P)
                     /\ SparkSystem.activeConnections P ⊆ SparkSystem.processed P)).
  - intros spark P other _ _ _ [Hn Hsub].
    destruct (resolve_cases cfg E dt spark P other) as [->|[[Hf Hfar]|[Hf Hnear]]].
    + done.
    + rewrite resolve_far by done. simpl. split; [done | set_solver].
    + destruct (resolve_counts cfg E dt spark P other Hf Hnear) as (-> & -> & ->).
      split; [|set_solver].
      rewrite size_union by set_solver. rewrite size_singleton. lia.
  - split; [symmetry; apply size_empty | done].
Qed.

(** ** The flow particles of the system *)

Section FlowList.
Import SparkSystem.
Context (cfg : Config) (E : Env).

(** A resolution leaves the flow particles as they are, or, when there
    are fewer than the cap, appends one new particle. *)
Lemma resolve_flow_step (dt : R) (spark : ref) (P : Pass) (other : ref) :
  p_flowParticles (resolve cfg E dt spark P other) = p_flowParticles P
  \/ ((length (p_flowParticles P) < maxFlowParticles cfg)%nat
      /\ exists g r c v,
           p_flowParticles (resolve cfg E dt spark P other)
           = p_flowParticles P ++ [FlowParticle.new g r c v]).
Proof.
  unfold resolve. cbv zeta.
  destruct (decide _); [by left|].
  destruct (bool_decide (_ < interactionRadius cfg) && _); [|by left].
  destruct (decide (_ > 1 / 10)); [|by left].
  destruct (bool_decide (_ > 2 / 10) && _) eqn:Hb; [|by left].
  destruct (decide (random E _ < _)); [|by left].
  right. apply andb_true_iff in Hb as [_ Hlen%bool_decide_eq_true].
  split; [done|]. by do 4 eexists.
Qed.

Lemma length_omap_le {A B : Type} (f : A -> option B) (l : list A) :
  (length (omap f l) <= length l)%nat.
Proof.
  induction l as [|v l IH]; [done|]. cbn. destruct (f v); cbn in *; lia.
Qed.

Lemma culled_flowParticles (st : t) (time : R) :
  flowParticles (culled cfg E st time) = flowParticles st.
Proof.
  rewrite culled_eq. cbv zeta. simpl.
  by destruct (spawned_frame cfg E st time) as (_ & _ & _ & -> & _).
Qed.

Lemma update_flowParticles (st : t) (time : R) :
  flowParticles (update cfg E st time)
  = advanceFlow cfg
      (p_heap (interactionPass cfg E (frameDt st time) (culled cfg E st time)))
      (frameDt st time)
      (p_flowParticles (interactionPass cfg E (frameDt st time) (culled cfg E st time))).
Proof. done. Qed.

Lemma update_flow_length (st : t) (time : R) :
  (length (flowParticles st) <= maxFlowParticles cfg)%nat ->
  (length (flowParticles (update cfg E st time)) <= maxFlowParticles cfg)%nat.
Proof.
  intros Hlen. rewrite update_flowParticles.
  etrans; [apply length_omap_le|].
  apply (interactionPass_ind cfg E (frameDt st time)
           (fun P => (length (p_flowParticles P) <= maxFlowParticles cfg)%nat)).
  - intros spark P other _ _ _ HP.
    destruct (resolve_flow_step (frameDt st time) spark P other)
      as [->|[Hlt (g & r & c & v & ->)]]; [done|].
    rewrite length_app. simpl. lia.
  - simpl. by rewrite culled_flowParticles.
Qed.

Lemma update_flow_kept (st : t) (time : R) :
  lastTime st <= time -> 0 <= flowParticleSpeed cfg ->
  Forall (fun p => 0 <= FlowParticle.t_ p) (flowParticles st) ->
  Forall flowOk (flowParticles (update cfg E st time)).
Proof.
  intros Htime Hsp Hfl. rewrite update_flowParticles.
  pose proof (frameDt_nonneg st time Htime) as Hdt.
  assert (Forall (fun p => 0 <= FlowParticle.t_ p)
            (p_flowParticles (interactionPass cfg E (frameDt st time)
                                              (culled cfg E st time)))) as Hpass.
  { apply (interactionPass_ind cfg E (frameDt st time)
             (fun P => Forall (fun p => 0 <= FlowParticle.t_ p) (p_flowParticles P))).
    - intros spark P other _ _ _ HP.
      destruct (resolve_flow_step (frameDt st time) spark P other)
        as [->|[_ (g & r & c & v & ->)]]; [done|].
      apply Forall_app. split; [done|]. apply Forall_singleton. simpl. lra.
    - simpl. by rewrite culled_flowParticles. }
  apply Forall_forall. intros p' (p & Hp & Hkeep)%list_elem_of_omap.
  rewrite Forall_forall in Hpass. specialize (Hpass p Hp).
  set (hp := p_heap _) in *.
  destruct (flow_update_bounds cfg hp p (frameDt st time) Hdt Hsp) as [Hlo _].
  destruct (FlowParticle.update cfg hp p (frameDt st time)) as [q alive] eqn:Hq.
  simpl in *. destruct alive; [|done]. injection Hkeep as <-.
  assert (q = (FlowParticle.update cfg hp p (frameDt st time)).1) as -> by (by rewrite Hq).
  assert ((FlowParticle.update cfg hp p (frameDt st time)).2 = true) as Halive
    by (by rewrite Hq).
  unfold flowOk. split; [|done].
  split; [lra|]. by apply bool_decide_eq_true in Halive.
Qed.

End FlowList.

(** X16.  The flow particles never outnumber their cap: when there are at
    most [maxFlowParticles] of them, there are at most that many after any
    run. *)
Theorem flow_particles_capped (cfg : Config) (E : Env) (st : SparkSystem.t)
    (times : list R) :
  (length (SparkSystem.flowParticles st) <= maxFlowParticles cfg)%nat ->
  (length (SparkSystem.flowParticles (SparkSystem.run cfg E st times))
   <= maxFlowParticles cfg)%nat.
Proof.
  revert st. induction times as [|time times IH]; intros st Hlen; [done|].
  simpl. apply IH. by apply update_flow_length.
Qed.

Lemma flow_particles_capped_witness :
  (length (SparkSystem.flowParticles
             (SparkSystem.run CONFIG demoEnv (demoSys (1 / 2) 0 []) [16%R; 32%R]))
   <= 100)%nat.
Proof.
  apply (flow_particles_capped CONFIG demoEnv (demoSys (1 / 2) 0 []) [16%R; 32%R]).
  simpl. lia.
Defined.

(** X17.  With a timestamp that does not go back, every flow particle a
    frame keeps is under way: its progress is in [0, 1) and its alpha is
    [0.8 * (1 - t)], hence in (0, 0.8]. *)
Theorem kept_flow_particles_under_way (cfg : Config) (E : Env) (st : SparkSystem.t)
    (time : R) :
  SparkSystem.lastTime st <= time -> 0 <= flowParticleSpeed cfg ->
  Forall (fun p => 0 <= FlowParticle.t_ p) (SparkSystem.flowParticles st) ->
  Forall (fun p => flowOk p /\ 0 < FlowParticle.alpha p <= 8 / 10)
         (SparkSystem.flowParticles (SparkSystem.update cfg E st time)).
Proof.
  intros Htime Hsp Hfl.
  pose proof (update_flow_kept cfg E st time Htime Hsp Hfl) as Hok.
  rewrite Forall_forall in Hok. apply Forall_forall. intros p Hp.
  destruct (Hok p Hp) as [[H0 H1] Ha]. split; [by split|]. rewrite Ha. lra.
Qed.

Lemma kept_flow_particles_under_way_witness :
  Forall (fun p => flowOk p /\ 0 < FlowParticle.alpha p <= 8 / 10)
         (SparkSystem.flowParticles
            (SparkSystem.update CONFIG demoEnv
               (demoSys (1 / 2) 6984 [FlowParticle.new 0 1 (235, 170, 60) (1 / 2)]) 7000)).
Proof.
  apply (kept_flow_particles_under_way CONFIG demoEnv
           (demoSys (1 / 2) 6984 [FlowParticle.new 0 1 (235, 170, 60) (1 / 2)]) 7000).
  - simpl. lra.
  - simpl. lra.
  - apply Forall_singleton. simpl. lra.
Defined.

(** ** The population over a run *)

Section Population.
Import SparkSystem.
Context (cfg : Config) (E : Env).

Lemma spawnSpark_sparkCount (st : t) : sparkCount (spawnSpark cfg E st) = sparkCount st.
Proof. unfold spawnSpark. by destruct (decide _). Qed.

Lemma spawned_sparkCount (st : t) (time : R) :
  sparkCount (spawned cfg E st time) = sparkCount st.
Proof.
  unfold spawned. cbv zeta.
  apply (spawnLoop_ind cfg E (fun s => sparkCount s = sparkCount st)); try done.
  intros s Hs. by rewrite spawnSpark_sparkCount.
Qed.

Lemma update_sparks (st : t) (time : R) :
  sparks (update cfg E st time)
  = filter (fun r => aliveAt (heap (spawned cfg E st time)) time r)
           (sparks (spawned cfg E st time)).
Proof.
  change (sparks (update cfg E st time)) with (sparks (culled cfg E st time)).
  apply culled_sparks.
Qed.

Lemma update_sparkCount (st : t) (time : R) :
  sparkCount (update cfg E st time) = sparkCount st.
Proof.
  change (sparkCount (update cfg E st time)) with (sparkCount (culled cfg E st time)).
  rewrite culled_eq. cbv zeta. simpl. apply spawned_sparkCount.
Qed.

Lemma run_sparkCount (times : list R) (st : t) :
  sparkCount (run cfg E st times) = sparkCount st.
Proof.
  revert st. induction times as [|time times IH]; intros st; [done|].
  simpl. by rewrite IH, update_sparkCount.
Qed.

(** *** No address twice *)

Lemma spawnSpark_NoDup (st : t) :
  uniqueIds st -> NoDup (sparks st) -> NoDup (sparks (spawnSpark cfg E st)).
Proof.
  intros [Hall _] Hnd. unfold spawnSpark. destruct (decide _); [done|]. simpl.
  apply NoDup_app. split; [done|]. split; [|apply NoDup_singleton].
  intros r Hr ->%list_elem_of_singleton. destruct (Hall _ Hr). lia.
Qed.

Lemma spawned_NoDup (st : t) (time : R) :
  uniqueIds st -> NoDup (sparks st) ->
  uniqueIds (spawned cfg E st time) /\ NoDup (sparks (spawned cfg E st time)).
Proof.
  intros Hwf Hnd. unfold spawned. cbv zeta.
  apply (spawnLoop_ind cfg E (fun s => uniqueIds s /\ NoDup (sparks s))); try done.
  intros s [Hs1 Hs2]. split; [by apply spawnSpark_uniqueIds | by apply spawnSpark_NoDup].
Qed.

Lemma update_NoDup (st : t) (time : R) :
  uniqueIds st -> NoDup (sparks st) -> NoDup (sparks (update cfg E st time)).
Proof.
  intros Hwf Hnd. rewrite update_sparks. apply list.NoDup_filter.
  by apply spawned_NoDup.
Qed.

Lemma run_NoDup (times : list R) (st : t) :
  uniqueIds st -> NoDup (sparks st) ->
  uniqueIds (run cfg E st times) /\ NoDup (sparks (run cfg E st times)).
Proof.
  revert st. induction times as [|time times IH]; intros st Hwf Hnd; [done|].
  simpl. apply IH; [by apply update_uniqueIds | by apply update_NoDup].
Qed.

(** *** Where the sparks of a later population come from *)

Lemma spawned_origin (st : t) (time : R) (r : ref) :
  r ∈ sparks (spawned cfg E st time) -> r ∈ sparks st \/ (heapNext st <= r)%nat.
Proof.
  revert r. unfold spawned. cbv zeta.
  apply (spawnLoop_ind cfg E
           (fun s => (heapNext st <= heapNext s)%nat
                     /\ forall r, r ∈ sparks s -> r ∈ sparks st \/ (heapNext st <= r)%nat)).
  - intros s [Hn Hs]. unfold spawnSpark. destruct (decide _); [done|]. simpl.
    split; [lia|].
    intros r [Hr| ->%list_elem_of_singleton]%elem_of_app; [by apply Hs | by right].
  - done.
  - simpl. split; [lia | by left].
Qed.

Lemma update_origin (st : t) (time : R) (r : ref) :
  r ∈ sparks (update cfg E st time) -> r ∈ sparks st \/ (heapNext st <= r)%nat.
Proof.
  rewrite update_sparks. intros [_ Hr]%list_elem_of_filter.
  by apply (spawned_origin st time).
Qed.

(** *** The target population *)

Lemma spawnSpark_length (n : Z) (st : t) :
  sparkCount st = IZR n -> INR (length (sparks st)) <= sparkCount st ->
  INR (length (sparks (spawnSpark cfg E st))) <= sparkCount st.
Proof.
  intros Hn Hle. unfold spawnSpark. destruct (decide _) as [Hge|Hlt]; [done|]. simpl.
  rewrite length_app. simpl. rewrite Nat.add_1_r, S_INR.
  rewrite Hn, INR_IZR_INZ in *.
  assert (Z.of_nat (length (sparks st)) < n)%Z as Hlt' by (apply lt_IZR; lra).
  rewrite <- succ_IZR. apply IZR_le. lia.
Qed.

Lemma update_length (n : Z) (st : t) (time : R) :
  sparkCount st = IZR n -> INR (length (sparks st)) <= sparkCount st ->
  INR (length (sparks (update cfg E st time))) <= sparkCount st.
Proof.
  intros Hn Hle. rewrite update_sparks.
  assert (INR (length (sparks (spawned cfg E st time))) <= sparkCount st) as Hsp.
  { unfold spawned. cbv zeta.
    apply (spawnLoop_ind cfg E
             (fun s => sparkCount s = sparkCount st
                       /\ INR (length (sparks s)) <= sparkCount st)); try done.
    intros s [Hc Hs]. rewrite spawnSpark_sparkCount. split; [done|].
    rewrite <- Hc. apply (spawnSpark_length n); [by rewrite Hc | by rewrite Hc]. }
  etrans; [|exact Hsp]. apply le_INR, length_filter.
Qed.

End Population.

(** X18.  A population without repeated addresses, whose sparks are
    allocated and carry distinct ids below the id counter, stays so over
    any run; in particular the ids of the sparks of the population are
    pairwise distinct after the run. *)
Theorem population_stays_distinct (cfg : Config) (E : Env) (st : SparkSystem.t)
    (times : list R) :
  uniqueIds st -> NoDup (SparkSystem.sparks st) ->
  let st' := SparkSystem.run cfg E st times in
  uniqueIds st'
  /\ NoDup (SparkSystem.sparks st')
  /\ NoDup ((fun r => Spark.id (SparkSystem.heap st' r)) <$> SparkSystem.sparks st').
Proof.
  intros Hwf Hnd st'. destruct (run_NoDup cfg E times st Hwf Hnd) as [Hwf' Hnd'].
  fold st' in Hwf', Hnd'. split; [done|]. split; [done|].
  apply NoDup_fmap_2_strong; [|done].
  intros r1 r2 H1 H2 Hid. by apply Hwf'.
Qed.

Lemma population_stays_distinct_witness :
  NoDup ((fun r => Spark.id
                     (SparkSystem.heap
                        (SparkSystem.run CONFIG demoEnv (demoSys (1 / 2) 0 []) [16%R; 32%R]) r))
         <$> SparkSystem.sparks
               (SparkSystem.run CONFIG demoEnv (demoSys (1 / 2) 0 []) [16%R; 32%R])).
Proof.
  apply (population_stays_distinct CONFIG demoEnv (demoSys (1 / 2) 0 []) [16%R; 32%R]).
  - apply demoSys_uniqueIds.
  - simpl. apply NoDup_cons. split; [set_solver|]. apply NoDup_singleton.
Defined.

(** X19.  Every spark of the population after a run was in the population
    before the run or has been allocated since: a spark that has left the
    population never comes back. *)
Theorem population_origin (cfg : Config) (E : Env) (st : SparkSystem.t)
    (times : list R) :
  Forall (fun r => r ∈ SparkSystem.sparks st \/ (SparkSystem.heapNext st <= r)%nat)
         (SparkSystem.sparks (SparkSystem.run cfg E st times)).
Proof.
  apply Forall_forall. intros r. revert st.
  induction times as [|time times IH]; intros st Hr; [by left|].
  simpl in Hr. destruct (IH _ Hr) as [Hin|Hge].
  - by apply (update_origin cfg E st time).
  - right. pose proof (update_heapNext_le cfg E st time). lia.
Qed.

(** X20.  When the target population is a whole number that the population
    does not exceed, no run makes the population exceed it, and the target
    stays as it is. *)
Theorem population_capped (cfg : Config) (E : Env) (st : SparkSystem.t)
    (times : list R) (n : Z) :
  SparkSystem.sparkCount st = IZR n ->
  INR (length (SparkSystem.sparks st)) <= SparkSystem.sparkCount st ->
  INR (length (SparkSystem.sparks (SparkSystem.run cfg E st times)))
  <= SparkSystem.sparkCount st
  /\ SparkSystem.sparkCount (SparkSystem.run cfg E st times) = SparkSystem.sparkCount st.
Proof.
  intros Hn Hle. split; [|apply run_sparkCount].
  revert st Hn Hle. induction times as [|time times IH]; intros st Hn Hle; [done|].
  simpl. rewrite <- (update_sparkCount cfg E st time). apply IH.
  - by rewrite update_sparkCount.
  - rewrite update_sparkCount. by apply (update_length cfg E n).
Qed.

Lemma population_capped_witness :
  INR (length (SparkSystem.sparks
                 (SparkSystem.run CONFIG demoEnv (demoSys (1 / 2) 0 []) [16%R; 32%R])))
  <= 120.
Proof.
  apply (population_capped CONFIG demoEnv (demoSys (1 / 2) 0 []) [16%R; 32%R] 120).
  - reflexivity.
  - simpl. lra.
Defined.

(** ** Construction, resizing and the first population *)

Lemma Math_round_range (v : R) (lo hi : Z) :
  IZR lo <= v <= IZR hi ->
  exists z : Z, (lo <= z <= hi)%Z /\ Math_round v = IZR z.
Proof.
  intros [Hlo Hhi]. exists (Math_floor (v + / 2)). split; [|done].
  apply Math_floor_range; lra.
Qed.

Lemma target_range (v : R) :
  exists z : Z, (30 <= z <= 300)%Z /\ Math_round (Rmax 30 (Rmin 300 v)) = IZR z.
Proof.
  apply Math_round_range. split; [apply Rmax_l|].
  apply Rmax_lub; [lra | apply Rmin_l].
Qed.

(** X21.  Whatever the viewport and the configured counts, [resize] and the
    constructor set the target population to a whole number between 30 and
    300; the constructor reads the mobile count exactly when the user agent
    is a mobile one or the viewport is narrower than 768 pixels, and starts
    with no spark, no flow particle and no connection. *)
Theorem target_population_range (cfg : Config) (E : Env) (isMobile uaMobile : bool)
    (innerWidth innerHeight : R) (st : SparkSystem.t) (hp : Heap) (next idc k n : nat) :
  let st0 := SparkSystem.new cfg E uaMobile innerWidth innerHeight hp next idc k n in
  (exists z : Z, (30 <= z <= 300)%Z
     /\ SparkSystem.sparkCount (SparkSystem.resize cfg isMobile innerWidth innerHeight st)
        = IZR z)
  /\ (exists z : Z, (30 <= z <= 300)%Z /\ SparkSystem.sparkCount st0 = IZR z)
  /\ SparkSystem.sparkCount st0
     = Math_round (Rmax 30 (Rmin 300
         ((if uaMobile || bool_decide (innerWidth < 768)
           then sparkCountMobile cfg else sparkCountDesktop cfg)
          * (innerWidth * innerHeight / (1920 * 1080)))))
  /\ SparkSystem.sparks st0 = []
  /\ SparkSystem.flowParticles st0 = []
  /\ SparkSystem.connections st0 = ∅.
Proof.
  intros st0. split; [apply target_range|]. split; [apply target_range|]. done.
Qed.

Section FirstPopulation.
Import SparkSystem.
Context (cfg : Config) (E : Env).

(** [m] calls of [spawnSpark] on an empty population with room for them. *)
Lemma spawn_iter (st : t) (m : nat) :
  sparks st = [] -> INR m <= sparkCount st ->
  let st' := Nat.iter m (spawnSpark cfg E) st in
  sparks st' = seq (heapNext st) m
  /\ heapNext st' = (heapNext st + m)%nat
  /\ sparkIdCounter st' = (sparkIdCounter st + m)%nat
  /\ sparkCount st' = sparkCount st
  /\ (fun r => Spark.id (heap st' r)) <$> sparks st' = seq (sparkIdCounter st) m.
Proof.
  intros Hnil. induction m as [|m IH]; intros Hroom.
  { simpl. rewrite Hnil. repeat split; try done; lia. }
  rewrite S_INR in Hroom.
  destruct IH as (Hsp & Hnext & Hidc & Hcount & Hids); [lra|].
  cbv zeta in *. rewrite !seq_S.
  change (Nat.iter (S m) (spawnSpark cfg E) st)
    with (spawnSpark cfg E (Nat.iter m (spawnSpark cfg E) st)).
  set (s := Nat.iter m (spawnSpark cfg E) st) in *.
  unfold spawnSpark. rewrite decide_False; cycle 1.
  { rewrite Hsp, length_seq, Hcount. lra. }
  cbn [sparks heapNext sparkIdCounter sparkCount heap].
  rewrite Hnext, Hidc, Hcount.
  split; [by rewrite Hsp|]. split; [lia|]. split; [lia|]. split; [done|].
  rewrite fmap_app. cbn [fmap list_fmap]. f_equal.
  - rewrite <- Hids. apply list_fmap_ext. intros _ r Hr%list_elem_of_lookup_2.
    rewrite fn_lookup_insert_ne; [done|].
    rewrite Hsp in Hr. apply elem_of_seq in Hr. lia.
  - by rewrite fn_lookup_insert.
Qed.

Lemma initial_count (c : R) (z : Z) :
  (30 <= z <= 300)%Z -> c = IZR z ->
  let m := Z.to_nat (Math_floor (c * (4 / 10))) in
  (12 <= m <= 120)%nat /\ INR m <= c.
Proof.
  intros [Hlo Hhi] -> m.
  apply IZR_le in Hlo, Hhi.
  destruct (Math_floor_range (IZR z * (4 / 10)) 12 120) as [H1 H2]; [lra | lra |].
  pose proof (base_Int_part (IZR z * (4 / 10))) as [Hf _].
  fold (Math_floor (IZR z * (4 / 10))) in Hf.
  subst m. split; [lia|].
  rewrite INR_IZR_INZ, Z2Nat.id by lia. lra.
Qed.

End FirstPopulation.

(** X22.  [start] on a newly constructed system spawns exactly
    [floor (0.4 * sparkCount)] sparks, between 12 and 120 of them: they are
    stored at the next free addresses in order and carry the next ids in
    order. *)
Theorem start_fills_population (cfg : Config) (E : Env) (uaMobile : bool)
    (innerWidth innerHeight : R) (hp : Heap) (next idc k n : nat) :
  let st0 := SparkSystem.new cfg E uaMobile innerWidth innerHeight hp next idc k n in
  let st := SparkSystem.start cfg E st0 in
  let m := Z.to_nat (Math_floor (SparkSystem.sparkCount st0 * (4 / 10))) in
  (12 <= m <= 120)%nat
  /\ SparkSystem.sparks st = seq next m
  /\ SparkSystem.heapNext st = (next + m)%nat
  /\ (fun r => Spark.id (SparkSystem.heap st r)) <$> SparkSystem.sparks st = seq idc m
  /\ SparkSystem.sparkIdCounter st = (idc + m)%nat.
Proof.
  intros st0 st m.
  destruct (target_range
              ((if uaMobile || bool_decide (innerWidth < 768)
                then sparkCountMobile cfg else sparkCountDesktop cfg)
               * (innerWidth * innerHeight / (1920 * 1080)))) as (z & Hz & Hcount).
  change (Math_round _) with (SparkSystem.sparkCount st0) in Hcount.
  destruct (initial_count (SparkSystem.sparkCount st0) z Hz Hcount) as [Hm Hroom].
  fold m in Hm, Hroom.
  destruct (spawn_iter cfg E st0 m eq_refl Hroom) as (Hsp & Hnext & Hidc & _ & Hids).
  change (Nat.iter m (SparkSystem.spawnSpark cfg E) st0) with st in *.
  split; [exact Hm|]. split; [exact Hsp|]. split; [exact Hnext|].
  split; [exact Hids | exact Hidc].
Qed.

(** ** The spawn accumulator *)

Section Accumulator.
Import SparkSystem.
Context (cfg : Config) (E : Env).

Lemma spawnLoop_accumulator (n : nat) (st : t) :
  n = 0%nat \/ INR n <= spawnAccumulator st ->
  spawnAccumulator (spawnLoop cfg E n st) = spawnAccumulator st - INR n.
Proof.
  revert st. induction n as [|n IH]; intros st Hn; simpl spawnLoop.
  { simpl. lra. }
  destruct Hn as [Hn|Hn]; [done|]. rewrite S_INR in *.
  pose proof (pos_INR n) as Hpos.
  rewrite decide_True by lra.
  rewrite IH; simpl spawnAccumulator; rewrite spawnSpark_accumulator; [lra|].
  right. lra.
Qed.

Lemma spawnLoop_heapNext (n : nat) (st : t) :
  (heapNext (spawnLoop cfg E n st) <= heapNext st + n)%nat.
Proof.
  revert st. induction n as [|n IH]; intros st; simpl spawnLoop; [lia|].
  destruct (decide _); [|lia].
  etrans; [apply IH|]. simpl. unfold spawnSpark. destruct (decide _); simpl; lia.
Qed.

Lemma spawnRounds_le (acc : R) : spawnRounds acc = 0%nat \/ INR (spawnRounds acc) <= acc.
Proof.
  unfold spawnRounds, Math_floor.
  destruct (Z_le_gt_dec 0 (Int_part acc)) as [Hz|Hz].
  - right. rewrite INR_IZR_INZ, Z2Nat.id by done. apply base_Int_part.
  - left. apply Z2Nat.nonpos. lia.
Qed.

Lemma update_spawnAccumulator (st : t) (time : R) :
  spawnAccumulator (update cfg E st time) = spawnAccumulator (spawned cfg E st time).
Proof.
  change (spawnAccumulator (update cfg E st time))
    with (spawnAccumulator (culled cfg E st time)).
  by rewrite culled_eq.
Qed.

End Accumulator.

(** X23.  A frame adds [spawnRatePerSec * dt] to the spawn accumulator and
    takes one off per call of [spawnSpark] while it is at least 1: the
    accumulator is below 1 after every frame, it is diminished by the whole
    number of calls made, at most that many sparks are allocated, and the
    elapsed time the frame works with is at most a tenth of a second. *)
Theorem spawn_accumulator_after_frame (cfg : Config) (E : Env) (st : SparkSystem.t)
    (time : R) :
  let dt := SparkSystem.frameDt st time in
  let acc := SparkSystem.spawnAccumulator st + spawnRatePerSec cfg * dt in
  let st' := SparkSystem.update cfg E st time in
  dt <= 1 / 10
  /\ SparkSystem.spawnAccumulator st' < 1
  /\ SparkSystem.spawnAccumulator st' = acc - INR (SparkSystem.spawnRounds acc)
  /\ (SparkSystem.heapNext st <= SparkSystem.heapNext st'
      <= SparkSystem.heapNext st + SparkSystem.spawnRounds acc)%nat
  /\ SparkSystem.lastTime st' = time.
Proof.
  intros dt acc st'. unfold st'.
  rewrite update_spawnAccumulator, update_heapNext, update_lastTime.
  split; [apply frameDt_le|].
  unfold SparkSystem.spawned. cbv zeta. fold dt. fold acc.
  set (s := SparkSystem.set_spawnAccumulator acc (SparkSystem.set_lastTime time st)).
  change acc with (SparkSystem.spawnAccumulator s) at 1 3 5.
  split; [apply spawnLoop_exit|].
  split; [apply spawnLoop_accumulator, spawnRounds_le|].
  split; [|done].
  split; [|apply (spawnLoop_heapNext cfg E _ s)].
  apply (spawnLoop_frame cfg E _ s).
Qed.

(** ** The ledger over a run *)

Lemma key_sameIdentity (hp0 hp : Heap) (p q : ref) :
  heapRel sameIdentity hp0 hp ->
  SparkSystem.getConnectionKey (hp p) (hp q)
  = SparkSystem.getConnectionKey (hp0 p) (hp0 q).
Proof.
  intros H. destruct (H p) as [Hp _], (H q) as [Hq _].
  unfold SparkSystem.getConnectionKey. by rewrite Hp, Hq.
Qed.

Lemma ledgerOk_sameIdentity (hp0 hp : Heap) (pop : list ref)
    (conns : gmap SparkSystem.Key SparkSystem.Conn) :
  heapRel sameIdentity hp0 hp -> ledgerOk hp0 pop conns -> ledgerOk hp pop conns.
Proof.
  intros Hsame Hok k c Hc. destruct (Hok k c Hc) as (Ha & Hb & Hne & Hk & Hs).
  repeat split; try done; try apply Hs. by rewrite (key_sameIdentity hp0 hp).
Qed.

Section Ledger.
Import SparkSystem.
Context (cfg : Config) (E : Env).

Lemma resolve_sameIdentity (dt : R) (spark : ref) (P : Pass) (other : ref) :
  heapRel sameIdentity (p_heap P) (p_heap (resolve cfg E dt spark P other)).
Proof.
  apply (resolve_rel cfg E dt sameIdentity); try done.
  intros. apply transferEnergy_rel; [apply _ | done].
Qed.

Lemma trackStrength_range (s targetW dt : R) : 0 <= trackStrength s targetW dt <= 1.
Proof. unfold trackStrength. apply clamp_range. lra. Qed.

Lemma resolve_ledgerOk (dt : R) (pop : list ref) (spark : ref) (P : Pass) (other : ref) :
  spark ∈ pop -> other ∈ pop -> other ≠ spark ->
  ledgerOk (p_heap P) pop (p_connections P) ->
  ledgerOk (p_heap (resolve cfg E dt spark P other)) pop
           (p_connections (resolve cfg E dt spark P other)).
Proof.
  intros Hs Ho Hne Hok.
  apply (ledgerOk_sameIdentity (p_heap P)); [apply resolve_sameIdentity|].
  destruct (resolve_cases cfg E dt spark P other) as [->|[[Hf Hfar]|[Hf Hnear]]].
  - done.
  - by rewrite resolve_far.
  - rewrite resolve_connections by done. intros k c.
    destruct (decide (getConnectionKey (p_heap P spark) (p_heap P other) = k)) as [<-|Hk].
    + rewrite lookup_insert_eq. intros [= <-]. simpl.
      split; [done|]. split; [done|]. split; [done|]. split; [done|].
      apply trackStrength_range.
    + rewrite lookup_insert_ne by done. apply Hok.
Qed.

Lemma fadeOut_strength (active : gset Key) (dt : R) (k : Key) (c c' : Conn) :
  0 <= dt -> 0 <= strength c <= 1 ->
  fadeOut active dt k c = Some c' -> 0 <= strength c' <= 1.
Proof.
  intros Hdt Hs. unfold fadeOut. destruct (decide _); [by intros [= <-]|].
  cbv zeta. destruct (decide _); [done|]. intros [= <-]. simpl. lra.
Qed.

Lemma processInteractions_ledgerOk (dt : R) (st : t) :
  0 <= dt ->
  ledgerOk (heap st) (sparks st) (connections st) ->
  ledgerOk (heap (processInteractions cfg E dt st)) (sparks st)
           (connections (processInteractions cfg E dt st)).
Proof.
  intros Hdt Hok.
  assert (ledgerOk (p_heap (interactionPass cfg E dt st)) (sparks st)
                   (p_connections (interactionPass cfg E dt st))) as Hpass.
  { apply (interactionPass_ind cfg E dt
             (fun P => ledgerOk (p_heap P) (sparks st) (p_connections P))); [|done].
    intros spark P other. apply resolve_ledgerOk. }
  intros k c'. unfold processInteractions. cbv zeta. simpl.
  rewrite map_lookup_imap.
  destruct (p_connections (interactionPass cfg E dt st) !! k) as [c|] eqn:Hc; [|done].
  simpl. intros Hfade.
  destruct (Hpass k c Hc) as (Ha & Hb & Hne & Hk & Hs).
  destruct (fadeOut_refs _ _ _ _ _ Hfade) as [-> ->].
  repeat split; try done; by apply (fadeOut_strength _ _ _ _ _ Hdt Hs Hfade).
Qed.

Lemma culled_ledgerOk (st : t) (time : R) :
  uniqueIds st ->
  ledgerOk (heap st) (sparks st) (connections st) ->
  ledgerOk (heap (culled cfg E st time)) (sparks (culled cfg E st time))
           (connections (culled cfg E st time)).
Proof.
  intros Hwf Hok.
  pose proof (spawned_uniqueIds cfg E st time Hwf) as [_ Hinj].
  destruct (spawned_sparks cfg E st time) as [extra Hsp].
  destruct (spawned_frame cfg E st time) as (_ & Hold & Hconns & _).
  pose proof (culled_sparks cfg E st time) as Hkept.
  revert Hkept. rewrite culled_eq. cbv zeta. simpl.
  set (st2 := spawned cfg E st time) in *.
  rewrite advance_fold_ids.
  pose proof (advance_fold_rel cfg (frameDt st time) time sameIdentity
                (fun s => update_sameIdentity cfg s (frameDt st time) time)
                (sparks st2) (heap st2) ∅ []) as Hsame.
  set (hp3 := (foldl _ _ _).1.1) in *.
  intros Hkept.
  assert (forall q, Spark.id (hp3 q) ∈
            (∅ ∪ list_to_set ((fun r0 => Spark.id (heap st2 r0))
                               <$> filter (fun r0 => aliveAt (heap st2) time r0) (sparks st2))
             : gset nat) -> q ∈ sparks st2 ->
            q ∈ filter (fun r0 => aliveAt (heap st2) time r0) (sparks st2)) as Hids.
  { intros q Hq Hq2. apply elem_of_union in Hq as [Hq|Hq]; [set_solver|].
    apply elem_of_list_to_set, list_elem_of_fmap in Hq as (q' & Hid & Hq').
    pose proof Hq' as [_ Hq'2]%list_elem_of_filter.
    destruct (Hsame q) as [Hidq _]. rewrite Hidq in Hid.
    by rewrite (Hinj q q' Hq2 Hq'2 Hid). }
  intros k c [Hc [Ha Hb]]%map_lookup_filter_Some. simpl in Ha, Hb.
  rewrite Hconns in Hc. destruct (Hok k c Hc) as (Ha0 & Hb0 & Hne & Hk & Hs).
  assert (forall r, r ∈ sparks st -> r ∈ sparks st2) as Hsub
    by (intros r Hr; rewrite Hsp; set_solver).
  rewrite Hkept.
  split; [by apply Hids, Hsub|]. split; [by apply Hids, Hsub|]. split; [done|].
  split; [|done].
  rewrite Hk. unfold getConnectionKey.
  destruct (Hsame (a c)) as [-> _], (Hsame (b c)) as [-> _].
  rewrite !Hold; [done | by apply Hwf | by apply Hwf].
Qed.

Lemma update_ledgerOk (st : t) (time : R) :
  uniqueIds st -> lastTime st <= time ->
  ledgerOk (heap st) (sparks st) (connections st) ->
  ledgerOk (heap (update cfg E st time)) (sparks (update cfg E st time))
           (connections (update cfg E st time)).
Proof.
  intros Hwf Htime Hok.
  apply (processInteractions_ledgerOk (frameDt st time) (culled cfg E st time)).
  - by apply frameDt_nonneg.
  - by apply culled_ledgerOk.
Qed.

End Ledger.

(** X24.  Over a run with timestamps that never go back, the ledger keeps
    linking live sparks only: when the population has distinct ids and
    every entry joins two distinct sparks of the population under the key
    of their ids with a strength in [0, 1], the same holds after the run. *)
Theorem ledger_links_live_sparks (cfg : Config) (E : Env) (st : SparkSystem.t)
    (times : list R) :
  uniqueIds st -> monotone (SparkSystem.lastTime st) times ->
  ledgerOk (SparkSystem.heap st) (SparkSystem.sparks st) (SparkSystem.connections st) ->
  let st' := SparkSystem.run cfg E st times in
  ledgerOk (SparkSystem.heap st') (SparkSystem.sparks st') (SparkSystem.connections st').
Proof.
  revert st. induction times as [|time times IH]; intros st Hwf Hmono Hok; [done|].
  destruct Hmono as [Hle Hmono]. simpl. apply IH.
  - by apply update_uniqueIds.
  - by rewrite update_lastTime.
  - by apply update_ledgerOk.
Qed.

Lemma demoSys_ledgerOk (e1 last : R) (fl : list FlowParticle.t) :
  ledgerOk (SparkSystem.heap (demoSys e1 last fl)) (SparkSystem.sparks (demoSys e1 last fl))
           (SparkSystem.connections (demoSys e1 last fl)).
Proof.
  intros k c. simpl. unfold demoConns.
  intros [<- <-]%lookup_singleton_Some. simpl.
  split; [set_solver|]. split; [set_solver|]. split; [done|]. split; [done|]. lra.
Qed.

Lemma ledger_links_live_sparks_witness :
  monotone 0 [16%R; 32%R]
  /\ ledgerOk
       (SparkSystem.heap (SparkSystem.run CONFIG demoEnv (demoSys (1 / 2) 0 []) [16%R; 32%R]))
       (SparkSystem.sparks (SparkSystem.run CONFIG demoEnv (demoSys (1 / 2) 0 []) [16%R; 32%R]))
       (SparkSystem.connections
          (SparkSystem.run CONFIG demoEnv (demoSys (1 / 2) 0 []) [16%R; 32%R])).
Proof.
  split; [simpl; lra|].
  apply (ledger_links_live_sparks CONFIG demoEnv (demoSys (1 / 2) 0 []) [16%R; 32%R]).
  - apply demoSys_uniqueIds.
  - simpl. lra.
  - apply demoSys_ledgerOk.
Defined.

(** ** Ring alpha and colours over a run *)

#[global] Instance keepsVisualOk_preorder : PreOrder keepsVisualOk.
Proof.
  split.
  - by intros s H.
  - intros s1 s2 s3 H12 H23 H. by apply H23, H12.
Qed.

Lemma update_visualOk (cfg : Config) (s : Spark.t) (dt time : R) :
  keepsVisualOk s (Spark.update cfg s dt time).1.
Proof.
  intros [[H0 H1] Hc]. unfold Spark.update. cbv zeta. unfold visualOk. simpl.
  split; [lra | done].
Qed.

Lemma new_visualOk (cfg : Config) (E : Env) (idc k n : nat) (x0 y0 w0 h0 : R)
    (net : TinyNN.t) :
  visualOk (Spark.new cfg E idc k n x0 y0 w0 h0 net).
Proof.
  unfold Spark.new. cbv zeta. unfold visualOk, colorOk, channelOk. simpl.
  split; [lra|]. repeat split; apply clamp_range; lra.
Qed.

Section Visual.
Import SparkSystem.
Context (cfg : Config) (E : Env).

(** [S] holds of the addresses whose sparks are known to be in range. *)
Lemma tint_visualOk (S : ref -> Prop) (w dt : R) (giver receiver : ref) (hp : Heap) :
  0 <= w <= 1 -> S giver -> S receiver ->
  (forall q, S q -> visualOk (hp q)) ->
  forall q, S q -> visualOk (tint cfg w dt giver receiver hp q).
Proof.
  intros Hw Hg Hr Hok. unfold tint. cbv zeta.
  set (hp1 := <[giver := _]> hp).
  assert (forall q, S q -> visualOk (hp1 q)) as Hok1.
  { intros q Hq. unfold hp1, insert, fn_insert. destruct (decide (giver = q)) as [<-|_].
    - destruct (Hok giver Hg) as [[H0 H1] Hc]. split; [|done]. simpl.
      split; [etrans; [exact H0 | apply Rmax_l] | apply Rmax_lub; lra].
    - by apply Hok. }
  clearbody hp1.
  set (hp2 := <[receiver := _]> hp1).
  assert (forall q, S q -> visualOk (hp2 q)) as Hok2.
  { intros q Hq. unfold hp2, insert, fn_insert. destruct (decide (receiver = q)) as [<-|_].
    - destruct (Hok1 receiver Hr) as [Hring _]. split; [done|]. simpl.
      apply mix_colorOk.
    - by apply Hok1. }
  clearbody hp2.
  intros q Hq. unfold insert, fn_insert. destruct (decide (giver = q)) as [<-|_].
  - destruct (Hok2 giver Hg) as [Hring _]. split; [done|]. simpl. apply mix_colorOk.
  - by apply Hok2.
Qed.

Lemma transferEnergy_visualOk (w dt : R) (giver receiver : ref) (hp : Heap) :
  heapRel keepsVisualOk hp (transferEnergy cfg w dt giver receiver hp).
Proof. apply transferEnergy_rel; [apply _|]. by intros e s H. Qed.

Lemma roles_cases (hp : Heap) (spark other : ref) :
  (giverOf hp spark other = spark /\ receiverOf hp spark other = other)
  \/ (giverOf hp spark other = other /\ receiverOf hp spark other = spark).
Proof. unfold giverOf, receiverOf. destruct (decide _); [by left | by right]. Qed.

Lemma resolve_visualOk (S : ref -> Prop) (dt : R) (spark : ref) (P : Pass) (other : ref) :
  S spark -> S other ->
  (forall q, S q -> visualOk (p_heap P q)) ->
  forall q, S q -> visualOk (p_heap (resolve cfg E dt spark P other) q).
Proof.
  intros Hs Ho Hok.
  destruct (resolve_cases cfg E dt spark P other) as [->|[[Hf Hfar]|[Hf Hnear]]].
  - done.
  - by rewrite resolve_far.
  - rewrite resolve_heap by done. destruct (decide _); [|done].
    assert (S (giverOf (p_heap P) spark other) /\ S (receiverOf (p_heap P) spark other))
      as [Hg Hr].
    { by destruct (roles_cases (p_heap P) spark other) as [[-> ->]|[-> ->]]. }
    apply tint_visualOk; [apply trackStrength_range | done | done |].
    intros q Hq. by apply transferEnergy_visualOk, Hok.
Qed.

(** The colour of a flow particle that a resolution appends is a mix. *)
Lemma resolve_flow_color (dt : R) (spark : ref) (P : Pass) (other : ref) :
  p_flowParticles (resolve cfg E dt spark P other) = p_flowParticles P
  \/ exists g r c1 c2 v,
       p_flowParticles (resolve cfg E dt spark P other)
       = p_flowParticles P ++ [FlowParticle.new g r (mixColorsLinear c1 c2 (3 / 10)) v].
Proof.
  unfold resolve. cbv zeta.
  destruct (decide _); [by left|].
  destruct (bool_decide (_ < interactionRadius cfg) && _); [|by left].
  destruct (decide (_ > 1 / 10)); [|by left].
  destruct (bool_decide (_ > 2 / 10) && _); [|by left].
  destruct (decide (random E _ < _)); [|by left].
  right. by do 5 eexists.
Qed.

Lemma flow_update_color (hp : Heap) (p : FlowParticle.t) (dt : R) :
  FlowParticle.color (FlowParticle.update cfg hp p dt).1 = FlowParticle.color p.
Proof. done. Qed.

Lemma spawnSpark_drawable (st : t) : drawable st -> drawable (spawnSpark cfg E st).
Proof.
  intros [Hok Hfl]. unfold spawnSpark. destruct (decide _); [done|].
  split; [|done]. simpl. intros r Hr. unfold insert, fn_insert.
  destruct (decide (heapNext st = r)) as [<-|Hne]; [apply new_visualOk|].
  apply Hok. apply elem_of_app in Hr as [Hr|Hr%list_elem_of_singleton]; [done | by subst].
Qed.

Lemma update_drawable (st : t) (time : R) :
  drawable st -> drawable (update cfg E st time).
Proof.
  intros Hd.
  assert (drawable (spawned cfg E st time)) as [Hok2 Hfl2].
  { unfold spawned. cbv zeta.
    apply (spawnLoop_ind cfg E drawable); [apply spawnSpark_drawable | done | done]. }
  assert (drawable (culled cfg E st time)) as [Hok3 Hfl3].
  { split; [|rewrite culled_flowParticles; apply Hd].
    intros r Hr. rewrite culled_sparks in Hr. apply list_elem_of_filter in Hr as [_ Hr].
    apply (culled_heap_rel cfg E keepsVisualOk st time); [|by apply Hok2].
    intros s. apply update_visualOk. }
  set (st3 := culled cfg E st time) in *.
  set (dt := frameDt st time).
  assert ((forall r, r ∈ sparks st3 -> visualOk (p_heap (interactionPass cfg E dt st3) r))
          /\ Forall (fun p => colorOk (FlowParticle.color p))
                    (p_flowParticles (interactionPass cfg E dt st3))) as [Hok4 Hfl4].
  { apply (interactionPass_ind cfg E dt
             (fun P => (forall r, r ∈ sparks st3 -> visualOk (p_heap P r))
                       /\ Forall (fun p => colorOk (FlowParticle.color p))
                                 (p_flowParticles P))); [|done].
    intros spark P other Hs Ho _ [HP Hfl]. split.
    - by apply (resolve_visualOk (fun r => r ∈ sparks st3)).
    - destruct (resolve_flow_color dt spark P other)
        as [->|(g & r & c1 & c2 & v & ->)]; [done|].
      apply Forall_app. split; [done|]. apply Forall_singleton. simpl.
      apply mix_colorOk. }
  split; [exact Hok4|].
  rewrite update_flowParticles. fold st3. fold dt.
  apply Forall_forall. intros p' (p & Hp & Hkeep)%list_elem_of_omap.
  rewrite Forall_forall in Hfl4. specialize (Hfl4 p Hp).
  destruct (FlowParticle.update cfg _ p dt) as [q alive] eqn:Hq.
  simpl in Hkeep. destruct alive; [|done]. injection Hkeep as <-.
  change q with (q, true).1. rewrite <- Hq. by rewrite flow_update_color.
Qed.

End Visual.

(** X25.  Over any run with random numbers in [0, 1), what is drawn stays
    in range: when every spark of the population has a ring alpha in
    [0, 0.5] and colour channels in [0, 255], and every flow particle has
    colour channels in [0, 255], the same holds after the run. *)
Theorem drawn_values_stay_in_range (cfg : Config) (E : Env) (st : SparkSystem.t)
    (times : list R) :
  randomOk E -> drawable st -> drawable (SparkSystem.run cfg E st times).
Proof.
  intros _. revert st. induction times as [|time times IH]; intros st Hd; [done|].
  simpl. by apply IH, update_drawable.
Qed.

Lemma demoSys_drawable (e1 last : R) : drawable (demoSys e1 last []).
Proof.
  split; [|done]. intros r _. simpl.
  unfold visualOk, colorOk, channelOk.
  destruct r as [|r]; simpl; lra.
Qed.

Lemma drawn_values_stay_in_range_witness :
  drawable (demoSys (1 / 2) 0 [])
  /\ drawable (SparkSystem.run CONFIG demoEnv (demoSys (1 / 2) 0 []) [16%R; 32%R]).
Proof.
  split; [apply demoSys_drawable|].
  apply (drawn_values_stay_in_range CONFIG demoEnv (demoSys (1 / 2) 0 []) [16%R; 32%R]).
  - apply demoEnv_randomOk.
  - apply demoSys_drawable.
Defined.

(** ** What the interaction pass and a frame write *)

#[global] Instance interactionKeeps_preorder : PreOrder interactionKeeps.
Proof.
  split.
  - intros s. unfold interactionKeeps. split; [reflexivity | done].
  - intros s1 s2 s3 (Hu12 & Ha & Hb & Hc & Hd & He) (Hu23 & Ha' & Hb' & Hc' & Hd' & He').
    split; [by etrans|]. repeat split; congruence.
Qed.

Section Footprint.
Import SparkSystem.
Context (cfg : Config) (E : Env).

Lemma tint_other (w dt : R) (giver receiver : ref) (hp : Heap) (r : ref) :
  r ≠ giver -> r ≠ receiver -> tint cfg w dt giver receiver hp r = hp r.
Proof.
  intros Hg Hr. unfold tint. cbv zeta. by rewrite !fn_lookup_insert_ne by done.
Qed.

Lemma resolve_other (dt : R) (spark : ref) (P : Pass) (other r : ref) :
  r ≠ spark -> r ≠ other -> p_heap (resolve cfg E dt spark P other) r = p_heap P r.
Proof.
  intros Hs Ho.
  destruct (resolve_cases cfg E dt spark P other) as [->|[[Hf Hfar]|[Hf Hnear]]].
  - done.
  - by rewrite resolve_far.
  - rewrite resolve_heap by done. destruct (decide _); [|done].
    assert (r ≠ giverOf (p_heap P) spark other /\ r ≠ receiverOf (p_heap P) spark other)
      as [Hg Hr].
    { by destruct (roles_cases (p_heap P) spark other) as [[-> ->]|[-> ->]]. }
    by rewrite tint_other, transferEnergy_other.
Qed.

Lemma interactionPass_other (dt : R) (st : t) (r : ref) :
  r ∉ sparks st -> p_heap (interactionPass cfg E dt st) r = heap st r.
Proof.
  intros Hr.
  apply (interactionPass_ind cfg E dt (fun P => p_heap P r = heap st r)); [|done].
  intros spark P other Hs Ho _ <-. apply resolve_other; set_solver.
Qed.

Lemma processInteractions_keeps (dt : R) (st : t) :
  heapRel interactionKeeps (heap st) (heap (processInteractions cfg E dt st)).
Proof.
  apply (processInteractions_rel cfg E dt interactionKeeps).
  - intros c s. by repeat split.
  - intros v s. by repeat split.
  - intros. apply transferEnergy_rel; [apply _|].
    intros e s. by repeat split.
Qed.

Lemma advance_fold_other (dt time : R) (l : list ref) (hp : Heap) (ids : gset nat)
    (kept : list ref) (r : ref) :
  r ∉ l -> (foldl (advance cfg dt time) (hp, ids, kept) l).1.1 r = hp r.
Proof.
  revert hp ids kept. induction l as [|q l IH]; intros hp ids kept Hr; [done|].
  rewrite foldl_step, advance_eq, IH by set_solver.
  apply fn_lookup_insert_ne. set_solver.
Qed.

Lemma update_other (st : t) (time : R) (r : ref) :
  (r < heapNext st)%nat -> r ∉ sparks st ->
  heap (update cfg E st time) r = heap st r /\ r ∉ sparks (update cfg E st time).
Proof.
  intros Hlt Hr.
  assert (r ∉ sparks (spawned cfg E st time)) as Hr2.
  { intros [Hin|Hge]%spawned_origin; [done | lia]. }
  assert (r ∉ sparks (culled cfg E st time)) as Hr3.
  { rewrite culled_sparks. intros [_ Hin]%list_elem_of_filter. done. }
  split; [|done].
  rewrite update_heap.
  change (heap (processInteractions cfg E (frameDt st time) (culled cfg E st time)))
    with (p_heap (interactionPass cfg E (frameDt st time) (culled cfg E st time))).
  rewrite interactionPass_other by done.
  rewrite culled_eq. cbv zeta. simpl.
  rewrite advance_fold_other by done.
  by apply (spawned_frame cfg E st time).
Qed.

End Footprint.

(** X26.  The interaction pass writes nothing but the energy, the colour
    and the ring alpha of sparks of the population: every other field of
    every spark is as before, a spark outside the population is as before
    altogether, and the population itself is the same list. *)
Theorem interaction_pass_footprint (cfg : Config) (E : Env) (dt : R)
    (st : SparkSystem.t) (r : ref) :
  let st' := SparkSystem.processInteractions cfg E dt st in
  interactionKeeps (SparkSystem.heap st r) (SparkSystem.heap st' r)
  /\ (r ∉ SparkSystem.sparks st -> SparkSystem.heap st' r = SparkSystem.heap st r)
  /\ SparkSystem.sparks st' = SparkSystem.sparks st.
Proof.
  intros st'. split; [apply processInteractions_keeps|]. split; [|done].
  apply (interactionPass_other cfg E dt st r).
Qed.

(** X27.  A spark that has left the population is never written again: an
    allocated spark that is not in the population is the same object after
    any run, and is still not in the population. *)
Theorem removed_spark_is_frozen (cfg : Config) (E : Env) (st : SparkSystem.t)
    (times : list R) (r : ref) :
  (r < SparkSystem.heapNext st)%nat -> r ∉ SparkSystem.sparks st ->
  SparkSystem.heap (SparkSystem.run cfg E st times) r = SparkSystem.heap st r
  /\ r ∉ SparkSystem.sparks (SparkSystem.run cfg E st times).
Proof.
  revert st. induction times as [|time times IH]; intros st Hlt Hr; [done|].
  destruct (update_other cfg E st time r Hlt Hr) as [Hheap Hr'].
  simpl. rewrite <- Hheap. apply IH; [|done].
  pose proof (update_heapNext_le cfg E st time). lia.
Qed.

Lemma removed_spark_is_frozen_witness :
  SparkSystem.heap
    (SparkSystem.run CONFIG demoEnv
       (SparkSystem.update CONFIG demoEnv (demoSys (1 / 2) 6984 []) 7000) [7016%R]) 0%nat
  = SparkSystem.heap (SparkSystem.update CONFIG demoEnv (demoSys (1 / 2) 6984 []) 7000)
                     0%nat.
Proof.
  apply (removed_spark_is_frozen CONFIG demoEnv
           (SparkSystem.update CONFIG demoEnv (demoSys (1 / 2) 6984 []) 7000) [7016%R] 0%nat).
  - eapply Nat.lt_le_trans; [|apply update_heapNext_le]. simpl. lia.
  - apply (culled_avoid CONFIG demoEnv (demoSys (1 / 2) 6984 []) 7000 0%nat).
    + apply demoSys_uniqueIds.
    + simpl. set_solver.
    + apply bool_decide_eq_false. simpl. lra.
Defined.

(** ** The energy of the population over the interaction pass *)

Lemma totalEnergy_ext (hp hp' : Heap) (l : list ref) :
  (forall r, r ∈ l -> Spark.energy (hp' r) = Spark.energy (hp r)) ->
  totalEnergy hp' l = totalEnergy hp l.
Proof.
  induction l as [|q l IH]; intros Heq; [done|].
  simpl. rewrite IH, Heq; [done | set_solver | set_solver].
Qed.

Lemma totalEnergy_insert (hp : Heap) (l : list ref) (g : ref) (s : Spark.t) :
  NoDup l -> g ∈ l ->
  totalEnergy (<[g := s]> hp) l = totalEnergy hp l - Spark.energy (hp g) + Spark.energy s.
Proof.
  induction l as [|q l IH]; intros Hnd Hg; [set_solver|].
  apply NoDup_cons in Hnd as [Hq Hnd]. simpl.
  destruct (decide (g = q)) as [->|Hne].
  - rewrite fn_lookup_insert.
    rewrite (totalEnergy_ext hp (<[q := s]> hp) l); [lra|].
    intros r0 Hr0. rewrite fn_lookup_insert_ne; [done|]. by intros ->.
  - rewrite fn_lookup_insert_ne by done. rewrite IH; [lra | done | set_solver].
Qed.

Section TotalEnergy.
Import SparkSystem.
Context (cfg : Config) (E : Env).

Lemma transferEnergy_total (w dt : R) (giver receiver : ref) (hp : Heap) (l : list ref) :
  NoDup l -> giver ∈ l -> receiver ∈ l ->
  totalEnergy (transferEnergy cfg w dt giver receiver hp) l <= totalEnergy hp l.
Proof.
  intros Hnd Hg Hr. unfold transferEnergy. cbv zeta.
  pose proof (deltaEnergy_nonneg cfg w dt (Spark.energy (hp giver))) as Hd.
  set (d := deltaEnergy cfg w dt (Spark.energy (hp giver))) in *.
  set (hp1 := <[giver := _]> hp).
  assert (totalEnergy hp1 l = totalEnergy hp l - d) as H1.
  { unfold hp1. rewrite totalEnergy_insert by done. simpl. lra. }
  rewrite totalEnergy_insert by done. simpl. rewrite H1.
  pose proof (Rmin_r 1 (Spark.energy (hp1 receiver) + d)). lra.
Qed.

Lemma resolve_total (dt : R) (l : list ref) (spark : ref) (P : Pass) (other : ref) :
  NoDup l -> spark ∈ l -> other ∈ l ->
  totalEnergy (p_heap (resolve cfg E dt spark P other)) l <= totalEnergy (p_heap P) l.
Proof.
  intros Hnd Hs Ho.
  destruct (resolve_cases cfg E dt spark P other) as [->|[[Hf Hfar]|[Hf Hnear]]].
  - lra.
  - rewrite resolve_far by done. simpl. lra.
  - rewrite resolve_heap by done. destruct (decide _) as [Hw|Hw]; [|lra].
    rewrite (totalEnergy_ext (transferEnergy cfg (strengthAfter cfg dt P spark other) dt
                                (giverOf (p_heap P) spark other)
                                (receiverOf (p_heap P) spark other) (p_heap P)));
      [|intros q _; apply tint_energy].
    by destruct (roles_cases (p_heap P) spark other) as [[-> ->]|[-> ->]];
      apply transferEnergy_total.
Qed.

(** *** How far the counter can pass the cap *)

Lemma resolve_count_le (dt : R) (spark : ref) (P : Pass) (other : ref) :
  (interactions (resolve cfg E dt spark P other) <= S (interactions P))%nat.
Proof.
  destruct (resolve_cases cfg E dt spark P other) as [->|[[Hf Hfar]|[Hf Hnear]]].
  - lia.
  - rewrite resolve_far by done. simpl. lia.
  - destruct (resolve_counts cfg E dt spark P other Hf Hnear) as (-> & _). lia.
Qed.

Lemma resolve_fold_count (dt : R) (hp0 : Heap) (spark : ref) (others : list ref)
    (P : Pass) :
  heapRel unmoved hp0 (p_heap P) ->
  heapRel unmoved hp0 (p_heap (foldl (resolve cfg E dt spark) P others))
  /\ (interactions (foldl (resolve cfg E dt spark) P others)
      <= interactions P + length others)%nat.
Proof.
  revert P. induction others as [|other others IH]; intros P Hun.
  { simpl. split; [done | lia]. }
  rewrite foldl_step.
  destruct (IH (resolve cfg E dt spark P other)) as [Hun' Hle].
  { etrans; [exact Hun | apply resolve_unmoved]. }
  split; [done|].
  pose proof (resolve_count_le dt spark P other). simpl. lia.
Qed.

Lemma neighbors_length (hp : Heap) (g : SpatialGrid.t) (l : list ref) (p : ref) :
  NoDup l -> p ∈ l ->
  (S (length (SpatialGrid.getNeighbors hp (rebuildGrid hp g l) p)) <= length l)%nat.
Proof.
  intros Hnd Hp.
  change (S (length (SpatialGrid.getNeighbors hp (rebuildGrid hp g l) p)))
    with (length (p :: SpatialGrid.getNeighbors hp (rebuildGrid hp g l) p)).
  apply submseteq_length, NoDup_submseteq.
  - apply NoDup_cons. split; [|by apply neighbors_NoDup].
    rewrite neighbors_elem. naive_solver.
  - intros q [->|Hq]%elem_of_cons; [done|].
    apply neighbors_elem in Hq. naive_solver.
Qed.

Lemma resolveAll_count (dt : R) (hp0 : Heap) (g : SpatialGrid.t) (pop l : list ref)
    (P : Pass) :
  NoDup pop -> l ⊆ pop ->
  heapRel unmoved hp0 (p_heap P) ->
  (interactions P <= maxInteractionsPerFrame cfg + length pop - 2)%nat ->
  (interactions (resolveAll cfg E dt (rebuildGrid hp0 g pop) l P)
   <= maxInteractionsPerFrame cfg + length pop - 2)%nat.
Proof.
  intros Hnd. revert P. induction l as [|spark l IH]; intros P Hl Hun Hle; [done|].
  simpl. destruct (bool_decide _) eqn:Hcap; [done|].
  apply bool_decide_eq_false in Hcap.
  rewrite (unmoved_neighbors hp0 (p_heap P)) by done.
  destruct (resolve_fold_count dt hp0 spark
              (SpatialGrid.getNeighbors hp0 (rebuildGrid hp0 g pop) spark) P Hun)
    as [Hun' Hcount].
  apply IH; [set_solver | done |].
  pose proof (neighbors_length hp0 g pop spark Hnd ltac:(set_solver)). lia.
Qed.

End TotalEnergy.

(** X28.  The interaction pass creates no energy: on a population without
    repeated addresses, the energies of its sparks sum to at most what
    they summed to before the pass. *)
Theorem interaction_pass_creates_no_energy (cfg : Config) (E : Env) (dt : R)
    (st : SparkSystem.t) :
  NoDup (SparkSystem.sparks st) ->
  totalEnergy (SparkSystem.heap (SparkSystem.processInteractions cfg E dt st))
              (SparkSystem.sparks st)
  <= totalEnergy (SparkSystem.heap st) (SparkSystem.sparks st).
Proof.
  intros Hnd.
  apply (interactionPass_ind cfg E dt
           (fun P => totalEnergy (SparkSystem.p_heap P) (SparkSystem.sparks st)
                     <= totalEnergy (SparkSystem.heap st) (SparkSystem.sparks st)));
    [|simpl; lra].
  intros spark P other Hs Ho _ HP.
  etrans; [by apply resolve_total | done].
Qed.

Lemma interaction_pass_creates_no_energy_witness :
  totalEnergy
    (SparkSystem.heap (SparkSystem.processInteractions CONFIG demoEnv (1 / 60)
                         (demoSys (1 / 2) 0 [])))
    [0%nat; 1%nat]
  <= 8 / 10 + 1 / 2.
Proof.
  etrans; [apply (interaction_pass_creates_no_energy CONFIG demoEnv (1 / 60)
                    (demoSys (1 / 2) 0 []))|].
  - simpl. apply NoDup_cons. split; [set_solver|]. apply NoDup_singleton.
  - simpl. lra.
Defined.

(** X29.  The counter of the pass passes the cap by less than the
    population: the cap is tested before the neighbours of a spark are
    scanned, which are at most the other sparks, so that on a population of
    [n] sparks without repeated addresses the counter ends at
    [maxInteractionsPerFrame + n - 2] at most. *)
Theorem interaction_cap_overshoot_bounded (cfg : Config) (E : Env) (dt : R)
    (st : SparkSystem.t) :
  NoDup (SparkSystem.sparks st) ->
  (SparkSystem.interactions (SparkSystem.interactionPass cfg E dt st)
   <= maxInteractionsPerFrame cfg + length (SparkSystem.sparks st) - 2)%nat.
Proof.
  intros Hnd. unfold SparkSystem.interactionPass.
  apply (resolveAll_count cfg E dt (SparkSystem.heap st)); [done | done | done |].
  simpl. lia.
Qed.

Lemma interaction_cap_overshoot_bounded_witness :
  (SparkSystem.interactions (SparkSystem.interactionPass CONFIG demoEnv (1 / 60) (rowSys 50))
   <= 1248)%nat.
Proof.
  apply (interaction_cap_overshoot_bounded CONFIG demoEnv (1 / 60) (rowSys 50)).
  apply NoDup_seq.
Defined.

(** ** Connection keys *)

(** X30.  The key of a pair is the pair of the two ids in increasing order:
    it does not depend on the order of the two sparks, and two pairs have
    the same key exactly when they carry the same two ids. *)
Theorem connection_key_canonical (s1 s2 s3 s4 : Spark.t) :
  SparkSystem.getConnectionKey s1 s2
  = (Nat.min (Spark.id s1) (Spark.id s2), Nat.max (Spark.id s1) (Spark.id s2))
  /\ SparkSystem.getConnectionKey s1 s2 = SparkSystem.getConnectionKey s2 s1
  /\ (SparkSystem.getConnectionKey s1 s2 = SparkSystem.getConnectionKey s3 s4
      <-> (Spark.id s1 = Spark.id s3 /\ Spark.id s2 = Spark.id s4)
          \/ (Spark.id s1 = Spark.id s4 /\ Spark.id s2 = Spark.id s3)).
Proof.
  split; [|split; [apply key_sym|split; [apply key_inj|]]].
  - unfold SparkSystem.getConnectionKey.
    destruct (Nat.ltb_spec (Spark.id s1) (Spark.id s2)); f_equal; lia.
  - unfold SparkSystem.getConnectionKey.
    intros [[-> ->]|[-> ->]]; [done|].
    destruct (Nat.ltb_spec (Spark.id s4) (Spark.id s3)),
             (Nat.ltb_spec (Spark.id s3) (Spark.id s4)); try done; try lia.
    f_equal; lia.
Qed.
